(** * bert4keras.optimizers: the Adam optimizer and its extension transforms

    A shallow embedding of [bert4keras/optimizers.py].

    The module is graph-building code: [get_updates] and
    [_resource_apply_op] are run once by Python and return symbolic
    tensors and update ops, which a session then executes at every
    training step.  The embedding keeps the two levels apart.

    - Run time.  A [runtime] holds the values of the variables and the step
      counter [iterations].  A symbolic tensor is a computation [R tensor]:
      evaluating it yields a value and may first run the update ops it
      depends on.  [tf.control_dependencies([a, b])] is the sequencing
      [_ ← a; _ ← b; ...]; a tensor used several times is bound once.
      A tensor built outside such a block is not ordered with the ops of
      the block; where a write to what it reads stands between the two,
      a [Scheduler] says which comes first.
    - Build time.  A [build_state] holds what Python mutates while the
      graph is built: the global [K.update], the attributes the optimizer
      instance sets on [self], and the variables created so far with their
      initial values.  Build-time code lives in the monad [B], which can
      raise; a raised exception keeps the state reached so far, as in
      Python.

    The numeric runtime (tensors and their arithmetic) is an interface,
    [Backend]: no algebraic law is assumed of it, so an equation proved
    here holds of floating-point tensors exactly as written.  [QBackend]
    instantiates it with vectors of rationals for concrete runs. *)

From Stdlib Require Import ZArith QArith.
From stdpp Require Import base option list gmap strings.

Local Open Scope Z_scope.

(** ** The numeric runtime *)

Class Backend (tensor : Type) : Type := {
  (** a Python number used as a tensor ([K.cast], [K.constant]) *)
  t_const : Q → tensor;
  t_add : tensor → tensor → tensor;
  t_sub : tensor → tensor → tensor;
  t_mul : tensor → tensor → tensor;
  t_div : tensor → tensor → tensor;
  (** [K.sqrt], [K.pow], [tf.norm] *)
  t_sqrt : tensor → tensor;
  t_pow : tensor → tensor → tensor;
  t_norm : tensor → tensor;
  (** [a > b] on scalars, as the predicate of a [K.switch] *)
  t_gt : tensor → tensor → bool;
  (** [K.zeros(K.int_shape(p))], [K.zeros_like] *)
  t_zeros_like : tensor → tensor;
  (** the value of [x] after [resource_scatter_add(x, i, v)] *)
  t_scatter_add : tensor → list nat → tensor → tensor;
  (** [_deduplicate_indexed_slices(values, indices)] *)
  t_deduplicate : tensor → list nat → tensor * list nat;
}.

Declare Scope tensor_scope.
Delimit Scope tensor_scope with T.
Notation "a + b" := (t_add a b) : tensor_scope.
Notation "a - b" := (t_sub a b) : tensor_scope.
Notation "a * b" := (t_mul a b) : tensor_scope.
Notation "a / b" := (t_div a b) : tensor_scope.

(** ** Variables

    Variable names are unique within a graph, so a variable is identified
    with its name.  A trainable parameter carries the name the model gave
    it; a slot is named after its owner; a buffer made by
    [K.zeros(..., name='prefix_%s' % i)] after its prefix and position. *)

Inductive var : Type :=
  | Param (name : string)
  | Slot (owner : string) (slot_name : string)
  | Buffer (prefix : string) (i : nat).

Global Instance var_eq_dec : EqDecision var.
Proof. solve_decision. Defined.

Definition var_to_sum (x : var) : string + (string * string) + (string * nat) :=
  match x with
  | Param n => inl (inl n)
  | Slot o s => inl (inr (o, s))
  | Buffer p i => inr (p, i)
  end.

Definition var_of_sum (s : string + (string * string) + (string * nat)) : var :=
  match s with
  | inl (inl n) => Param n
  | inl (inr (o, s)) => Slot o s
  | inr (p, i) => Buffer p i
  end.

Lemma var_of_to_sum x : var_of_sum (var_to_sum x) = x.
Proof. by destruct x. Qed.

Global Instance var_countable : Countable var :=
  inj_countable' var_to_sum var_of_sum var_of_to_sum.

(** The string [re.search] sees in [w.name]. *)
Definition name (x : var) : string :=
  match x with
  | Param n => n
  | Slot o s => o +:+ "/" +:+ s
  | Buffer p _ => p
  end.

(** ** Exceptions and the two monads *)

Inductive exception : Type :=
  | ValueError | KeyError | TypeError | AttributeError.

Inductive result (A : Type) : Type :=
  | Ok (a : A)
  | Raise (e : exception).
Arguments Ok {A} a.
Arguments Raise {A} e.

(** ** The optimizer classes and the attributes of an instance

    [extend_with_*] returns a subclass of its argument; a class built by
    the module is therefore [Adam] under a stack of extensions.  The
    attributes every [__init__] of the stack stores on [self] are kept in
    one record, as they are on the Python object. *)

Inductive optimizer : Type :=
  | Adam
  | extend_with_weight_decay (base_optimizer : optimizer)
  | extend_with_layer_adaptation (base_optimizer : optimizer)
  | extend_with_piecewise_linear_lr (base_optimizer : optimizer)
  | extend_with_gradient_accumulation (base_optimizer : optimizer)
  | extend_with_gradient_accumulation_v2 (base_optimizer : optimizer)
  | extend_with_lookahead (base_optimizer : optimizer)
  | extend_with_lookahead_v2 (base_optimizer : optimizer).

Record attrs : Type := Attrs {
  learning_rate : Q;
  beta_1 : Q;
  beta_2 : Q;
  epsilon : Q;
  weight_decay_rate : Q;
  exclude_from_weight_decay : list string;
  exclude_from_layer_adaptation : list string;
  lr_schedule : list (Z * Q);
  steps_per_update : Z;
  steps_per_slow_update : Z;
  slow_step_size : Q;
}.

(** The same instance constructed with another [weight_decay_rate]. *)
Definition with_weight_decay_rate (r : Q) (self : attrs) : attrs :=
  Attrs (learning_rate self) (beta_1 self) (beta_2 self) (epsilon self) r
    (exclude_from_weight_decay self) (exclude_from_layer_adaptation self)
    (lr_schedule self) (steps_per_update self) (steps_per_slow_update self)
    (slow_step_size self).

(** Modelled from the spec: [piecewise_linear] is imported from
    [bert4keras.backend], which is not part of the sources.  The spec
    (4.5) defines the multiplier as the linear interpolation between
    consecutive (step, multiplier) breakpoints, taken in ascending order
    of step, starting implicitly at multiplier 0 at step 0 and holding
    the last multiplier after the final breakpoint. *)
Fixpoint interpolate (t0 : Z) (x0 : Q) (schedule : list (Z * Q)) (t : Z) : Q :=
  match schedule with
  | [] => x0
  | (t1, x1) :: rest =>
      if (t <? t1)%Z
      then (x0 + (x1 - x0) / inject_Z (t1 - t0) * inject_Z (t - t0))%Q
      else interpolate t1 x1 rest t
  end.

Definition piecewise_linear (t : Z) (schedule : list (Z * Q)) : Q :=
  interpolate 0 0%Q schedule t.

(** A graph orders two ops only where one depends on the other.  The one
    place of the module where it matters is the tensor [slow_var_t] of the
    slot-based lookahead, which is built before the block that depends on
    the op of the base class: [reads_first var t] tells whether, at the
    step [t], the runtime evaluates [slow_var_t] of the variable [var]
    before that op ([true]) or after it ([false]). *)
Class Scheduler : Type := reads_first : string → Z → bool.

Section optimizers.

Context {tensor : Type} `{!Backend tensor} {scheduler : Scheduler}.

(** [re.search(n, w.name)] finds a match; [K.epsilon()]. *)
Context (re_search : string → string → bool) (K_epsilon : Q).

Global Instance tensor_inhabited : Inhabited tensor := populate (t_const 0%Q).

(** *** Run time *)

Record runtime : Type := Runtime {
  vars : gmap var tensor;
  iterations : Z;
}.

Definition R (A : Type) : Type := runtime → A * runtime.

Global Instance R_ret : MRet R := λ A a rt, (a, rt).
Global Instance R_bind : MBind R := λ A C f m rt,
  let '(a, rt') := m rt in f a rt'.

(** A symbolic tensor. *)
Definition Tensor : Type := R tensor.

(** The value and the final state of running a tensor or an op. *)
Definition value {A} (m : R A) (rt : runtime) : A := (m rt).1.
Definition exec {A} (m : R A) (rt : runtime) : runtime := (m rt).2.

(** Using a variable as a tensor reads its current value. *)
Definition read (x : var) : Tensor := λ rt, (vars rt !!! x, rt).

Definition assign (x : var) (v : tensor) : R unit := λ rt,
  ((), Runtime (<[x := v]> (vars rt)) (iterations rt)).

(** [self.iterations], read as the count of the steps completed before
    this one: the counter is incremented when the step's ops have run
    (see [train_step]). *)
Definition read_iterations : R Z := λ rt, (iterations rt, rt).

Definition const (q : Q) : Tensor := mret (t_const q).

Definition lift2 (f : tensor → tensor → tensor) (a b : Tensor) : Tensor :=
  x ← a; y ← b; mret (f x y).

Declare Scope sym_scope.
Delimit Scope sym_scope with S.
Notation "a + b" := (lift2 t_add a b) : sym_scope.
Notation "a - b" := (lift2 t_sub a b) : sym_scope.
Notation "a * b" := (lift2 t_mul a b) : sym_scope.
Notation "a / b" := (lift2 t_div a b) : sym_scope.
Notation "a ** b" := (lift2 t_pow a b) (at level 30, right associativity) : sym_scope.

Definition K_sqrt (a : Tensor) : Tensor := x ← a; mret (t_sqrt x).
Definition tf_norm (a : Tensor) : Tensor := x ← a; mret (t_norm x).

(** [K.switch(cond, a, b)]: both tensors were built outside the branches,
    so both are evaluated, and the predicate selects. *)
Definition K_switch (cond : R bool) (a b : Tensor) : Tensor :=
  c ← cond; x ← a; y ← b; mret (if (c : bool) then x else y).

(** [K.equal(self.iterations % n, 0)] *)
Definition iterations_mod_is_zero (n : Z) : R bool :=
  t ← read_iterations; mret (bool_decide (t `mod` n = 0)).

(** [keras.backend.update(x, new_x)]: assign, and return [x] as updated. *)
Definition K_update_default (x : var) (new_x : Tensor) : Tensor :=
  v ← new_x; _ ← assign x v; read x.

(** [_resource_scatter_add(x, i, v)] of the base class: it does not go
    through [K.update]. *)
Definition _resource_scatter_add (x : var) (i : R (list nat)) (v : Tensor) : Tensor :=
  u ← v; idx ← i; old ← read x; _ ← assign x (t_scatter_add old idx u); read x.

Definition K_zeros_like (a : Tensor) : Tensor := x ← a; mret (t_zeros_like x).

(** The gradient of the loss for a parameter: a tensor, or the rows
    [values] at [indices] ([tf.IndexedSlices]). *)
Inductive grad : Type :=
  | Dense (g : Tensor)
  | IndexedSlices (values : Tensor) (indices : R (list nat)).

(** An [IndexedSlices] used where a tensor is expected is summed into a
    dense tensor of the shape of the variable [like]. *)
Definition convert_to_tensor (g : grad) (like : var) : Tensor :=
  match g with
  | Dense g => g
  | IndexedSlices values indices =>
      u ← values; idx ← indices; z ← K_zeros_like (read like);
      mret (t_scatter_add z idx u)
  end.

(** The gradient fed at each training step, as a symbolic tensor. *)
Definition feed {A} (g : Z → A) : R A :=
  t ← read_iterations; mret (g t).

(** A tensor [a] built outside the block [with
    tf.control_dependencies([op])], and used inside it: [op] runs, and
    [a] is evaluated before it or after it, as the runtime has it. *)
Definition unordered_with (var : string) (a : Tensor) (op : Tensor) : Tensor :=
  t ← read_iterations;
  if reads_first var t then x ← a; _ ← op; mret x else _ ← op; a.

(** *** Build time *)

Definition update_fn : Type := var → Tensor → Tensor.

Record build_state : Type := BuildState {
  (** the module attribute [K.update] *)
  K_update : update_fn;
  (** the variables of the graph, with their initial values *)
  variables : gmap var tensor;
  (** [self._first_get_gradients], [self.accum_grads], [self.instant_grads] *)
  _first_get_gradients : bool;
  accum_grads : option (list var);
  instant_grads : gmap string grad;
}.

Definition B (A : Type) : Type := build_state → result A * build_state.

Global Instance B_ret : MRet B := λ A a bs, (Ok a, bs).
Global Instance B_bind : MBind B := λ A C f m bs,
  match m bs with
  | (Ok a, bs') => f a bs'
  | (Raise e, bs') => (Raise e, bs')
  end.

Definition raise {A} (e : exception) : B A := λ bs, (Raise e, bs).

Definition get_K_update : B update_fn := λ bs, (Ok (K_update bs), bs).
Definition with_K_update (f : update_fn) (bs : build_state) : build_state :=
  BuildState f (variables bs) (_first_get_gradients bs)
    (accum_grads bs) (instant_grads bs).
Definition set_K_update (f : update_fn) : B unit := λ bs,
  (Ok (), with_K_update f bs).

(** A call [K.update(x, new_x)]: whatever function the attribute holds
    at the moment of the call. *)
Definition K_update_call (x : var) (new_x : Tensor) : B Tensor :=
  f ← get_K_update; mret (f x new_x).

Definition with_variables (vs : gmap var tensor) (bs : build_state)
    : build_state :=
  BuildState (K_update bs) vs (_first_get_gradients bs)
    (accum_grads bs) (instant_grads bs).
Definition create_variable (x : var) (init : tensor) : B unit := λ bs,
  (Ok (), with_variables (<[x := init]> (variables bs)) bs).

Definition get_variables : B (gmap var tensor) := λ bs, (Ok (variables bs), bs).

(** [K.zeros(K.int_shape(p), dtype=K.dtype(p), name=...)] *)
Definition K_zeros_like_param (p : string) (x : var) : B var :=
  vs ← get_variables;
  _ ← create_variable x (t_zeros_like (vs !!! Param p));
  mret x.

(** [self.add_slot(var, slot_name)]: created with zeros, once. *)
Definition add_slot (p : string) (slot_name : string) : B unit := λ bs,
  match variables bs !! Slot p slot_name with
  | Some _ => (Ok (), bs)
  | None =>
      create_variable (Slot p slot_name)
        (t_zeros_like (variables bs !!! Param p)) bs
  end.

(** [self.get_slot(var, slot_name)]: a slot that was never added is a
    [KeyError]. *)
Definition get_slot (p : string) (slot_name : string) : B var := λ bs,
  match variables bs !! Slot p slot_name with
  | Some _ => (Ok (Slot p slot_name), bs)
  | None => (Raise KeyError, bs)
  end.

Fixpoint mapM {A C} (f : A → B C) (l : list A) : B (list C) :=
  match l with
  | [] => mret []
  | a :: l' => c ← f a; cs ← mapM f l'; mret (c :: cs)
  end.

(** Running ops one after the other. *)
Fixpoint run_all {A} (ops : list (R A)) : R unit :=
  match ops with
  | [] => mret ()
  | op :: ops' => _ ← op; run_all ops'
  end.

Definition get_first_get_gradients : B bool := λ bs,
  (Ok (_first_get_gradients bs), bs).
Definition set_first_get_gradients (b : bool) : B unit := λ bs,
  (Ok (), BuildState (K_update bs) (variables bs) b
            (accum_grads bs) (instant_grads bs)).

(** Reading [self.accum_grads] before it was ever set is an
    [AttributeError]. *)
Definition get_accum_grads : B (list var) := λ bs,
  match accum_grads bs with
  | Some l => (Ok l, bs)
  | None => (Raise AttributeError, bs)
  end.
Definition set_accum_grads (l : list var) : B unit := λ bs,
  (Ok (), BuildState (K_update bs) (variables bs) (_first_get_gradients bs)
            (Some l) (instant_grads bs)).

(** [self.instant_grads = dict(zip(params, grads))] and
    [self.instant_grads[var]] *)
Definition set_instant_grads (params : list string) (grads : list grad) : B unit :=
  λ bs,
  (Ok (), BuildState (K_update bs) (variables bs) (_first_get_gradients bs)
            (accum_grads bs)
            (foldl (λ d pg, <[pg.1 := pg.2]> d) ∅ (zip params grads))).
Definition get_instant_grad (p : string) : B grad := λ bs,
  match instant_grads bs !! p with
  | Some g => (Ok g, bs)
  | None => (Raise KeyError, bs)
  end.

(** ** The base class of the framework

    [keras.optimizers.Optimizer] is not part of the module; what the
    module relies on is modelled here.  [get_gradients] raises a
    [ValueError] when the loss has no gradient for a parameter. *)

Definition Optimizer_get_gradients
    (loss : string → option grad) (params : list string) : B (list grad) :=
  mapM (λ p, match loss p with
             | Some g => mret g
             | None => raise ValueError
             end) params.

(** ** Adam *)

Definition Adam__create_slots (var_list : list string) : B unit :=
  _ ← mapM (λ var, _ ← add_slot var "m"; add_slot var "v") var_list;
  mret ().

Definition Adam__resource_apply_op (self : attrs)
    (grad : Tensor) (p : string) (indices : option (R (list nat))) : B Tensor :=
  let var := Param p in
  (* 准备变量 *)
  let lr_t := const (learning_rate self) in
  m ← get_slot p "m";
  v ← get_slot p "v";
  let beta_1_t := const (beta_1 self) in
  let beta_2_t := const (beta_2 self) in
  let epsilon_t := const (epsilon self) in
  let local_step : Tensor :=
    t ← read_iterations; mret (t_const (inject_Z (t + 1))) in
  let beta_1_t_power := (beta_1_t ** local_step)%S in
  let beta_2_t_power := (beta_2_t ** local_step)%S in
  (* 更新公式 *)
  mv_t ←
    match indices with
    | None =>
        update ← get_K_update;
        let m_t := update m (beta_1_t * read m + (const 1 - beta_1_t) * grad)%S in
        update ← get_K_update;
        let v_t :=
          update v (beta_2_t * read v
                    + (const 1 - beta_2_t) * grad ** const 2)%S in
        mret (mt ← m_t; vt ← v_t; mret (mt, vt))
    | Some indices =>
        update ← get_K_update;
        let decay_m := update m (beta_1_t * read m)%S in
        update ← get_K_update;
        let decay_v := update v (beta_2_t * read v)%S in
        let m_t :=
          _resource_scatter_add m indices ((const 1 - beta_1_t) * grad)%S in
        let v_t :=
          _resource_scatter_add v indices
            ((const 1 - beta_2_t) * grad ** const 2)%S in
        mret (_ ← decay_m; _ ← decay_v; mt ← m_t; vt ← v_t; mret (mt, vt))
    end;
  (* 返回算子 *)
  update ← get_K_update;
  mret ('(m_t, v_t) ← mv_t;
        let var_t :=
          (read var - lr_t * mret m_t
                      / (K_sqrt (mret v_t) + const (epsilon self)))%S in
        update var var_t).

(** ** The [new_update] of each extension *)

(** [_do_weight_decay] and [_do_layer_adaptation]: the loop over the
    exclude patterns. *)
Fixpoint no_pattern_matches (patterns : list string) (w : var) : bool :=
  match patterns with
  | [] => true
  | n :: patterns' =>
      if re_search n (name w) then false else no_pattern_matches patterns' w
  end.

Definition _do_weight_decay (self : attrs) (w : var) : bool :=
  no_pattern_matches (exclude_from_weight_decay self) w.

Definition _do_layer_adaptation (self : attrs) (w : var) : bool :=
  no_pattern_matches (exclude_from_layer_adaptation self) w.

Definition weight_decay_new_update (self : attrs) (param_names : list var)
    (old_update : update_fn) : update_fn := λ x new_x,
  if bool_decide (x ∈ param_names) && _do_weight_decay self x
  then
    old_update x
      (new_x - const (learning_rate self) * const (weight_decay_rate self)
               * read x)%S
  else old_update x new_x.

Definition layer_adaptation_new_update (self : attrs) (param_names : list var)
    (old_update : update_fn) : update_fn := λ x new_x,
  if bool_decide (x ∈ param_names) && _do_layer_adaptation self x
  then
    old_update x
      (dx ← (new_x - read x)%S;
       x_norm ← tf_norm (read x);
       g_norm ← tf_norm (mret dx / const (learning_rate self))%S;
       ratio ←
         K_switch (mret (t_gt x_norm (t_const 0)))
           (K_switch (mret (t_gt g_norm (t_const K_epsilon)))
              (mret x_norm / mret g_norm)%S (const 1))
           (const 1);
       (read x + mret dx * mret ratio)%S)
  else old_update x new_x.

(** [self.lr_multiplier = piecewise_linear(self.iterations, self.lr_schedule)] *)
Definition lr_multiplier (self : attrs) : Tensor :=
  t ← read_iterations; mret (t_const (piecewise_linear t (lr_schedule self))).

Definition piecewise_linear_lr_new_update (self : attrs) (param_names : list var)
    (old_update : update_fn) : update_fn := λ x new_x,
  if bool_decide (x ∈ param_names)
  then old_update x (read x + (new_x - read x) * lr_multiplier self)%S
  else old_update x new_x.

Definition gradient_accumulation_new_update (cond : R bool)
    (old_update : update_fn) : update_fn := λ x new_x,
  old_update x (K_switch cond new_x (read x)).

(** ** The methods, by class

    A method is looked up on the class of the instance ([cls0]) and may be
    inherited; [super(new_optimizer, self)] continues with the base class. *)

Fixpoint _create_slots (cls : optimizer) (var_list : list string) : B unit :=
  match cls with
  | Adam => Adam__create_slots var_list
  | extend_with_lookahead_v2 base =>
      _ ← _create_slots base var_list;
      _ ← mapM (λ var, add_slot var "slow_var") var_list;
      mret ()
  | extend_with_weight_decay base
  | extend_with_layer_adaptation base
  | extend_with_piecewise_linear_lr base
  | extend_with_gradient_accumulation base
  | extend_with_gradient_accumulation_v2 base
  | extend_with_lookahead base => _create_slots base var_list
  end.

Fixpoint get_gradients (cls : optimizer) (self : attrs)
    (loss : string → option grad) (params : list string) : B (list grad) :=
  match cls with
  | Adam => Optimizer_get_gradients loss params
  | extend_with_gradient_accumulation base =>
      first ← get_first_get_gradients;
      if (first : bool) then
        _ ← set_first_get_gradients false;
        get_gradients base self loss params
      else
        ags ← get_accum_grads;
        mret ((λ ag, Dense (read ag / const (inject_Z (steps_per_update self)))%S)
                <$> ags)
  | extend_with_gradient_accumulation_v2 base =>
      first ← get_first_get_gradients;
      if (first : bool) then
        _ ← set_first_get_gradients false;
        _ ← mapM (λ p, add_slot p "ag") params;
        get_gradients base self loss params
      else
        mapM (λ p, ag ← get_slot p "ag";
                   mret (Dense (read ag
                                / const (inject_Z (steps_per_update self)))%S))
          params
  | extend_with_weight_decay base
  | extend_with_layer_adaptation base
  | extend_with_piecewise_linear_lr base
  | extend_with_lookahead base
  | extend_with_lookahead_v2 base => get_gradients base self loss params
  end.

(** The third argument of [_resource_apply_op]: [None] when the call
    passes two arguments, [Some indices] when it passes [indices]
    (which may itself be Python's [None]). *)
Fixpoint _resource_apply_op (cls : optimizer) (self : attrs) (grad : Tensor)
    (var : string) (indices : option (option (R (list nat)))) : B Tensor :=
  match cls with
  | Adam => Adam__resource_apply_op self grad var (mjoin indices)
  | extend_with_gradient_accumulation_v2 base =>
      match indices with
      | Some _ => raise TypeError
      | None =>
          (* 更新判据 *)
          let cond := iterations_mod_is_zero (steps_per_update self) in
          old_update ← get_K_update;
          _ ← set_K_update (gradient_accumulation_new_update cond old_update);
          op ← _resource_apply_op base self grad var None;
          _ ← set_K_update old_update;
          (* 获取梯度 *)
          g_t ← get_instant_grad var;
          ag_t ← get_slot var "ag";
          let g_t :=
            match g_t with
            | Dense g => g
            | IndexedSlices _ _ =>
                (convert_to_tensor g_t ag_t + K_zeros_like (read ag_t))%S
            end in
          (* 累积梯度 *)
          update ← get_K_update;
          mret (_ ← op; update ag_t (K_switch cond g_t (read ag_t + g_t)%S))
      end
  | extend_with_lookahead_v2 base =>
      op ← _resource_apply_op base self grad var (Some (mjoin indices));
      let k := steps_per_slow_update self in
      let alpha := slow_step_size self in
      let cond := iterations_mod_is_zero k in
      slow_var ← get_slot var "slow_var";
      (* built here, before the block that depends on [op] *)
      let slow_var_t :=
        (read slow_var + const alpha * (read (Param var) - read slow_var))%S in
      update ← get_K_update;
      let slow_update :=
        slow_var_t ← unordered_with var slow_var_t op;
        update slow_var (K_switch cond (mret slow_var_t) (read slow_var)) in
      update ← get_K_update;
      let copy_update :=
        _ ← slow_update;
        update (Param var) (K_switch cond (read slow_var) (read (Param var))) in
      mret copy_update
  | extend_with_weight_decay base
  | extend_with_layer_adaptation base
  | extend_with_piecewise_linear_lr base
  | extend_with_gradient_accumulation base
  | extend_with_lookahead base => _resource_apply_op base self grad var indices
  end.

(** [Adam._resource_apply_dense] and [Adam._resource_apply_sparse]: they
    are not overridden by any extension and call [self._resource_apply_op]. *)
Definition _resource_apply_dense (cls0 : optimizer) (self : attrs)
    (grad : Tensor) (var : string) : B Tensor :=
  _resource_apply_op cls0 self grad var None.

Definition _resource_apply_sparse (cls0 : optimizer) (self : attrs)
    (grad : Tensor) (var : string) (indices : R (list nat)) : B Tensor :=
  _resource_apply_op cls0 self grad var (Some (Some indices)).

(** [get_updates] of the framework's base class: the gradients, the slots,
    then one update op per parameter.  A sparse gradient has its
    duplicate indices summed first. *)
Definition Optimizer_apply_gradient (cls0 : optimizer) (self : attrs)
    (gv : grad * string) : B Tensor :=
  match gv.1 with
  | Dense g => _resource_apply_dense cls0 self g gv.2
  | IndexedSlices values indices =>
      let dedup := u ← values; idx ← indices; mret (t_deduplicate u idx) in
      _resource_apply_sparse cls0 self
        (d ← dedup; mret d.1) gv.2 (d ← dedup; mret d.2)
  end.

Definition Optimizer_get_updates (cls0 : optimizer) (self : attrs)
    (loss : string → option grad) (params : list string) : B (R unit) :=
  grads ← get_gradients cls0 self loss params;
  _ ← _create_slots cls0 params;
  update_ops ← mapM (Optimizer_apply_gradient cls0 self) (zip grads params);
  mret (run_all update_ops).

Fixpoint get_updates (cls : optimizer) (cls0 : optimizer) (self : attrs)
    (loss : string → option grad) (params : list string) : B (R unit) :=
  match cls with
  | Adam => Optimizer_get_updates cls0 self loss params
  | extend_with_weight_decay base =>
      let param_names := Param <$> params in
      old_update ← get_K_update;
      _ ← set_K_update (weight_decay_new_update self param_names old_update);
      updates ← get_updates base cls0 self loss params;
      _ ← set_K_update old_update;
      mret updates
  | extend_with_layer_adaptation base =>
      let param_names := Param <$> params in
      old_update ← get_K_update;
      _ ← set_K_update (layer_adaptation_new_update self param_names old_update);
      updates ← get_updates base cls0 self loss params;
      _ ← set_K_update old_update;
      mret updates
  | extend_with_piecewise_linear_lr base =>
      let param_names := Param <$> params in
      old_update ← get_K_update;
      _ ← set_K_update
            (piecewise_linear_lr_new_update self param_names old_update);
      updates ← get_updates base cls0 self loss params;
      _ ← set_K_update old_update;
      mret updates
  | extend_with_gradient_accumulation base =>
      (* 更新判据 *)
      let cond := iterations_mod_is_zero (steps_per_update self) in
      (* 获取梯度 *)
      grads ← get_gradients cls0 self loss params;
      ags ← mapM (λ ip, K_zeros_like_param ip.2 (Buffer "accum_grad" ip.1))
               (imap pair params);
      _ ← set_accum_grads ags;
      old_update ← get_K_update;
      _ ← set_K_update (gradient_accumulation_new_update cond old_update);
      updates ← get_updates base cls0 self loss params;
      _ ← set_K_update old_update;
      (* 累积梯度 *)
      accum_updates ←
        mapM (λ gag : grad * var,
                update ← get_K_update;
                let g := convert_to_tensor gag.1 gag.2 in
                mret (_ ← updates;
                      update gag.2 (K_switch cond g (read gag.2 + g)%S)))
          (zip grads ags);
      (* [self.updates] is the list the base class built and returned:
         [accum_updates] is not part of it *)
      mret updates
  | extend_with_gradient_accumulation_v2 base =>
      grads ← get_gradients cls0 self loss params;
      _ ← set_instant_grads params grads;
      get_updates base cls0 self loss params
  | extend_with_lookahead base =>
      updates ← get_updates base cls0 self loss params;
      let k := steps_per_slow_update self in
      let alpha := slow_step_size self in
      let cond := iterations_mod_is_zero k in
      slow_vars ← mapM (λ ip, K_zeros_like_param ip.2 (Buffer "slow_var" ip.1))
                     (imap pair params);
      slow_updates ←
        mapM (λ pq : string * var,
                let p := Param pq.1 in
                let q := pq.2 in
                update ← get_K_update;
                mret (update q
                        (K_switch cond
                           (read q + const alpha * (read p - read q))%S
                           (read q))))
          (zip params slow_vars);
      copy_updates ←
        mapM (λ pq : string * var,
                let p := Param pq.1 in
                let q := pq.2 in
                update ← get_K_update;
                mret (update p (K_switch cond (read q) (read p))))
          (zip params slow_vars);
      mret (_ ← updates; _ ← run_all slow_updates; run_all copy_updates)
  | extend_with_lookahead_v2 base => get_updates base cls0 self loss params
  end.

(** ** A training session

    The graph is built once; each step runs the returned ops and then
    counts the step. *)

Definition initial_build_state (params : gmap var tensor) : build_state :=
  BuildState K_update_default params true None ∅.

Definition train_step {A} (updates : R A) (rt : runtime) : runtime :=
  let rt' := exec updates rt in
  Runtime (vars rt') (iterations rt' + 1).

Fixpoint train {A} (updates : R A) (n : nat) (rt : runtime) : runtime :=
  match n with
  | O => rt
  | S n' => train updates n' (train_step updates rt)
  end.

(** ** The ops the methods build, as functions of the installed hook *)

(** The op [Adam._resource_apply_op] returns when [K.update] is [update]
    throughout the call. *)
Definition Adam_op (update : update_fn) (self : attrs) (grad : Tensor)
    (p : string) (indices : option (R (list nat))) : Tensor :=
  let m := Slot p "m" in
  let v := Slot p "v" in
  let beta_1_t := const (beta_1 self) in
  let beta_2_t := const (beta_2 self) in
  let mv_t : R (tensor * tensor) :=
    match indices with
    | None =>
        mt ← update m (beta_1_t * read m + (const 1 - beta_1_t) * grad)%S;
        vt ← update v (beta_2_t * read v
                       + (const 1 - beta_2_t) * grad ** const 2)%S;
        mret (mt, vt)
    | Some indices =>
        _ ← update m (beta_1_t * read m)%S;
        _ ← update v (beta_2_t * read v)%S;
        mt ← _resource_scatter_add m indices ((const 1 - beta_1_t) * grad)%S;
        vt ← _resource_scatter_add v indices
               ((const 1 - beta_2_t) * grad ** const 2)%S;
        mret (mt, vt)
    end in
  '(m_t, v_t) ← mv_t;
  update (Param p)
    (read (Param p) - const (learning_rate self) * mret m_t
                      / (K_sqrt (mret v_t) + const (epsilon self)))%S.

(** The op the framework builds for one (gradient, parameter) pair when
    [_resource_apply_op] is Adam's. *)
Definition Adam_apply (update : update_fn) (self : attrs) (g : grad)
    (p : string) : Tensor :=
  match g with
  | Dense g => Adam_op update self g p None
  | IndexedSlices values indices =>
      let dedup := u ← values; idx ← indices; mret (t_deduplicate u idx) in
      Adam_op update self (d ← dedup; mret d.1) p (Some (d ← dedup; mret d.2))
  end.

(** The op [_resource_apply_op] of the slot-based gradient accumulation
    returns over Adam, when [K.update] is [update] at the call and the
    instantaneous gradient of [p] is [g_t]. *)
Definition gradient_accumulation_v2_op (update : update_fn) (self : attrs)
    (gradient : Tensor) (g_t : grad) (p : string) : Tensor :=
  let cond := iterations_mod_is_zero (steps_per_update self) in
  let ag_t := Slot p "ag" in
  let g :=
    match g_t with
    | Dense g => g
    | IndexedSlices _ _ =>
        (convert_to_tensor g_t ag_t + K_zeros_like (read ag_t))%S
    end in
  _ ← Adam_op (gradient_accumulation_new_update cond update) self gradient p
        None;
  update ag_t (K_switch cond g (read ag_t + g)%S).

(** The gradient [get_gradients] returns on its second call. *)
Definition accumulated_gradient (self : attrs) (ag : var) : Tensor :=
  (read ag / const (inject_Z (steps_per_update self)))%S.

(** [g t + g (t + 1) + ... + g (t + n)], added in this order. *)
Fixpoint sum_grads (g : Z → tensor) (t : Z) (n : nat) : tensor :=
  match n with
  | O => g t
  | S n' => (sum_grads g t n' + g (t + Z.of_nat (S n'))%Z)%T
  end.


Definition lookahead_copy_update (update : update_fn) (self : attrs)
    (pq : string * var) : Tensor :=
  let p := Param pq.1 in
  let q := pq.2 in
  let cond := iterations_mod_is_zero (steps_per_slow_update self) in
  update p (K_switch cond (read q) (read p)).

(** The op [_resource_apply_op] of the slot-based lookahead returns, when
    the base class returned [op] and [K.update] is [update]. *)
Definition lookahead_v2_op (update : update_fn) (self : attrs) (op : Tensor)
    (p : string) : Tensor :=
  let pq := (p, Slot p "slow_var") in
  let slow_var := Slot p "slow_var" in
  let cond := iterations_mod_is_zero (steps_per_slow_update self) in
  let slow_var_t :=
    (read slow_var
     + const (slow_step_size self) * (read (Param p) - read slow_var))%S in
  _ ← (slow_var_t ← unordered_with p slow_var_t op;
       update slow_var (K_switch cond (mret slow_var_t) (read slow_var)));
  lookahead_copy_update update self pq.



(** [slow + alpha * (fast - slow)] *)
Definition lookahead_slow (self : attrs) (slow fast : tensor) : tensor :=
  (slow + t_const (slow_step_size self) * (fast - slow))%T.

(** The variables of one parameter: itself and its slots. *)
Definition fam (p : string) (y : var) : Prop :=
  y = Param p ∨ ∃ s, y = Slot p s.

End optimizers.

(** ** A concrete runtime: vectors of rationals

    Tensors are lists of reduced rationals, a one-element list
    broadcasts, and arithmetic is exact.  The square root is rounded down
    to a multiple of the inverse of the denominator; it is exact on
    squares of rationals.  Powers are exact for integer exponents. *)

Module QBackend.

Definition tensor : Type := list Q.

Definition broadcast (f : Q → Q → Q) (a b : tensor) : tensor :=
  match a, b with
  | [x], _ => (λ y, Qred (f x y)) <$> b
  | _, [y] => (λ x, Qred (f x y)) <$> a
  | _, _ => zip_with (λ x y, Qred (f x y)) a b
  end.

Definition Qsqrt (q : Q) : Q :=
  Qred (Z.sqrt (Qnum q * Zpos (Qden q)) # Qden q).

Definition Qpow (x e : Q) : Q := Qpower x (Qnum e / Zpos (Qden e)).

Definition sum_of_squares (a : tensor) : Q :=
  foldl (λ s x, Qred (s + x * x)) 0%Q a.

Definition Qgt (a b : tensor) : bool :=
  match a, b with
  | [x], [y] => if Qlt_le_dec y x then true else false
  | _, _ => false
  end.

Definition scatter_add (t : tensor) (idx : list nat) (u : tensor) : tensor :=
  foldl (λ t iv,
           match t !! iv.1 with
           | Some x => <[iv.1 := Qred (x + iv.2)]> t
           | None => t
           end) t (zip idx u).

Fixpoint add_at (i : nat) (x : Q) (idx : list nat) (u : tensor)
    : tensor * list nat :=
  match idx, u with
  | j :: idx', y :: u' =>
      if decide (i = j) then (Qred (y + x) :: u', idx)
      else let '(u'', idx'') := add_at i x idx' u' in (y :: u'', j :: idx'')
  | _, _ => ([x], [i])
  end.

Definition deduplicate (u : tensor) (idx : list nat) : tensor * list nat :=
  foldl (λ acc iv, add_at iv.1 iv.2 acc.2 acc.1) ([], []) (zip idx u).

Global Instance backend : Backend tensor := {|
  t_const q := [Qred q];
  t_add := broadcast Qplus;
  t_sub := broadcast Qminus;
  t_mul := broadcast Qmult;
  t_div := broadcast Qdiv;
  t_sqrt a := Qsqrt <$> a;
  t_pow := broadcast Qpow;
  t_norm a := [Qsqrt (sum_of_squares a)];
  t_gt := Qgt;
  t_zeros_like a := (λ _, 0%Q) <$> a;
  t_scatter_add := scatter_add;
  t_deduplicate := deduplicate;
|}.

(** [re.search] for patterns without metacharacters: substring search. *)
Fixpoint is_prefix (n s : string) : bool :=
  match n, s with
  | EmptyString, _ => true
  | String a n', String b s' => bool_decide (a = b) && is_prefix n' s'
  | _, EmptyString => false
  end.

Fixpoint re_search (n s : string) : bool :=
  is_prefix n s ||
  match s with
  | EmptyString => false
  | String _ s' => re_search n s'
  end.

Definition K_epsilon : Q := 1 # 10000000.

End QBackend.

(** A variable that is read before it exists reads as in the abstract
    model, also for the concrete tensors. *)
Global Existing Instance tensor_inhabited | 0.

(** * Properties *)

Ltac run_ops :=
  cbv [mbind mret R_bind R_ret lift2 const read assign K_update_default
       K_sqrt tf_norm K_switch K_zeros_like iterations_mod_is_zero
       read_iterations feed _resource_scatter_add convert_to_tensor
       value exec];
  cbn [fst snd vars iterations].

Ltac build_ops :=
  cbv [mbind mret B_bind B_ret get_K_update set_K_update raise
       get_first_get_gradients set_first_get_gradients get_accum_grads
       set_accum_grads set_instant_grads get_variables create_variable];
  cbn [K_update variables _first_get_gradients accum_grads instant_grads].

Ltac lookups :=
  repeat first
    [ rewrite lookup_total_insert_eq
    | rewrite lookup_total_insert_ne by congruence
    | rewrite lookup_insert_eq
    | rewrite lookup_insert_ne by congruence ].

Section properties.

Context {tensor : Type} `{!Backend tensor} {scheduler : Scheduler}.
Context (re_search : string → string → bool) (K_epsilon : Q).

Implicit Types (bs : build_state (tensor := tensor)).
Implicit Types (rt : runtime (tensor := tensor)).
Implicit Types (self : attrs) (p : string).

(** ** Build-time facts *)

Lemma get_slot_ok p s bs :
  is_Some (variables bs !! Slot p s) →
  get_slot p s bs = (Ok (Slot p s), bs).
Proof. intros [t E]. unfold get_slot. by rewrite E. Qed.

Lemma bind_Ok {A C} (m : B A) (f : A → B C) bs a bs' :
  m bs = (Ok a, bs') → (m ≫= f) bs = f a bs'.
Proof. intros E. unfold mbind, B_bind. by rewrite E. Qed.

Lemma bind_Raise {A C} (m : B A) (f : A → B C) bs e bs' :
  m bs = (Raise e, bs') → (m ≫= f) bs = (Raise e, bs').
Proof. intros E. unfold mbind, B_bind. by rewrite E. Qed.

Lemma Adam__resource_apply_op_ok self (grad : Tensor) p indices bs :
  is_Some (variables bs !! Slot p "m") →
  is_Some (variables bs !! Slot p "v") →
  Adam__resource_apply_op self grad p indices bs
  = (Ok (Adam_op (K_update bs) self grad p indices), bs).
Proof.
  intros Hm Hv. unfold Adam__resource_apply_op.
  rewrite (bind_Ok _ _ _ _ _ (get_slot_ok _ _ _ Hm)).
  rewrite (bind_Ok _ _ _ _ _ (get_slot_ok _ _ _ Hv)).
  destruct indices; reflexivity.
Qed.

(** [succeeds m bs Q]: from [bs], [m] returns normally with [Q]. *)
Definition succeeds {A} (m : B A) bs (Q : A → build_state → Prop) : Prop :=
  ∃ a bs', m bs = (Ok a, bs') ∧ Q a bs'.

Lemma succeeds_ret {A} (a : A) bs (Q : A → build_state → Prop) :
  Q a bs → succeeds (mret a) bs Q.
Proof. intros HQ. by exists a, bs. Qed.

Lemma succeeds_bind {A C} (m : B A) (f : A → B C) bs Q :
  succeeds m bs (λ a bs', succeeds (f a) bs' Q) → succeeds (m ≫= f) bs Q.
Proof.
  intros (a & bs' & E & c & bs'' & E' & HQ).
  exists c, bs''. by rewrite (bind_Ok _ _ _ _ _ E).
Qed.

Lemma succeeds_wand {A} (m : B A) bs (Q Q' : A → build_state → Prop) :
  succeeds m bs Q → (∀ a bs', Q a bs' → Q' a bs') → succeeds m bs Q'.
Proof. intros (a & bs' & E & HQ) HQQ. exists a, bs'. auto. Qed.

(** A loop whose body keeps an invariant [J] and relates each element to
    its result by [Rel]. *)
Lemma succeeds_mapM {A C} (f : A → B C) (J : build_state → Prop)
    (Rel : A → C → Prop) (l : list A) bs :
  J bs →
  (∀ a bs, a ∈ l → J bs → succeeds (f a) bs (λ c bs', Rel a c ∧ J bs')) →
  succeeds (mapM f l) bs (λ cs bs', Forall2 Rel l cs ∧ J bs').
Proof.
  revert bs. induction l as [|a l IH]; intros bs HJ Hf.
  - apply succeeds_ret. split; [constructor | done].
  - cbn [mapM]. apply succeeds_bind.
    eapply succeeds_wand; [apply (Hf a bs); [left | done] |].
    intros c bs1 [Hc HJ1]. cbn beta. apply succeeds_bind.
    eapply succeeds_wand; [apply (IH bs1 HJ1) |].
    + intros a' bs' Ha'. apply Hf. by right.
    + intros cs bs2 [Hcs HJ2]. cbn beta. apply succeeds_ret.
      split; [by constructor | done].
Qed.

Lemma Forall2_fmap_eq {A C} (g : A → C) (l : list A) (cs : list C) :
  Forall2 (λ a c, c = g a) l cs → cs = g <$> l.
Proof. induction 1; [done | by simplify_eq/=]. Qed.

(** [ext bs bs']: [bs'] has the variables of [bs], possibly more, and is
    otherwise [bs]. *)
Definition ext bs bs' : Prop :=
  K_update bs' = K_update bs ∧
  _first_get_gradients bs' = _first_get_gradients bs ∧
  accum_grads bs' = accum_grads bs ∧
  instant_grads bs' = instant_grads bs ∧
  variables bs ⊆ variables bs'.

Lemma ext_refl bs : ext bs bs.
Proof. by repeat split. Qed.

Lemma ext_trans bs1 bs2 bs3 : ext bs1 bs2 → ext bs2 bs3 → ext bs1 bs3.
Proof.
  intros (?&?&?&?&?) (?&?&?&?&?). repeat split; try congruence.
  by etrans.
Qed.

Lemma ext_is_Some bs bs' x :
  ext bs bs' → is_Some (variables bs !! x) → is_Some (variables bs' !! x).
Proof.
  intros (_&_&_&_&Hsub) [v Hv]. exists v. by eapply lookup_weaken.
Qed.

Lemma ext_lookup bs bs' x v :
  ext bs bs' → variables bs !! x = Some v → variables bs' !! x = Some v.
Proof. intros (_&_&_&_&Hsub) Hv. by eapply lookup_weaken. Qed.

(** A slot is created with zeros of the shape of its parameter; a slot
    that exists is left alone. *)
Lemma add_slot_spec p s bs :
  succeeds (add_slot p s) bs (λ _ bs',
    ext bs bs' ∧
    variables bs' !! Slot p s
    = Some (default (t_zeros_like (variables bs !!! Param p))
              (variables bs !! Slot p s))).
Proof.
  unfold succeeds, add_slot.
  destruct (variables bs !! Slot p s) as [v|] eqn:E.
  - exists (), bs. split; [done |]. split; [apply ext_refl | done].
  - eexists _, _. split; [reflexivity |]. split.
    + repeat split. cbn. by apply insert_subseteq.
    + cbn. by rewrite lookup_insert_eq.
Qed.

Lemma succeeds_mapM_ext {A C} (f : A → B C) (J : build_state → Prop)
    (Cr : A → build_state → Prop) (l : list A) bs :
  J bs →
  (∀ a bs, J bs → succeeds (f a) bs (λ _ bs', ext bs bs' ∧ J bs' ∧ Cr a bs')) →
  (∀ a bs bs', Cr a bs → ext bs bs' → Cr a bs') →
  succeeds (mapM f l) bs (λ _ bs',
    ext bs bs' ∧ J bs' ∧ ∀ a, a ∈ l → Cr a bs').
Proof.
  intros HJ Hf Hmono. revert bs HJ.
  induction l as [|a l IH]; intros bs HJ.
  - apply succeeds_ret. split; [apply ext_refl |]. split; [done |].
    intros a Ha. by apply elem_of_nil in Ha.
  - cbn [mapM]. apply succeeds_bind.
    eapply succeeds_wand; [apply (Hf a bs HJ) |].
    intros c bs1 (He1 & HJ1 & Hc). cbn beta. apply succeeds_bind.
    eapply succeeds_wand; [apply (IH bs1 HJ1) |].
    intros cs bs2 (He2 & HJ2 & Hcs). cbn beta. apply succeeds_ret.
    split; [by eapply ext_trans |]. split; [done |].
    intros a' [-> | Ha']%elem_of_cons; [by eapply Hmono | by apply Hcs].
Qed.

(** The initial values the build keeps: parameters as given, slots zero. *)
Definition init_ok (P : gmap var tensor) bs : Prop :=
  (∀ p, variables bs !! Param p = P !! Param p) ∧
  (∀ p s v, variables bs !! Slot p s = Some v
            → v = t_zeros_like (P !!! Param p)).

Lemma init_ok_add_slot P p s bs :
  init_ok P bs →
  succeeds (add_slot p s) bs (λ _ bs',
    ext bs bs' ∧ init_ok P bs' ∧ is_Some (variables bs' !! Slot p s)).
Proof.
  intros [HP HS]. unfold succeeds, add_slot.
  destruct (variables bs !! Slot p s) as [v|] eqn:E.
  - exists (), bs. split; [done |]. split; [apply ext_refl |].
    split; [done |]. by rewrite E.
  - eexists _, _. split; [reflexivity |]. split; [| split].
    + repeat split. cbn. by apply insert_subseteq.
    + split; cbn.
      * intros q. by rewrite lookup_insert_ne.
      * intros q s' v. destruct (decide (Slot p s = Slot q s')) as [[= -> ->]|Hne].
        -- rewrite lookup_insert_eq. intros [= <-].
           by rewrite !lookup_total_alt, HP.
        -- rewrite lookup_insert_ne by done. apply HS.
    + cbn. by rewrite lookup_insert_eq.
Qed.

(** An invariant of the build state that creating a slot keeps. *)
Record slot_invariant (J : build_state → Prop) : Prop := SlotInvariant {
  slot_invariant_add p s bs :
    J bs →
    succeeds (add_slot p s) bs (λ _ bs',
      ext bs bs' ∧ J bs' ∧ is_Some (variables bs' !! Slot p s));
  slot_invariant_vars bs bs' : variables bs = variables bs' → J bs → J bs';
}.

Lemma slot_invariant_init_ok P : slot_invariant (init_ok P).
Proof.
  split; [apply init_ok_add_slot |].
  intros bs bs' E. unfold init_ok. by rewrite E.
Qed.

Lemma slot_invariant_True : slot_invariant (λ _, True).
Proof.
  split; [| done]. intros p s bs _.
  eapply succeeds_wand; [apply add_slot_spec |].
  intros _ bs' [He E]. cbn beta. split; [done |]. split; [done |].
  by rewrite E.
Qed.

Lemma Adam__create_slots_spec J var_list bs :
  slot_invariant J → J bs →
  succeeds (Adam__create_slots var_list) bs (λ _ bs',
    ext bs bs' ∧ J bs' ∧
    ∀ p, p ∈ var_list →
      is_Some (variables bs' !! Slot p "m") ∧
      is_Some (variables bs' !! Slot p "v")).
Proof.
  intros [Hadd _] HJ. unfold Adam__create_slots. apply succeeds_bind.
  eapply succeeds_wand.
  - apply (succeeds_mapM_ext _ J
             (λ p bs, is_Some (variables bs !! Slot p "m") ∧
                      is_Some (variables bs !! Slot p "v"))); [done | |].
    + intros p bs0 H0. apply succeeds_bind.
      eapply succeeds_wand; [apply (Hadd p "m" bs0 H0) |].
      intros _ bs1 (He1 & H1 & Hm). cbn beta.
      eapply succeeds_wand; [apply (Hadd p "v" bs1 H1) |].
      intros _ bs2 (He2 & H2 & Hv). cbn beta.
      split; [by eapply ext_trans |]. split; [done |].
      split; [by eapply ext_is_Some | done].
    + intros p bs0 bs1 [Hm Hv] He. split; by eapply ext_is_Some.
  - intros _ bs1 (He & HJ1 & Hall). cbn beta. by apply succeeds_ret.
Qed.

Lemma Optimizer_get_gradients_ok (loss : string → option grad)
    (G : string → grad) params bs :
  (∀ p, p ∈ params → loss p = Some (G p)) →
  Optimizer_get_gradients loss params bs = (Ok (G <$> params), bs).
Proof.
  intros Hloss. unfold Optimizer_get_gradients.
  induction params as [|p params IH]; [done |].
  cbn [mapM]. rewrite Hloss by left.
  rewrite (bind_Ok _ _ bs (G p) bs eq_refl).
  rewrite (bind_Ok _ _ bs (G <$> params) bs); [done |].
  apply IH. intros q Hq. apply Hloss. by right.
Qed.

(** The ops a class whose [_resource_apply_op] is Adam's builds for a list
    of (gradient, parameter) pairs, in a state where the slots exist. *)
Lemma apply_gradients_Adam cls0 self (G : string → grad) params bs :
  (∀ g p i, _resource_apply_op cls0 self g p i
            = Adam__resource_apply_op self g p (mjoin i)) →
  (∀ p, p ∈ params →
     is_Some (variables bs !! Slot p "m") ∧
     is_Some (variables bs !! Slot p "v")) →
  mapM (Optimizer_apply_gradient cls0 self) (zip (G <$> params) params) bs
  = (Ok ((λ p, Adam_apply (K_update bs) self (G p) p) <$> params), bs).
Proof.
  intros Hop Hslots.
  induction params as [|p params IH]; [done |].
  cbn [fmap list_fmap zip zip_with mapM].
  destruct (Hslots p ltac:(left)) as [Hm Hv].
  assert (Optimizer_apply_gradient cls0 self (G p, p) bs
          = (Ok (Adam_apply (K_update bs) self (G p) p), bs)) as E.
  { unfold Optimizer_apply_gradient, Adam_apply,
      _resource_apply_dense, _resource_apply_sparse. cbn [fst snd].
    destruct (G p); rewrite Hop; by apply Adam__resource_apply_op_ok. }
  rewrite (bind_Ok _ _ _ _ _ E).
  erewrite (bind_Ok _ _ bs _ bs); [done |].
  apply IH. intros q Hq. apply Hslots. by right.
Qed.

(** ** Run-time facts: ops that stay within the variables of a parameter *)

Record local_op {A} (P : var → Prop) (op : R A) : Prop := LocalOp {
  local_iterations rt : iterations (exec op rt) = iterations rt;
  local_frame rt y : ¬ P y → vars (exec op rt) !! y = vars rt !! y;
  local_reads rt rt' :
    iterations rt = iterations rt' →
    (∀ y, P y → vars rt !! y = vars rt' !! y) →
    ∀ y, P y → vars (exec op rt) !! y = vars (exec op rt') !! y;
}.

Lemma exec_run_all_cons {A} (op : R A) (ops : list (R A)) rt :
  exec (run_all (op :: ops)) rt = exec (run_all ops) (exec op rt).
Proof.
  unfold exec. cbn [run_all]. unfold mbind, R_bind.
  by destruct (op rt).
Qed.

Lemma exec_run_all_nil {A} rt : exec (run_all (@nil (R A))) rt = rt.
Proof. done. Qed.

Lemma run_all_iterations {A I} (P : I → var → Prop) (op : I → R A)
    (l : list I) rt :
  (∀ i, i ∈ l → local_op (P i) (op i)) →
  iterations (exec (run_all (op <$> l)) rt) = iterations rt.
Proof.
  revert rt. induction l as [|a l IH]; intros rt Hl; [done |].
  rewrite fmap_cons, exec_run_all_cons, IH.
  - apply (local_iterations _ _ (Hl a ltac:(left))).
  - intros i Hi. apply Hl. by right.
Qed.

Lemma run_all_frame {A I} (P : I → var → Prop) (op : I → R A)
    (l : list I) rt y :
  (∀ i, i ∈ l → local_op (P i) (op i)) →
  (∀ i, i ∈ l → ¬ P i y) →
  vars (exec (run_all (op <$> l)) rt) !! y = vars rt !! y.
Proof.
  revert rt. induction l as [|a l IH]; intros rt Hl Hy; [done |].
  rewrite fmap_cons, exec_run_all_cons, IH.
  - apply (local_frame _ _ (Hl a ltac:(left))). apply Hy. left.
  - intros i Hi. apply Hl. by right.
  - intros i Hi. apply Hy. by right.
Qed.

(** With pairwise disjoint families, each op of the list acts on its
    family as if it ran alone from the initial state. *)
Lemma run_all_local {A I} (P : I → var → Prop) (op : I → R A)
    (l : list I) rt i y :
  (∀ j, j ∈ l → local_op (P j) (op j)) →
  (∀ j k z, j ∈ l → k ∈ l → j ≠ k → P j z → ¬ P k z) →
  NoDup l → i ∈ l → P i y →
  vars (exec (run_all (op <$> l)) rt) !! y = vars (exec (op i) rt) !! y.
Proof.
  intros Hl Hdisj Hnd. revert rt.
  induction Hnd as [|a l Ha Hnd IH]; intros rt Hi Hy.
  - by apply elem_of_nil in Hi.
  - rewrite fmap_cons, exec_run_all_cons.
    apply elem_of_cons in Hi as [-> | Hi].
    + apply run_all_frame with (P := P).
      * intros j Hj. apply Hl. by right.
      * intros j Hj. apply (Hdisj a j y); [left | by right | | done].
        intros ->. done.
    + rewrite IH; [| | | done | done].
      * assert (Hai : a ≠ i) by (intros ->; done).
        apply (local_reads _ _ (Hl i ltac:(by right))).
        -- apply (local_iterations _ _ (Hl a ltac:(left))).
        -- intros z Hz. apply (local_frame _ _ (Hl a ltac:(left))).
           apply (Hdisj i a z); [by right | left | congruence | done].
        -- done.
      * intros j Hj. apply Hl. by right.
      * intros j k z Hj Hk. apply Hdisj; by right.
Qed.

Lemma fam_disjoint p q y : p ≠ q → fam p y → ¬ fam q y.
Proof.
  intros Hpq [-> | [s ->]] [E | [s' E]]; congruence.
Qed.

(** ** The hook across a call that returns *)

Definition keeps_K {A} (m : B A) : Prop :=
  ∀ bs a bs', m bs = (Ok a, bs') → K_update bs' = K_update bs.

Lemma keeps_K_ret {A} (a : A) : keeps_K (mret a).
Proof. intros bs a' bs' [= _ <-]. done. Qed.

Lemma keeps_K_raise {A} e : keeps_K (raise (A := A) e).
Proof. intros bs a' bs' [=]. Qed.

Lemma keeps_K_bind {A C} (m : B A) (f : A → B C) :
  keeps_K m → (∀ a, keeps_K (f a)) → keeps_K (m ≫= f).
Proof.
  intros Hm Hf bs c bs''. unfold mbind, B_bind.
  destruct (m bs) as [[a | e] bs'] eqn:E; [| done].
  intros E'. rewrite (Hf _ _ _ _ E'). by eapply Hm.
Qed.

Lemma keeps_K_mapM {A C} (f : A → B C) (l : list A) :
  (∀ a, keeps_K (f a)) → keeps_K (mapM f l).
Proof.
  intros Hf. induction l as [|a l IH]; cbn [mapM].
  - apply keeps_K_ret.
  - apply keeps_K_bind; [done |]. intros c.
    apply keeps_K_bind; [done |]. intros cs. apply keeps_K_ret.
Qed.

(** Replacing the hook around a call and putting the old one back
    afterwards: when the call returns, the hook is the old one, whatever
    the call did to it. *)
Lemma keeps_K_scoped {A} (new_update : update_fn → update_fn) (m : B A) :
  keeps_K (old_update ← get_K_update;
           _ ← set_K_update (new_update old_update);
           a ← m;
           _ ← set_K_update old_update;
           mret a).
Proof.
  intros bs a bs''. build_ops.
  destruct (m _) as [[a' | e] bs'] eqn:E; [| done].
  by intros [= _ <-].
Qed.

Lemma keeps_K_add_slot p s : keeps_K (add_slot p s).
Proof.
  intros bs a bs'. unfold add_slot.
  destruct (variables bs !! _); by intros [= _ <-].
Qed.

Lemma keeps_K_get_slot p s : keeps_K (get_slot p s).
Proof.
  intros bs a bs'. unfold get_slot.
  destruct (variables bs !! _); by intros [= _ <-].
Qed.

Lemma keeps_K_K_zeros_like_param p x : keeps_K (K_zeros_like_param p x).
Proof. by intros bs a bs' [= _ <-]. Qed.

Lemma keeps_K_get_K_update : keeps_K get_K_update.
Proof. by intros bs a bs' [= _ <-]. Qed.

Lemma keeps_K__create_slots cls var_list : keeps_K (_create_slots cls var_list).
Proof.
  induction cls; cbn [_create_slots]; try done.
  - unfold Adam__create_slots. apply keeps_K_bind; [| intros; apply keeps_K_ret].
    apply keeps_K_mapM. intros p.
    apply keeps_K_bind; [apply keeps_K_add_slot | intros; apply keeps_K_add_slot].
  - apply keeps_K_bind; [done |]. intros _.
    apply keeps_K_bind; [| intros; apply keeps_K_ret].
    apply keeps_K_mapM. intros p. apply keeps_K_add_slot.
Qed.

Lemma keeps_K_Optimizer_get_gradients loss params :
  keeps_K (Optimizer_get_gradients loss params).
Proof.
  apply keeps_K_mapM. intros p.
  destruct (loss p); [apply keeps_K_ret | apply keeps_K_raise].
Qed.

Lemma keeps_K_get_gradients cls self loss params :
  keeps_K (get_gradients cls self loss params).
Proof.
  induction cls; cbn [get_gradients]; try done.
  - apply keeps_K_Optimizer_get_gradients.
  - apply keeps_K_bind; [by intros bs a bs' [= _ <-] |]. intros [|].
    + apply keeps_K_bind; [by intros bs a bs' [= _ <-] | done].
    + apply keeps_K_bind; [| intros; apply keeps_K_ret].
      intros bs a bs'. unfold get_accum_grads.
      destruct (accum_grads bs); by intros [= _ <-].
  - apply keeps_K_bind; [by intros bs a bs' [= _ <-] |]. intros [|].
    + apply keeps_K_bind; [by intros bs a bs' [= _ <-] |]. intros _.
      apply keeps_K_bind; [| done].
      apply keeps_K_mapM. intros p. apply keeps_K_add_slot.
    + apply keeps_K_mapM. intros p.
      apply keeps_K_bind; [apply keeps_K_get_slot | intros; apply keeps_K_ret].
Qed.

Lemma keeps_K_Adam__resource_apply_op self grad p indices :
  keeps_K (Adam__resource_apply_op self grad p indices).
Proof.
  unfold Adam__resource_apply_op.
  apply keeps_K_bind; [apply keeps_K_get_slot |]. intros m.
  apply keeps_K_bind; [apply keeps_K_get_slot |]. intros v.
  apply keeps_K_bind.
  - destruct indices;
      (apply keeps_K_bind; [apply keeps_K_get_K_update |]; intros u1;
       apply keeps_K_bind; [apply keeps_K_get_K_update |]; intros u2;
       apply keeps_K_ret).
  - intros mv.
    apply keeps_K_bind; [apply keeps_K_get_K_update |]. intros u.
    apply keeps_K_ret.
Qed.

Lemma keeps_K__resource_apply_op cls self grad var indices :
  keeps_K (_resource_apply_op cls self grad var indices).
Proof.
  revert grad indices.
  induction cls; intros grad indices; cbn [_resource_apply_op]; try done.
  - apply keeps_K_Adam__resource_apply_op.
  - destruct indices; [apply keeps_K_raise |].
    intros bs a bs''. build_ops.
    destruct (_resource_apply_op cls self grad var None _)
      as [[op | e] bs'] eqn:E; [| done].
    unfold get_instant_grad. cbn [instant_grads with_K_update].
    destruct (instant_grads bs' !! var); [| done].
    unfold get_slot. cbn [variables with_K_update].
    destruct (variables bs' !! _); [| done].
    by intros [= _ <-].
  - apply keeps_K_bind; [done |]. intros op.
    apply keeps_K_bind; [apply keeps_K_get_slot |]. intros slow_var.
    apply keeps_K_bind; [apply keeps_K_get_K_update |]. intros u1.
    apply keeps_K_bind; [apply keeps_K_get_K_update |]. intros u2.
    apply keeps_K_ret.
Qed.

Lemma keeps_K_Optimizer_get_updates cls0 self loss params :
  keeps_K (Optimizer_get_updates cls0 self loss params).
Proof.
  unfold Optimizer_get_updates.
  apply keeps_K_bind; [apply keeps_K_get_gradients |]. intros grads.
  apply keeps_K_bind; [apply keeps_K__create_slots |]. intros _.
  apply keeps_K_bind; [| intros; apply keeps_K_ret].
  apply keeps_K_mapM. intros [g p]. unfold Optimizer_apply_gradient.
  cbn [fst snd]. destruct g; apply keeps_K__resource_apply_op.
Qed.

Lemma keeps_K_get_updates cls cls0 self loss params :
  keeps_K (get_updates re_search K_epsilon cls cls0 self loss params).
Proof.
  induction cls; cbn [get_updates].
  - apply keeps_K_Optimizer_get_updates.
  - apply keeps_K_scoped.
  - apply keeps_K_scoped.
  - apply keeps_K_scoped.
  - apply keeps_K_bind; [apply keeps_K_get_gradients |]. intros grads.
    apply keeps_K_bind;
      [apply keeps_K_mapM; intros; apply keeps_K_K_zeros_like_param |].
    intros ags.
    apply keeps_K_bind; [by intros bs a bs' [= _ <-] |]. intros _.
    intros bs a bs''. build_ops.
    destruct (get_updates _ _ _ _ _ _ _ _) as [[u | e] bs'] eqn:E; [| done].
    destruct (mapM _ _ _) as [[us | e] bs3] eqn:E3; [| done].
    intros [= _ <-].
    assert (K_update bs3 = K_update (with_K_update (K_update bs) bs')) as ->;
      [| done].
    eapply (keeps_K_mapM _ _ _ _ _ _ E3).
  - apply keeps_K_bind; [apply keeps_K_get_gradients |]. intros grads.
    apply keeps_K_bind; [by intros bs a bs' [= _ <-] | done].
  - apply keeps_K_bind; [done |]. intros updates.
    apply keeps_K_bind;
      [apply keeps_K_mapM; intros; apply keeps_K_K_zeros_like_param |].
    intros slow_vars.
    apply keeps_K_bind.
    { apply keeps_K_mapM. intros pq.
      apply keeps_K_bind; [apply keeps_K_get_K_update |]. intros u.
      apply keeps_K_ret. }
    intros slow_updates.
    apply keeps_K_bind; [| intros; apply keeps_K_ret].
    apply keeps_K_mapM. intros pq.
    apply keeps_K_bind; [apply keeps_K_get_K_update |]. intros u.
    apply keeps_K_ret.
  - done.
  Unshelve.
  by intros [g ag] bs0 a0 bs'0 [= _ <-].
Qed.

(** ** Adam under a hook that rewrites the writes to parameters *)

Lemma Slot_not_param p s (params : list string) :
  bool_decide (Slot p s ∈ Param <$> params) = false.
Proof.
  apply bool_decide_eq_false. intros (q & E & _)%list_elem_of_fmap. done.
Qed.

Lemma Param_in_params p (params : list string) :
  p ∈ params → bool_decide (Param p ∈ Param <$> params) = true.
Proof. intros Hp. apply bool_decide_eq_true. by apply list_elem_of_fmap_2. Qed.

(** A hook [h] that leaves the writes to slots to [K.update] and commits
    [T nx x t] to a parameter whose proposed value is [nx], whose current
    value is [x], at step [t]. *)
Record rewrites_params (params : list string) (h : update_fn)
    (T : string → tensor → tensor → Z → tensor) : Prop := RewritesParams {
  rewrites_slot p s new_x : h (Slot p s) new_x = K_update_default (Slot p s) new_x;
  rewrites_param p (f : runtime → tensor) rt :
    p ∈ params →
    h (Param p) (λ rt, (f rt, rt)) rt
    = (T p (f rt) (vars rt !!! Param p) (iterations rt),
       Runtime (<[Param p := T p (f rt) (vars rt !!! Param p) (iterations rt)]>
                  (vars rt))
         (iterations rt));
}.

(** The values Adam computes from [m], [v], [x] and the gradient [g]. *)
Definition adam_m (self : attrs) (m g : tensor) : tensor :=
  (t_const (beta_1 self) * m + (t_const 1 - t_const (beta_1 self)) * g)%T.
Definition adam_v (self : attrs) (v g : tensor) : tensor :=
  (t_const (beta_2 self) * v
   + (t_const 1 - t_const (beta_2 self)) * t_pow g (t_const 2))%T.
Definition adam_var (self : attrs) (x m' v' : tensor) : tensor :=
  (x - t_const (learning_rate self) * m'
       / (t_sqrt v' + t_const (epsilon self)))%T.

Lemma Adam_op_rewritten params h T self (g : Z → tensor) p rt :
  rewrites_params params h T → p ∈ params →
  let m' := adam_m self (vars rt !!! Slot p "m") (g (iterations rt)) in
  let v' := adam_v self (vars rt !!! Slot p "v") (g (iterations rt)) in
  let x := vars rt !!! Param p in
  let p' := T p (adam_var self x m' v') x (iterations rt) in
  Adam_op h self (feed g) p None rt
  = (p', Runtime (<[Param p := p']>
                    (<[Slot p "v" := v']> (<[Slot p "m" := m']> (vars rt))))
           (iterations rt)).
Proof.
  intros [Hs Hp] Hin. cbn zeta. unfold Adam_op.
  rewrite !Hs. run_ops. lookups.
  rewrite (Hp p _ _ Hin).
  cbn [vars iterations]. lookups. reflexivity.
Qed.

Lemma Adam_op_rewritten_local params h T self (g : Z → tensor) p :
  rewrites_params params h T → p ∈ params →
  local_op (fam p) (Adam_op h self (feed g) p None).
Proof.
  intros Hh Hin.
  assert (Hfam : ∀ rt rt',
            (∀ y, fam p y → vars rt !! y = vars rt' !! y) →
            ∀ s, vars rt !!! Slot p s = vars rt' !!! Slot p s).
  { intros rt rt' Hag s'. rewrite !lookup_total_alt, Hag; [done |].
    right. by exists s'. }
  assert (Hpar : ∀ rt rt',
            (∀ y, fam p y → vars rt !! y = vars rt' !! y) →
            vars rt !!! Param p = vars rt' !!! Param p).
  { intros rt rt' Hag. rewrite !lookup_total_alt, Hag; [done |]. by left. }
  split.
  - intros rt. unfold exec.
    by rewrite (Adam_op_rewritten _ _ _ _ _ _ rt Hh Hin).
  - intros rt y Hy. unfold exec.
    rewrite (Adam_op_rewritten _ _ _ _ _ _ rt Hh Hin). cbn [snd vars].
    rewrite !lookup_insert_ne; [done | | |];
      intros <-; apply Hy; [right; by eexists | right; by eexists | by left].
  - intros rt rt' Hit Hag y Hy. unfold exec.
    rewrite (Adam_op_rewritten _ _ _ _ _ _ rt Hh Hin).
    rewrite (Adam_op_rewritten _ _ _ _ _ _ rt' Hh Hin). cbn [snd vars].
    rewrite !(Hfam rt rt' Hag), (Hpar rt rt' Hag), Hit.
    destruct (decide (y = Param p)) as [-> | ?]; [by lookups |].
    destruct (decide (y = Slot p "v")) as [-> | ?]; [by lookups |].
    destruct (decide (y = Slot p "m")) as [-> | ?]; [by lookups |].
    lookups. by apply Hag.
Qed.

(** The framework's [get_updates] for a class whose methods are Adam's. *)
Lemma Optimizer_get_updates_Adam J cls0 self loss (G : string → grad)
    (params : list string) bs :
  slot_invariant J →
  (∀ gr q i, _resource_apply_op cls0 self gr q i
             = Adam__resource_apply_op self gr q (mjoin i)) →
  (∀ l, _create_slots cls0 l = Adam__create_slots l) →
  (get_gradients cls0 self loss params = Optimizer_get_gradients loss params) →
  (∀ q, q ∈ params → loss q = Some (G q)) →
  J bs →
  succeeds (Optimizer_get_updates cls0 self loss params) bs
    (λ updates bs',
       updates = run_all ((λ q, Adam_apply (K_update bs) self (G q) q) <$> params)
       ∧ ext bs bs' ∧ J bs'
       ∧ ∀ p, p ∈ params →
           is_Some (variables bs' !! Slot p "m") ∧
           is_Some (variables bs' !! Slot p "v")).
Proof.
  intros HJ Hop Hslots Hgrads Hloss Hinit.
  unfold succeeds, Optimizer_get_updates. rewrite Hgrads, Hslots.
  rewrite !(bind_Ok _ _ _ _ _
              (Optimizer_get_gradients_ok loss _ params _ Hloss)).
  destruct (Adam__create_slots_spec J params _ HJ Hinit)
    as ([] & bs1 & E1 & Hext & Hinit1 & Hcreated).
  rewrite !(bind_Ok _ _ _ _ _ E1).
  rewrite !(bind_Ok _ _ _ _ _
              (apply_gradients_Adam cls0 self _ params bs1 Hop Hcreated)).
  eexists _, _. split; [reflexivity |].
  pose proof Hext as (HK1 & _). rewrite HK1. done.
Qed.

(** One training step of Adam under a hook that is installed around the
    framework's [get_updates] and rewrites the writes to parameters. *)
Lemma hooked_Adam_step J cls0 self loss (g : string → Z → tensor)
    (params : list string) (new_update : update_fn → update_fn) T bs :
  slot_invariant J →
  (∀ gr q i, _resource_apply_op cls0 self gr q i
             = Adam__resource_apply_op self gr q (mjoin i)) →
  (∀ l, _create_slots cls0 l = Adam__create_slots l) →
  (get_gradients cls0 self loss params = Optimizer_get_gradients loss params) →
  (∀ q, q ∈ params → loss q = Some (Dense (feed (g q)))) →
  NoDup params →
  J bs →
  rewrites_params params (new_update (K_update bs)) T →
  succeeds (old_update ← get_K_update;
            _ ← set_K_update (new_update old_update);
            updates ← Optimizer_get_updates cls0 self loss params;
            _ ← set_K_update old_update;
            mret updates) bs
    (λ updates bs',
       K_update bs' = K_update bs ∧ J bs' ∧
       ∀ rt p, p ∈ params →
         let m' := adam_m self (vars rt !!! Slot p "m") (g p (iterations rt)) in
         let v' := adam_v self (vars rt !!! Slot p "v") (g p (iterations rt)) in
         let x := vars rt !!! Param p in
         iterations (exec updates rt) = iterations rt ∧
         vars (exec updates rt) !!! Slot p "m" = m' ∧
         vars (exec updates rt) !!! Slot p "v" = v' ∧
         vars (exec updates rt) !!! Param p
         = T p (adam_var self x m' v') x (iterations rt)).
Proof.
  intros HJ Hop Hslots Hgrads Hloss Hnd Hinit Hh.
  apply succeeds_bind. eexists _, _. split; [reflexivity |]. cbn beta.
  apply succeeds_bind. eexists _, _. split; [reflexivity |]. cbn beta.
  set (h := new_update (K_update bs)) in *.
  assert (Hinit' : J (with_K_update h bs))
    by by apply (slot_invariant_vars J HJ bs).
  apply succeeds_bind.
  eapply succeeds_wand;
    [by apply (Optimizer_get_updates_Adam J cls0 self loss
                 (λ q, Dense (feed (g q)))) |].
  intros updates bs1 (-> & Hext & Hinit1 & _). cbn beta.
  eexists _, _. split; [reflexivity |].
  split; [done |]. split; [by apply (slot_invariant_vars J HJ bs1) |].
  intros rt p Hp. cbn zeta. cbn [Adam_apply K_update with_K_update].
  set (op := λ q, Adam_op h self (feed (g q)) q None).
  assert (Hloc : ∀ q, q ∈ params → local_op (fam q) (op q)).
  { intros q Hq. by eapply Adam_op_rewritten_local. }
  assert (Hone : ∀ y, fam p y →
            vars (exec (run_all (op <$> params)) rt) !! y
            = vars (exec (op p) rt) !! y).
  { intros y Hy. apply (run_all_local fam); try done.
    intros j k z _ _ Hjk. by apply fam_disjoint. }
  split; [by apply (run_all_iterations fam) |].
  rewrite !lookup_total_alt, !Hone;
    [| by left | right; by eexists | right; by eexists].
  unfold op, exec.
  rewrite (Adam_op_rewritten _ _ _ _ _ _ rt Hh Hp). cbn [snd vars].
  rewrite <- !lookup_total_alt. by lookups.
Qed.

(** ** Gradient accumulation over Adam: the ops that are built *)

Lemma with_K_update_restore (f : update_fn) bs :
  with_K_update (K_update bs) (with_K_update f bs) = bs.
Proof. by destruct bs. Qed.

Lemma gradient_accumulation_v2_apply_op self (gradient : Tensor) p g_t bs :
  is_Some (variables bs !! Slot p "m") →
  is_Some (variables bs !! Slot p "v") →
  is_Some (variables bs !! Slot p "ag") →
  instant_grads bs !! p = Some g_t →
  _resource_apply_op (extend_with_gradient_accumulation_v2 Adam) self gradient
    p None bs
  = (Ok (gradient_accumulation_v2_op (K_update bs) self gradient g_t p), bs).
Proof.
  intros Hm Hv Hag Hg. cbn -[Adam__resource_apply_op].
  rewrite (bind_Ok _ _ _ _ _ (eq_refl : get_K_update bs = (Ok _, bs))).
  rewrite (bind_Ok _ _ _ _ _ (eq_refl : set_K_update _ bs = (Ok _, _))).
  rewrite (bind_Ok _ _ _ _ _
             (Adam__resource_apply_op_ok self gradient p None
                (with_K_update _ bs) Hm Hv)).
  rewrite (bind_Ok _ _ _ _ _ (eq_refl : set_K_update _ _ = (Ok _, _))).
  cbn [K_update with_K_update]. rewrite with_K_update_restore.
  assert (get_instant_grad p bs = (Ok g_t, bs)) as E
    by (unfold get_instant_grad; by rewrite Hg).
  rewrite (bind_Ok _ _ _ _ _ E).
  rewrite (bind_Ok _ _ _ _ _ (get_slot_ok _ _ _ Hag)).
  by destruct g_t.
Qed.

(** The run of that op, with the gradient the framework passes and a fed
    instantaneous gradient. *)
Lemma gradient_accumulation_v2_op_run self (g : Z → tensor) p rt :
  let N := steps_per_update self in
  let cond := bool_decide (iterations rt `mod` N = 0) in
  let ag := vars rt !!! Slot p "ag" in
  let G := (ag / t_const (inject_Z N))%T in
  let m := vars rt !!! Slot p "m" in
  let v := vars rt !!! Slot p "v" in
  let x := vars rt !!! Param p in
  let m' := if cond then adam_m self m G else m in
  let v' := if cond then adam_v self v G else v in
  let x' := if cond then adam_var self x m' v' else x in
  let ag' := if cond then g (iterations rt) else (ag + g (iterations rt))%T in
  gradient_accumulation_v2_op K_update_default self
    (accumulated_gradient self (Slot p "ag")) (Dense (feed g)) p rt
  = (ag', Runtime (<[Slot p "ag" := ag']>
                     (<[Param p := x']>
                        (<[Slot p "v" := v']>
                           (<[Slot p "m" := m']> (vars rt)))))
            (iterations rt)).
Proof.
  cbn zeta.
  unfold gradient_accumulation_v2_op, Adam_op, accumulated_gradient,
    gradient_accumulation_new_update.
  run_ops. lookups.
  by destruct (bool_decide (iterations rt `mod` steps_per_update self = 0)).
Qed.

Lemma gradient_accumulation_v2_op_local self (g : Z → tensor) p :
  local_op (fam p)
    (gradient_accumulation_v2_op K_update_default self
       (accumulated_gradient self (Slot p "ag")) (Dense (feed g)) p).
Proof.
  assert (Hfam : ∀ rt rt',
            (∀ y, fam p y → vars rt !! y = vars rt' !! y) →
            ∀ s, vars rt !!! Slot p s = vars rt' !!! Slot p s).
  { intros rt rt' Hag s'. rewrite !lookup_total_alt, Hag; [done |].
    right. by exists s'. }
  assert (Hpar : ∀ rt rt',
            (∀ y, fam p y → vars rt !! y = vars rt' !! y) →
            vars rt !!! Param p = vars rt' !!! Param p).
  { intros rt rt' Hag. rewrite !lookup_total_alt, Hag; [done |]. by left. }
  split.
  - intros rt. unfold exec. by rewrite gradient_accumulation_v2_op_run.
  - intros rt y Hy. unfold exec. rewrite gradient_accumulation_v2_op_run.
    cbn [snd vars].
    rewrite !lookup_insert_ne; [done | | | |];
      intros <-; apply Hy;
      [right; by eexists | right; by eexists | by left | right; by eexists].
  - intros rt rt' Hit Hag y Hy. unfold exec.
    rewrite !gradient_accumulation_v2_op_run. cbn [snd vars].
    rewrite !(Hfam rt rt' Hag), (Hpar rt rt' Hag), Hit.
    destruct (decide (y = Slot p "ag")) as [-> | ?]; [by lookups |].
    destruct (decide (y = Param p)) as [-> | ?]; [by lookups |].
    destruct (decide (y = Slot p "v")) as [-> | ?]; [by lookups |].
    destruct (decide (y = Slot p "m")) as [-> | ?]; [by lookups |].
    lookups. by apply Hag.
Qed.

Lemma mapM_pure {A C} (f : A → B C) (g : A → C) (l : list A) bs :
  (∀ a, a ∈ l → f a bs = (Ok (g a), bs)) →
  mapM f l bs = (Ok (g <$> l), bs).
Proof.
  intros Hf. induction l as [|a l IH]; [done |]. cbn [mapM].
  rewrite (bind_Ok _ _ _ _ _ (Hf a ltac:(left))).
  rewrite (bind_Ok _ _ bs (g <$> l) bs); [done |].
  apply IH. intros a' Ha'. apply Hf. by right.
Qed.

Lemma mapM_fmap {A A' C} (f : A' → B (tensor := tensor) C) (h : A → A')
    (l : list A) :
  mapM f (h <$> l) = mapM (f ∘ h) l.
Proof. induction l as [|a l IH]; [done |]. cbn. by rewrite IH. Qed.

Lemma zip_fmap_diag {A C} (G : A → C) (l : list A) :
  zip (G <$> l) l = (λ a, (G a, a)) <$> l.
Proof. induction l as [|a l IH]; [done |]. cbn. by f_equal. Qed.

Lemma instant_grads_lookup (G : string → grad (tensor := tensor))
    (params : list string) (d : gmap string grad) p :
  foldl (λ d pg, <[pg.1 := pg.2]> d) d (zip params (G <$> params)) !! p
  = if decide (p ∈ params) then Some (G p) else d !! p.
Proof.
  revert d. induction params as [|q params IH]; intros d.
  - cbn. by rewrite decide_False by apply not_elem_of_nil.
  - cbn [fmap list_fmap zip zip_with foldl fst snd]. rewrite IH.
    destruct (decide (p ∈ params)) as [Hin | Hnin].
    + by rewrite decide_True by by right.
    + destruct (decide (p = q)) as [-> | Hne].
      * rewrite decide_True by left. by rewrite lookup_insert_eq.
      * rewrite decide_False.
        -- by rewrite lookup_insert_ne.
        -- intros [? | ?]%elem_of_cons; done.
Qed.

(** The two calls of [get_gradients] of the slot-based gradient
    accumulation over Adam. *)
Lemma gradient_accumulation_v2_get_gradients_first J self loss
    (G : string → grad) (params : list string) bs :
  slot_invariant J → J bs →
  _first_get_gradients bs = true →
  (∀ q, q ∈ params → loss q = Some (G q)) →
  succeeds (get_gradients (extend_with_gradient_accumulation_v2 Adam) self
              loss params) bs
    (λ grads bs',
       grads = G <$> params ∧ J bs' ∧
       K_update bs' = K_update bs ∧ _first_get_gradients bs' = false ∧
       ∀ q, q ∈ params → is_Some (variables bs' !! Slot q "ag")).
Proof.
  intros HJ Hinit Hfirst Hloss. unfold succeeds. cbn [get_gradients].
  rewrite !(bind_Ok _ _ _ _ _
              (eq_refl : get_first_get_gradients bs = (Ok _, bs))).
  rewrite Hfirst.
  rewrite !(bind_Ok _ _ _ _ _
              (eq_refl : set_first_get_gradients false bs = (Ok (), _))).
  set (bs1 := BuildState _ _ false _ _).
  assert (J bs1) as HJ1 by by apply (slot_invariant_vars J HJ bs).
  destruct (succeeds_mapM_ext (λ q, add_slot q "ag") J
              (λ q bs, is_Some (variables bs !! Slot q "ag")) params bs1 HJ1)
    as (units & bs2 & E2 & Hext2 & HJ2 & Hag2).
  { intros q bs0 H0. apply (slot_invariant_add J HJ q "ag" bs0 H0). }
  { intros q bs0 bs0' Hq He. by eapply ext_is_Some. }
  rewrite !(bind_Ok _ _ _ _ _ E2).
  rewrite (Optimizer_get_gradients_ok loss _ params bs2 Hloss).
  eexists _, _. split; [reflexivity |].
  destruct Hext2 as (HK2 & Hf2 & _). by repeat split.
Qed.

Lemma gradient_accumulation_v2_get_gradients_second self loss
    (params : list string) bs :
  _first_get_gradients bs = false →
  (∀ q, q ∈ params → is_Some (variables bs !! Slot q "ag")) →
  get_gradients (extend_with_gradient_accumulation_v2 Adam) self loss params bs
  = (Ok ((λ q, Dense (accumulated_gradient self (Slot q "ag"))) <$> params),
     bs).
Proof.
  intros Hfirst Hag. cbn [get_gradients].
  rewrite !(bind_Ok _ _ _ _ _
              (eq_refl : get_first_get_gradients bs = (Ok _, bs))).
  rewrite Hfirst. apply mapM_pure. intros q Hq.
  by rewrite (bind_Ok _ _ _ _ _ (get_slot_ok q "ag" bs (Hag q Hq))).
Qed.

(** [get_updates] of the slot-based gradient accumulation over Adam, on
    its first call. *)
Lemma gradient_accumulation_v2_get_updates J self loss
    (g : string → Z → tensor) (params : list string) bs :
  let cls0 := extend_with_gradient_accumulation_v2 Adam in
  slot_invariant J → J bs →
  _first_get_gradients bs = true →
  (∀ q, q ∈ params → loss q = Some (Dense (feed (g q)))) →
  succeeds (get_updates re_search K_epsilon cls0 cls0 self loss params) bs
    (λ updates bs',
       updates
       = run_all ((λ q, gradient_accumulation_v2_op (K_update bs) self
                          (accumulated_gradient self (Slot q "ag"))
                          (Dense (feed (g q))) q) <$> params)
       ∧ K_update bs' = K_update bs ∧ J bs').
Proof.
  intros cls0 HJ Hinit Hfirst Hloss. subst cls0. cbn [get_updates].
  apply succeeds_bind. eapply succeeds_wand.
  { by apply (gradient_accumulation_v2_get_gradients_first J self loss
                (λ q, Dense (feed (g q)))). }
  intros grads bs2 (-> & HJ2 & HK2 & Hf2 & Hag2). cbn beta.
  apply succeeds_bind. eexists _, _. split; [reflexivity |]. cbn beta.
  set (bs3 := BuildState _ _ _ _ (foldl _ _ _)).
  assert (J bs3) as HJ3 by by apply (slot_invariant_vars J HJ bs2).
  unfold succeeds, Optimizer_get_updates.
  rewrite !(bind_Ok _ _ _ _ _
    (gradient_accumulation_v2_get_gradients_second self loss params bs3 Hf2 Hag2)).
  cbn [_create_slots].
  destruct (Adam__create_slots_spec J params bs3 HJ HJ3)
    as ([] & bs4 & E4 & Hext4 & HJ4 & Hmv4).
  rewrite !(bind_Ok _ _ _ _ _ E4).
  pose proof Hext4 as (HK4 & Hf4 & Hacc4 & Hinst4 & Hsub4).
  rewrite zip_fmap_diag, mapM_fmap.
  assert (Happly : ∀ q, q ∈ params →
    (Optimizer_apply_gradient (extend_with_gradient_accumulation_v2 Adam) self
     ∘ (λ q, (Dense (accumulated_gradient self (Slot q "ag")), q))) q bs4
    = (Ok (gradient_accumulation_v2_op (K_update bs) self
             (accumulated_gradient self (Slot q "ag"))
             (Dense (feed (g q))) q), bs4)).
  { intros q Hq. unfold compose, Optimizer_apply_gradient,
      _resource_apply_dense. cbn [fst snd].
    destruct (Hmv4 q Hq) as [Hm Hv].
    rewrite (gradient_accumulation_v2_apply_op self _ q
               (Dense (feed (g q))) bs4 Hm Hv).
    - rewrite HK4. cbn [K_update bs3]. by rewrite HK2.
    - eapply ext_is_Some; [exact Hext4 |]. apply Hag2, Hq.
    - rewrite Hinst4. cbn [instant_grads bs3].
      rewrite (instant_grads_lookup (λ q, Dense (feed (g q)))).
      by rewrite decide_True. }
  rewrite !(bind_Ok _ _ bs4 _ bs4 (mapM_pure _ _ params bs4 Happly)).
  eexists _, _. split; [reflexivity |]. split; [done |].
  split; [| done]. rewrite HK4. cbn [K_update bs3]. by rewrite HK2.
Qed.

Lemma train_S {A} (updates : R A) n rt :
  train updates (S n) rt = train_step updates (train updates n rt).
Proof.
  revert rt. induction n as [|n IH]; intros rt; [done |].
  change (train updates (S (S n)) rt)
    with (train updates (S n) (train_step updates rt)).
  by rewrite IH.
Qed.

(** One step of the slot-based gradient accumulation over Adam, for each
    parameter of the list. *)
Lemma gradient_accumulation_v2_step self (g : string → Z → tensor)
    (params : list string) rt p :
  NoDup params → p ∈ params →
  let updates :=
    run_all ((λ q, gradient_accumulation_v2_op K_update_default self
                     (accumulated_gradient self (Slot q "ag"))
                     (Dense (feed (g q))) q) <$> params) in
  let N := steps_per_update self in
  let cond := bool_decide (iterations rt `mod` N = 0) in
  let ag := vars rt !!! Slot p "ag" in
  let G := (ag / t_const (inject_Z N))%T in
  let m := vars rt !!! Slot p "m" in
  let v := vars rt !!! Slot p "v" in
  let x := vars rt !!! Param p in
  let m' := if cond then adam_m self m G else m in
  let v' := if cond then adam_v self v G else v in
  iterations (exec updates rt) = iterations rt ∧
  vars (exec updates rt) !!! Slot p "m" = m' ∧
  vars (exec updates rt) !!! Slot p "v" = v' ∧
  vars (exec updates rt) !!! Param p
  = (if cond then adam_var self x m' v' else x) ∧
  vars (exec updates rt) !!! Slot p "ag"
  = (if cond then g p (iterations rt) else (ag + g p (iterations rt))%T).
Proof.
  intros Hnd Hp. cbn zeta.
  set (op := λ q, gradient_accumulation_v2_op K_update_default self
                    (accumulated_gradient self (Slot q "ag"))
                    (Dense (feed (g q))) q).
  assert (Hone : ∀ y, fam p y →
            vars (exec (run_all (op <$> params)) rt) !! y
            = vars (exec (op p) rt) !! y).
  { intros y Hy.
    apply (run_all_local fam op params rt p y);
      [| | exact Hnd | exact Hp | exact Hy].
    - intros q _. exact (gradient_accumulation_v2_op_local self (g q) q).
    - intros j k z _ _ Hjk. by apply fam_disjoint. }
  split.
  { apply (run_all_iterations fam op params rt). intros q _.
    exact (gradient_accumulation_v2_op_local self (g q) q). }
  rewrite !lookup_total_alt, !Hone;
    [| right; by eexists | by left | right; by eexists | right; by eexists].
  unfold op, exec. rewrite gradient_accumulation_v2_op_run. cbn [snd vars].
  rewrite <- !lookup_total_alt. by lookups.
Qed.

Lemma mod_offset (t N j : Z) :
  (0 < N)%Z → (t `mod` N = 0)%Z → (0 < j < N)%Z → ((t + j) `mod` N ≠ 0)%Z.
Proof.
  intros HN Ht Hj. rewrite Z.add_mod by lia. rewrite Ht, Z.add_0_l.
  rewrite Z.mod_mod by lia. rewrite Z.mod_small by lia. lia.
Qed.

(** After a step with [iterations mod N = 0], the next [N - 1] steps
    change only the accumulator of a parameter, which sums the gradients
    of these steps. *)
Lemma gradient_accumulation_v2_window self (g : string → Z → tensor)
    (params : list string) rt p (k : nat) :
  NoDup params → p ∈ params →
  let updates :=
    run_all ((λ q, gradient_accumulation_v2_op K_update_default self
                     (accumulated_gradient self (Slot q "ag"))
                     (Dense (feed (g q))) q) <$> params) in
  let N := steps_per_update self in
  (0 < N)%Z → (iterations rt `mod` N = 0)%Z → (Z.of_nat k < N)%Z →
  let rt1 := train_step updates rt in
  let rtk := train updates (S k) rt in
  iterations rtk = (iterations rt + Z.of_nat (S k))%Z ∧
  vars rtk !!! Slot p "m" = vars rt1 !!! Slot p "m" ∧
  vars rtk !!! Slot p "v" = vars rt1 !!! Slot p "v" ∧
  vars rtk !!! Param p = vars rt1 !!! Param p ∧
  vars rtk !!! Slot p "ag" = sum_grads (g p) (iterations rt) k.
Proof.
  intros Hnd Hp updates N HN Ht. induction k as [|k IH]; intros Hk.
  - cbn zeta. change (train updates 1 rt) with (train_step updates rt).
    destruct (gradient_accumulation_v2_step self g params rt p Hnd Hp)
      as (Hit & _ & _ & _ & Hag).
    fold updates in Hit, Hag. fold N in Hag.
    rewrite bool_decide_eq_true_2 in Hag by done.
    unfold train_step. cbn [vars iterations sum_grads].
    rewrite Hit. split; [lia |]. by rewrite Hag.
  - cbn zeta. rewrite train_S.
    destruct IH as (Hit & Hm & Hv & Hx & Hag); [lia |].
    set (rtk := train updates (S k) rt) in *.
    destruct (gradient_accumulation_v2_step self g params rtk p Hnd Hp)
      as (Hit' & Hm' & Hv' & Hx' & Hag').
    fold updates in Hit', Hm', Hv', Hx', Hag'. fold N in Hm', Hv', Hx', Hag'.
    rewrite Hit in Hm', Hv', Hx', Hag'.
    rewrite bool_decide_eq_false_2 in Hm', Hv', Hx', Hag'
      by (apply mod_offset; lia).
    set (rt1 := train_step updates rt) in *.
    unfold train_step. cbn [vars iterations sum_grads].
    rewrite Hit', Hit, Hm', Hv', Hx', Hag', Hm, Hv, Hx, Hag.
    split; [lia |]. done.
Qed.

(** ** Gradient accumulation, classic variant over Adam *)

(** Under the gating hook, on a step at which the predicate is false,
    the op Adam builds changes the value of no variable. *)
Lemma Adam_op_gated self (ag : var) p rt :
  let N := steps_per_update self in
  (iterations rt `mod` N ≠ 0)%Z →
  let op :=
    Adam_op (gradient_accumulation_new_update (iterations_mod_is_zero N)
               K_update_default)
      self (accumulated_gradient self ag) p None in
  iterations (exec op rt) = iterations rt ∧
  ∀ y, vars (exec op rt) !!! y = vars rt !!! y.
Proof.
  intros N Hc. cbn zeta.
  unfold Adam_op, accumulated_gradient, gradient_accumulation_new_update.
  run_ops. fold N. rewrite !bool_decide_eq_false_2 by done.
  split; [done |]. intros y. lookups.
  destruct (decide (y = Param p)) as [-> | ?]; [by lookups |].
  destruct (decide (y = Slot p "v")) as [-> | ?]; [by lookups |].
  destruct (decide (y = Slot p "m")) as [-> | ?]; by lookups.
Qed.

Lemma run_all_gated self (gps : list (var * string)) rt :
  let N := steps_per_update self in
  (iterations rt `mod` N ≠ 0)%Z →
  let updates :=
    run_all ((λ gp : var * string,
                Adam_op (gradient_accumulation_new_update
                           (iterations_mod_is_zero N) K_update_default)
                  self (accumulated_gradient self gp.1) gp.2 None) <$> gps) in
  iterations (exec updates rt) = iterations rt ∧
  ∀ y, vars (exec updates rt) !!! y = vars rt !!! y.
Proof.
  intros N. cbn zeta. revert rt.
  induction gps as [|[ag p] gps IH]; intros rt Hc; [done |].
  rewrite fmap_cons, (exec_run_all_cons (A := tensor)). cbn [fst snd].
  destruct (Adam_op_gated self ag p rt Hc) as [Hit Hvars].
  fold N in Hit, Hvars.
  destruct (IH (exec (Adam_op (gradient_accumulation_new_update
                                 (iterations_mod_is_zero N) K_update_default)
                        self (accumulated_gradient self ag) p None) rt))
    as [Hit' Hvars']; [by rewrite Hit |].
  split; [by rewrite Hit' |]. intros y. by rewrite Hvars'.
Qed.

(** [get_updates] of the classic gradient accumulation over Adam, on its
    first call: the ops of Adam under the gating hook.  The ops that
    accumulate the gradients are built and left out of the result. *)
Lemma gradient_accumulation_get_updates self loss (G : string → grad)
    (params : list string) bs :
  let cls0 := extend_with_gradient_accumulation Adam in
  let N := steps_per_update self in
  _first_get_gradients bs = true →
  (∀ q, q ∈ params → loss q = Some (G q)) →
  succeeds (get_updates re_search K_epsilon cls0 cls0 self loss params) bs
    (λ updates bs',
       K_update bs' = K_update bs ∧
       ∃ gps : list (var * string),
         updates
         = run_all ((λ gp : var * string,
                       Adam_op (gradient_accumulation_new_update
                                  (iterations_mod_is_zero N) (K_update bs))
                         self (accumulated_gradient self gp.1) gp.2 None)
                      <$> gps)).
Proof.
  intros cls0 N Hfirst Hloss. subst cls0. cbn [get_updates].
  (* the first call of [get_gradients] *)
  apply succeeds_bind.
  exists (G <$> params), (BuildState (K_update bs) (variables bs) false
                           (accum_grads bs) (instant_grads bs)).
  split.
  { cbn [get_gradients].
    rewrite !(bind_Ok _ _ _ _ _
                (eq_refl : get_first_get_gradients bs = (Ok _, bs))).
    rewrite Hfirst.
    rewrite !(bind_Ok _ _ _ _ _
                (eq_refl : set_first_get_gradients false bs = (Ok (), _))).
    by apply Optimizer_get_gradients_ok. }
  set (bs1 := BuildState _ _ false _ _).
  (* the buffers *)
  apply succeeds_bind. eapply succeeds_wand.
  { apply (succeeds_mapM _
             (λ bs0, K_update bs0 = K_update bs ∧ _first_get_gradients bs0 = false)
             (λ _ _, True)); [done |].
    intros ip bs0 _ [HK0 Hf0]. by eexists _, _. }
  intros ags bs2 (_ & HK2 & Hf2). cbn beta.
  apply succeeds_bind. eexists _, _. split; [reflexivity |]. cbn beta.
  apply succeeds_bind. eexists _, _. split; [reflexivity |]. cbn beta.
  apply succeeds_bind. eexists _, _. split; [reflexivity |]. cbn beta.
  cbn [K_update]. rewrite HK2.
  set (h := gradient_accumulation_new_update _ (K_update bs)).
  set (bs3 := with_K_update h _).
  (* the call of the base class *)
  set (gps := zip ags params).
  apply succeeds_bind. cbn [get_updates].
  assert (succeeds (Optimizer_get_updates
                      (extend_with_gradient_accumulation Adam) self loss params)
            bs3
            (λ updates bs4,
               updates
               = run_all ((λ gp : var * string,
                             Adam_op h self (accumulated_gradient self gp.1)
                               gp.2 None) <$> gps))) as Hbase.
  { unfold succeeds, Optimizer_get_updates.
    assert (get_gradients (extend_with_gradient_accumulation Adam) self loss
              params bs3
            = (Ok ((λ ag, Dense (accumulated_gradient self ag)) <$> ags), bs3))
      as Egrads.
    { cbn [get_gradients].
      rewrite !(bind_Ok _ _ _ _ _
                  (eq_refl : get_first_get_gradients bs3 = (Ok _, bs3))).
      cbn [_first_get_gradients bs3 with_K_update]. rewrite Hf2. done. }
    rewrite !(bind_Ok _ _ _ _ _ Egrads). cbn [_create_slots].
    destruct (Adam__create_slots_spec (λ _, True) params bs3
                slot_invariant_True I)
      as ([] & bs4 & E4 & Hext4 & _ & Hmv4).
    rewrite !(bind_Ok _ _ _ _ _ E4).
    pose proof Hext4 as (HK4 & _).
    assert (zip ((λ ag, Dense (accumulated_gradient self ag)) <$> ags) params
            = (λ gp : var * string,
                 (Dense (accumulated_gradient self gp.1), gp.2)) <$> gps) as ->.
    { unfold gps. rewrite zip_with_fmap_l, zip_with_zip.
      apply list_fmap_ext. by intros i [ag q] _. }
    rewrite mapM_fmap.
    assert (Happly : ∀ gp, gp ∈ gps →
      (Optimizer_apply_gradient (extend_with_gradient_accumulation Adam) self
       ∘ (λ gp : var * string, (Dense (accumulated_gradient self gp.1), gp.2)))
        gp bs4
      = (Ok (Adam_op h self (accumulated_gradient self gp.1) gp.2 None), bs4)).
    { intros [ag q] Hgp. unfold compose, Optimizer_apply_gradient,
        _resource_apply_dense. cbn -[Adam__resource_apply_op].
      destruct (Hmv4 q) as [Hm Hv]; [by eapply elem_of_zip_r |].
      rewrite (Adam__resource_apply_op_ok self _ q None bs4 Hm Hv).
      by rewrite HK4. }
    rewrite !(bind_Ok _ _ bs4 _ bs4 (mapM_pure _ _ gps bs4 Happly)).
    by eexists _, _. }
  eapply succeeds_wand; [exact Hbase |].
  intros updates bs4 ->. cbn beta.
  apply succeeds_bind. eexists _, _. split; [reflexivity |]. cbn beta.
  (* the ops that accumulate, which are not returned *)
  set (bs5 := with_K_update (K_update bs) bs4).
  apply succeeds_bind. eexists _, bs5. split.
  { apply (mapM_pure _
             (λ gag : grad * var,
                mbind (M := R) (λ _ : unit, K_update bs5 gag.2
                  (K_switch (iterations_mod_is_zero (steps_per_update self))
                     (convert_to_tensor gag.1 gag.2)
                     (lift2 t_add (read gag.2)
                        (convert_to_tensor gag.1 gag.2))))
                  (run_all ((λ gp : var * string,
                        Adam_op h self (accumulated_gradient self gp.1) gp.2
                          None) <$> gps)))).
    intros gag _. reflexivity. }
  cbn beta. apply succeeds_ret. split; [done |]. by exists gps.
Qed.

(** ** C3: the hook after [get_updates] *)

(** C3 (as amended).  For every stack of extensions, when [get_updates]
    returns normally, [K.update] is again the function that was installed
    before the call: every replacement made on the way has been undone. *)
Theorem hook_restored_on_return cls cls0 self loss params bs updates bs' :
  get_updates re_search K_epsilon cls cls0 self loss params bs
  = (Ok updates, bs') →
  K_update bs' = K_update bs.
Proof. apply keeps_K_get_updates. Qed.

(** When the delegated call raises, the statement that restores the hook
    is not reached: the exception leaves [get_updates] with the state the
    delegated call left. *)
Lemma weight_decay_get_updates_raises base cls0 self loss params bs e bs' :
  get_updates re_search K_epsilon base cls0 self loss params
    (with_K_update
       (weight_decay_new_update re_search self (Param <$> params) (K_update bs))
       bs)
  = (Raise e, bs') →
  get_updates re_search K_epsilon (extend_with_weight_decay base) cls0 self
    loss params bs
  = (Raise e, bs').
Proof.
  intros E. cbn [get_updates]. build_ops. fold (with_K_update
    (weight_decay_new_update re_search self (Param <$> params) (K_update bs)) bs).
  by rewrite E.
Qed.

(** ** C1: the dense update of Adam *)

(** C1.  For a dense gradient [g] of parameter [p], the op that Adam
    builds (with the plain [K.update] installed and the slots [m], [v]
    created) commits exactly
    [m' = beta_1 * m + (1 - beta_1) * g],
    [v' = beta_2 * v + (1 - beta_2) * g ** 2] and
    [p' = p - learning_rate * m' / (sqrt(v') + epsilon)],
    writes nothing else, and returns [p'].  The powers
    [beta_1 ** t], [beta_2 ** t] are built but no division by
    [1 - beta ** t] enters the result; the result is a function of the
    initial values, the gradient and the hyperparameters. *)
Theorem Adam_dense_update self (g : Z → tensor) p bs rt :
  K_update bs = K_update_default →
  is_Some (variables bs !! Slot p "m") →
  is_Some (variables bs !! Slot p "v") →
  ∃ op : Tensor,
    _resource_apply_dense Adam self (feed g) p bs = (Ok op, bs) ∧
    let m := vars rt !!! Slot p "m" in
    let v := vars rt !!! Slot p "v" in
    let g_t := g (iterations rt) in
    let m' :=
      (t_const (beta_1 self) * m
       + (t_const 1 - t_const (beta_1 self)) * g_t)%T in
    let v' :=
      (t_const (beta_2 self) * v
       + (t_const 1 - t_const (beta_2 self)) * t_pow g_t (t_const 2))%T in
    let p' :=
      (vars rt !!! Param p
       - t_const (learning_rate self) * m'
         / (t_sqrt v' + t_const (epsilon self)))%T in
    op rt =
      (p', Runtime (<[Param p := p']>
                      (<[Slot p "v" := v']> (<[Slot p "m" := m']> (vars rt))))
             (iterations rt)).
Proof.
  intros HK Hm Hv. eexists. split.
  - unfold _resource_apply_dense. cbn -[Adam__resource_apply_op].
    rewrite Adam__resource_apply_op_ok, HK by done. reflexivity.
  - unfold Adam_op. run_ops. lookups. reflexivity.
Qed.

(** ** C8: the sparse update of Adam *)

(** C8.  For a gradient given as rows [g] at indices [idx], the op that
    Adam builds first decays the whole of [m] and [v] by [beta_1] and
    [beta_2], then scatter-adds [(1 - beta_1) * g] into [m] and
    [(1 - beta_2) * g ** 2] into [v] at [idx], and finally commits
    [p' = p - learning_rate * m' / (sqrt(v') + epsilon)] computed from the
    whole updated [m'], [v']. *)
Theorem Adam_sparse_update self (g : Z → tensor) (idx : Z → list nat) p bs rt :
  K_update bs = K_update_default →
  is_Some (variables bs !! Slot p "m") →
  is_Some (variables bs !! Slot p "v") →
  ∃ op : Tensor,
    _resource_apply_sparse Adam self (feed g) p (feed idx) bs = (Ok op, bs) ∧
    let g_t := g (iterations rt) in
    let i_t := idx (iterations rt) in
    let m_decayed := (t_const (beta_1 self) * vars rt !!! Slot p "m")%T in
    let v_decayed := (t_const (beta_2 self) * vars rt !!! Slot p "v")%T in
    let m' :=
      t_scatter_add m_decayed i_t
        ((t_const 1 - t_const (beta_1 self)) * g_t)%T in
    let v' :=
      t_scatter_add v_decayed i_t
        ((t_const 1 - t_const (beta_2 self)) * t_pow g_t (t_const 2))%T in
    let p' :=
      (vars rt !!! Param p
       - t_const (learning_rate self) * m'
         / (t_sqrt v' + t_const (epsilon self)))%T in
    value op rt = p' ∧
    iterations (exec op rt) = iterations rt ∧
    vars (exec op rt) =
      <[Param p := p']> (<[Slot p "v" := v']> (<[Slot p "m" := m']> (vars rt))).
Proof.
  intros HK Hm Hv. eexists. split.
  - unfold _resource_apply_sparse. cbn -[Adam__resource_apply_op].
    rewrite Adam__resource_apply_op_ok, HK by done. reflexivity.
  - unfold Adam_op. run_ops. lookups. split; [done |]. split; [done |].
    apply map_eq. intros y.
    destruct (decide (y = Param p)) as [-> | ?]; [by lookups |].
    destruct (decide (y = Slot p "v")) as [-> | ?]; [by lookups |].
    destruct (decide (y = Slot p "m")) as [-> | ?]; by lookups.
Qed.

(** ** C5, C6, C7: weight decay, layer adaptation, piecewise linear rate *)

Lemma no_pattern_matches_true patterns w :
  no_pattern_matches re_search patterns w = true
  ↔ ∀ n, n ∈ patterns → re_search n (name w) = false.
Proof.
  induction patterns as [|n patterns IH]; cbn [no_pattern_matches].
  - split; [| done]. intros _ n Hn. by apply elem_of_nil in Hn.
  - destruct (re_search n (name w)) eqn:E.
    + split; [done |]. intros Hall. rewrite <- E. symmetry. apply Hall. left.
    + rewrite IH. split.
      * intros Hall n' [-> | Hn']%elem_of_cons; auto.
      * intros Hall n' Hn'. apply Hall. by right.
Qed.

Lemma no_pattern_matches_false patterns w :
  no_pattern_matches re_search patterns w = false
  ↔ ∃ n, n ∈ patterns ∧ re_search n (name w) = true.
Proof.
  induction patterns as [|n patterns IH]; cbn [no_pattern_matches].
  - split; [done |]. intros (n & Hn & _). by apply elem_of_nil in Hn.
  - destruct (re_search n (name w)) eqn:E.
    + split; [| done]. intros _. exists n. split; [left | done].
    + rewrite IH. split.
      * intros (n' & Hn' & E'). exists n'. split; [by right | done].
      * intros (n' & [-> | Hn']%elem_of_cons & E'); [congruence |].
        by exists n'.
Qed.

Lemma weight_decay_rewrites self (params : list string) :
  rewrites_params params
    (weight_decay_new_update re_search self (Param <$> params) K_update_default)
    (λ p nx old _,
       if _do_weight_decay re_search self (Param p)
       then (nx - t_const (learning_rate self) * t_const (weight_decay_rate self)
                  * old)%T
       else nx).
Proof.
  split.
  - intros p s new_x. unfold weight_decay_new_update.
    by rewrite Slot_not_param.
  - intros p f rt Hp. unfold weight_decay_new_update.
    rewrite (Param_in_params _ _ Hp). cbn [andb].
    destruct (_do_weight_decay re_search self (Param p)); run_ops; by lookups.
Qed.

(** C5.  One step of weight decay over Adam: a parameter whose name
    matches no exclude pattern is committed as
    [new_value - learning_rate * weight_decay_rate * old_value], where
    [new_value] is the value Adam proposes and [old_value] the value
    before the step; a parameter whose name matches some exclude pattern
    is committed as [new_value], which is also what the same optimizer
    constructed with [weight_decay_rate = 0] commits. *)
Theorem weight_decay_update self loss (g : string → Z → tensor)
    (params : list string) bs :
  K_update bs = K_update_default →
  NoDup params →
  (∀ p, p ∈ params → loss p = Some (Dense (feed (g p)))) →
  let AdamW := extend_with_weight_decay Adam in
  ∃ updates bs' updates0 bs0',
    get_updates re_search K_epsilon AdamW AdamW self loss params bs
    = (Ok updates, bs') ∧
    get_updates re_search K_epsilon AdamW AdamW
      (with_weight_decay_rate 0 self) loss params bs
    = (Ok updates0, bs0') ∧
    ∀ rt p, p ∈ params →
      let old_value := vars rt !!! Param p in
      let new_value :=
        adam_var self old_value
          (adam_m self (vars rt !!! Slot p "m") (g p (iterations rt)))
          (adam_v self (vars rt !!! Slot p "v") (g p (iterations rt))) in
      ((∀ n, n ∈ exclude_from_weight_decay self → re_search n p = false) →
       vars (exec updates rt) !!! Param p
       = (new_value
          - t_const (learning_rate self) * t_const (weight_decay_rate self)
            * old_value)%T) ∧
      ((∃ n, n ∈ exclude_from_weight_decay self ∧ re_search n p = true) →
       vars (exec updates rt) !!! Param p = new_value ∧
       vars (exec updates0 rt) !!! Param p = new_value).
Proof.
  intros HK Hnd Hloss AdamW.
  destruct (hooked_Adam_step (λ _, True) AdamW self loss g params
              (weight_decay_new_update re_search self (Param <$> params)) _ bs
              slot_invariant_True ltac:(done) ltac:(done) ltac:(done)
              Hloss Hnd I
              ltac:(rewrite HK; apply weight_decay_rewrites))
    as (updates & bs' & E & _ & _ & Hrun).
  destruct (hooked_Adam_step (λ _, True) AdamW (with_weight_decay_rate 0 self)
              loss g params
              (weight_decay_new_update re_search (with_weight_decay_rate 0 self)
                 (Param <$> params)) _ bs
              slot_invariant_True ltac:(done) ltac:(done) ltac:(done)
              Hloss Hnd I
              ltac:(rewrite HK; apply weight_decay_rewrites))
    as (updates0 & bs0' & E0 & _ & _ & Hrun0).
  exists updates, bs', updates0, bs0'. split; [exact E |]. split; [exact E0 |].
  intros rt p Hp. cbn zeta.
  destruct (Hrun rt p Hp) as (_ & _ & _ & ->).
  destruct (Hrun0 rt p Hp) as (_ & _ & _ & ->).
  unfold _do_weight_decay. cbn [exclude_from_weight_decay with_weight_decay_rate].
  split.
  - intros Hno.
    by rewrite (proj2 (no_pattern_matches_true _ (Param p)) Hno).
  - intros Hsome.
    by rewrite (proj2 (no_pattern_matches_false _ (Param p)) Hsome).
Qed.

Lemma layer_adaptation_rewrites self (params : list string) :
  rewrites_params params
    (layer_adaptation_new_update re_search K_epsilon self (Param <$> params)
       K_update_default)
    (λ p nx old _,
       if _do_layer_adaptation re_search self (Param p)
       then
         let dx := (nx - old)%T in
         let x_norm := t_norm old in
         let g_norm := t_norm (dx / t_const (learning_rate self))%T in
         let ratio :=
           if t_gt x_norm (t_const 0)
           then if t_gt g_norm (t_const K_epsilon)
                then (x_norm / g_norm)%T else t_const 1
           else t_const 1 in
         (old + dx * ratio)%T
       else nx).
Proof.
  split.
  - intros p s new_x. unfold layer_adaptation_new_update.
    by rewrite Slot_not_param.
  - intros p f rt Hp. unfold layer_adaptation_new_update.
    rewrite (Param_in_params _ _ Hp). cbn [andb].
    destruct (_do_layer_adaptation re_search self (Param p)); run_ops; by lookups.
Qed.

(** C6.  One step of layer adaptation over Adam: for a parameter whose
    name matches no exclude pattern, with [new_value] the value Adam
    proposes, [dx = new_value - old_value], [x_norm] the norm of
    [old_value] and [g_norm] the norm of [dx / learning_rate], the
    committed value is [old_value + dx * ratio], where
    [ratio = x_norm / g_norm] if [x_norm > 0] and [g_norm > K.epsilon()],
    and [ratio = 1] otherwise. *)
Theorem layer_adaptation_update self loss (g : string → Z → tensor)
    (params : list string) bs :
  K_update bs = K_update_default →
  NoDup params →
  (∀ p, p ∈ params → loss p = Some (Dense (feed (g p)))) →
  let AdamLA := extend_with_layer_adaptation Adam in
  ∃ updates bs',
    get_updates re_search K_epsilon AdamLA AdamLA self loss params bs
    = (Ok updates, bs') ∧
    ∀ rt p, p ∈ params →
      (∀ n, n ∈ exclude_from_layer_adaptation self → re_search n p = false) →
      let old_value := vars rt !!! Param p in
      let new_value :=
        adam_var self old_value
          (adam_m self (vars rt !!! Slot p "m") (g p (iterations rt)))
          (adam_v self (vars rt !!! Slot p "v") (g p (iterations rt))) in
      let dx := (new_value - old_value)%T in
      let x_norm := t_norm old_value in
      let g_norm := t_norm (dx / t_const (learning_rate self))%T in
      let ratio :=
        if t_gt x_norm (t_const 0) && t_gt g_norm (t_const K_epsilon)
        then (x_norm / g_norm)%T
        else t_const 1 in
      vars (exec updates rt) !!! Param p = (old_value + dx * ratio)%T.
Proof.
  intros HK Hnd Hloss AdamLA.
  destruct (hooked_Adam_step (λ _, True) AdamLA self loss g params
              (layer_adaptation_new_update re_search K_epsilon self
                 (Param <$> params)) _ bs
              slot_invariant_True ltac:(done) ltac:(done) ltac:(done)
              Hloss Hnd I
              ltac:(rewrite HK; apply layer_adaptation_rewrites))
    as (updates & bs' & E & _ & _ & Hrun).
  exists updates, bs'. split; [exact E |].
  intros rt p Hp Hno. cbn zeta.
  destruct (Hrun rt p Hp) as (_ & _ & _ & ->).
  unfold _do_layer_adaptation.
  rewrite (proj2 (no_pattern_matches_true _ (Param p)) Hno).
  by destruct (t_gt _ _), (t_gt _ _).
Qed.

Lemma piecewise_linear_lr_rewrites self (params : list string) :
  rewrites_params params
    (piecewise_linear_lr_new_update self (Param <$> params) K_update_default)
    (λ p nx old t,
       (old + (nx - old) * t_const (piecewise_linear t (lr_schedule self)))%T).
Proof.
  split.
  - intros p s new_x. unfold piecewise_linear_lr_new_update.
    by rewrite Slot_not_param.
  - intros p f rt Hp. unfold piecewise_linear_lr_new_update.
    rewrite (Param_in_params _ _ Hp). unfold lr_multiplier. run_ops. by lookups.
Qed.

(** The multiplier is constant from the last breakpoint on. *)
Lemma interpolate_after t0 x0 schedule t :
  (∀ k, k ∈ schedule → (k.1 ≤ t)%Z) →
  interpolate t0 x0 schedule t = (default (t0, x0) (last schedule)).2.
Proof.
  revert t0 x0. induction schedule as [|[t1 x1] schedule IH]; intros t0 x0 Hle.
  - done.
  - cbn [interpolate].
    assert ((t <? t1)%Z = false) as ->.
    { apply Z.ltb_ge. apply (Hle (t1, x1)). left. }
    rewrite IH.
    + rewrite last_cons. by destruct (last schedule).
    + intros k Hk. apply Hle. by right.
Qed.

(** C7.  One step of the piecewise linear schedule over Adam commits, for
    every parameter, [old_value + (new_value - old_value) * multiplier],
    where the multiplier is [piecewise_linear] of [iterations] and the
    schedule alone.  The multiplier is 0 at step 0 when the first
    breakpoint lies after step 0, and is the last multiplier from the last
    breakpoint on.  For the schedule [{1000: 1.0, 2000: 0.1}] it is 0 at
    step 0, 0.5 at step 500, 1 at step 1000, 0.55 at step 1500, 0.1 at
    step 2000 and 0.1 at step 3000. *)
Theorem piecewise_linear_lr_update self loss (g : string → Z → tensor)
    (params : list string) bs :
  K_update bs = K_update_default →
  NoDup params →
  (∀ p, p ∈ params → loss p = Some (Dense (feed (g p)))) →
  let AdamLR := extend_with_piecewise_linear_lr Adam in
  (∃ updates bs',
     get_updates re_search K_epsilon AdamLR AdamLR self loss params bs
     = (Ok updates, bs') ∧
     ∀ rt p, p ∈ params →
       let old_value := vars rt !!! Param p in
       let new_value :=
         adam_var self old_value
           (adam_m self (vars rt !!! Slot p "m") (g p (iterations rt)))
           (adam_v self (vars rt !!! Slot p "v") (g p (iterations rt))) in
       let multiplier := piecewise_linear (iterations rt) (lr_schedule self) in
       vars (exec updates rt) !!! Param p
       = (old_value + (new_value - old_value) * t_const multiplier)%T) ∧
  (∀ t1 x1 schedule,
     (0 < t1)%Z → (piecewise_linear 0 ((t1, x1) :: schedule) == 0)%Q) ∧
  (∀ schedule t x_last t_last,
     last schedule = Some (t_last, x_last) →
     (∀ k, k ∈ schedule → (k.1 ≤ t)%Z) →
     piecewise_linear t schedule = x_last) ∧
  let schedule := [(1000%Z, 1%Q); (2000%Z, (1 # 10)%Q)] in
  (piecewise_linear 0 schedule == 0)%Q ∧
  (piecewise_linear 500 schedule == 1 # 2)%Q ∧
  (piecewise_linear 1000 schedule == 1)%Q ∧
  (piecewise_linear 1500 schedule == 55 # 100)%Q ∧
  (piecewise_linear 2000 schedule == 1 # 10)%Q ∧
  (piecewise_linear 3000 schedule == 1 # 10)%Q.
Proof.
  intros HK Hnd Hloss AdamLR. split; [| split; [| split]].
  - destruct (hooked_Adam_step (λ _, True) AdamLR self loss g params
                (piecewise_linear_lr_new_update self (Param <$> params)) _ bs
                slot_invariant_True ltac:(done) ltac:(done) ltac:(done)
                Hloss Hnd I
                ltac:(rewrite HK; apply piecewise_linear_lr_rewrites))
      as (updates & bs' & E & _ & _ & Hrun).
    exists updates, bs'. split; [exact E |].
    intros rt p Hp. cbn zeta. by destruct (Hrun rt p Hp) as (_ & _ & _ & ->).
  - intros t1 x1 schedule Ht1. unfold piecewise_linear. cbn [interpolate].
    assert ((0 <? t1)%Z = true) as -> by by apply Z.ltb_lt.
    rewrite Z.sub_diag. unfold inject_Z at 2. ring.
  - intros schedule t x_last t_last Hlast Hle. unfold piecewise_linear.
    by rewrite (interpolate_after _ _ _ _ Hle), Hlast.
  - cbn zeta. by repeat split.
Qed.

(** ** C2: gradient accumulation, slot-based variant over Adam *)

(** C2 (as amended).  With [steps_per_update = N] and for every parameter
    of the list: a step at which [iterations mod N = 0] commits Adam's
    update for the gradient [ag / N], where [ag] is the accumulator as
    the step finds it, and restarts the accumulator from the gradient of
    the step; a step at which [iterations mod N ≠ 0] leaves the
    parameter, [m] and [v] at their values before the step and adds its
    gradient to the accumulator.  Hence, from a step with
    [iterations mod N = 0] on, the gradients [g_1 .. g_N] of [N]
    consecutive steps are summed while the parameter keeps the value the
    first of these steps committed, and the step after them commits Adam's
    update for the average [(g_1 + ... + g_N) / N]. *)
Theorem gradient_accumulation_v2_update self loss (g : string → Z → tensor)
    (params : list string) bs :
  let N := steps_per_update self in
  let GA := extend_with_gradient_accumulation_v2 Adam in
  (0 < N)%Z →
  K_update bs = K_update_default →
  _first_get_gradients bs = true →
  NoDup params →
  (∀ p, p ∈ params → loss p = Some (Dense (feed (g p)))) →
  ∃ updates bs',
    get_updates re_search K_epsilon GA GA self loss params bs
    = (Ok updates, bs') ∧
    ∀ rt p, p ∈ params →
      let t := iterations rt in
      let m := vars rt !!! Slot p "m" in
      let v := vars rt !!! Slot p "v" in
      let x := vars rt !!! Param p in
      let ag := vars rt !!! Slot p "ag" in
      let rt' := train_step updates rt in
      (t `mod` N = 0 →
       let G := (ag / t_const (inject_Z N))%T in
       vars rt' !!! Slot p "m" = adam_m self m G ∧
       vars rt' !!! Slot p "v" = adam_v self v G ∧
       vars rt' !!! Param p = adam_var self x (adam_m self m G) (adam_v self v G) ∧
       vars rt' !!! Slot p "ag" = g p t) ∧
      (t `mod` N ≠ 0 →
       vars rt' !!! Slot p "m" = m ∧
       vars rt' !!! Slot p "v" = v ∧
       vars rt' !!! Param p = x ∧
       vars rt' !!! Slot p "ag" = (ag + g p t)%T) ∧
      (t `mod` N = 0 →
       (∀ k : nat, (Z.of_nat k < N)%Z →
          let rt_k := train updates (S k) rt in
          iterations rt_k = (t + Z.of_nat (S k))%Z ∧
          vars rt_k !!! Param p = vars rt' !!! Param p ∧
          vars rt_k !!! Slot p "ag" = sum_grads (g p) t k) ∧
       let rt_N := train updates (Z.to_nat N) rt in
       let G := (sum_grads (g p) t (Z.to_nat N - 1) / t_const (inject_Z N))%T in
       let m1 := vars rt' !!! Slot p "m" in
       let v1 := vars rt' !!! Slot p "v" in
       let x1 := vars rt' !!! Param p in
       vars (train_step updates rt_N) !!! Param p
       = adam_var self x1 (adam_m self m1 G) (adam_v self v1 G)).
Proof.
  intros N GA HN HK Hfirst Hnd Hloss.
  destruct (gradient_accumulation_v2_get_updates (λ _, True) self loss g
              params bs slot_invariant_True I Hfirst Hloss)
    as (updates & bs' & E & -> & _ & _).
  rewrite HK in E. eexists _, bs'. split; [exact E |].
  intros rt p Hp. cbn zeta.
  set (updates := run_all _).
  pose proof (gradient_accumulation_v2_step self g params rt p Hnd Hp)
    as (Hit & Hm & Hv & Hx & Hag).
  fold updates in Hit, Hm, Hv, Hx, Hag. fold N in Hm, Hv, Hx, Hag.
  assert (Hvars : vars (train_step updates rt) = vars (exec updates rt)) by done.
  split; [| split].
  - intros Ht. rewrite bool_decide_eq_true_2 in Hm, Hv, Hx, Hag by done.
    by rewrite Hvars, Hm, Hv, Hx, Hag.
  - intros Ht. rewrite bool_decide_eq_false_2 in Hm, Hv, Hx, Hag by done.
    by rewrite Hvars, Hm, Hv, Hx, Hag.
  - intros Ht. clear Hvars. split.
    + intros k Hk.
      destruct (gradient_accumulation_v2_window self g params rt p k Hnd Hp
                  HN Ht Hk) as (Hitk & _ & _ & Hxk & Hagk).
      fold updates in Hitk, Hxk, Hagk. by rewrite Hitk, Hxk, Hagk.
    + assert (Z.to_nat N = S (Z.to_nat N - 1)) as HNS by lia.
      destruct (gradient_accumulation_v2_window self g params rt p
                  (Z.to_nat N - 1) Hnd Hp HN Ht ltac:(lia))
        as (HitN & HmN & HvN & HxN & HagN).
      fold updates in HitN, HmN, HvN, HxN, HagN.
      rewrite <- HNS in HitN, HmN, HvN, HxN, HagN.
      set (rt_N := train updates (Z.to_nat N) rt) in *.
      pose proof (gradient_accumulation_v2_step self g params rt_N p Hnd Hp)
        as (_ & _ & _ & HxN' & _).
      fold updates in HxN'. fold N in HxN'.
      rewrite bool_decide_eq_true_2 in HxN'.
      2:{ rewrite HitN. rewrite Z.add_mod by lia. rewrite Ht.
          replace (Z.of_nat (Z.to_nat N)) with N by lia.
          rewrite Z.mod_same by lia. done. }
      change (vars (train_step updates rt_N)) with (vars (exec updates rt_N)).
      by rewrite HxN', HxN, HmN, HvN, HagN.
Qed.

(** ** C10: the gating hook of gradient accumulation *)

(** C10.  With [steps_per_update = N], the [new_update] both variants of
    gradient accumulation install commits, on a step at which
    [iterations mod N ≠ 0], the current value of its target, whatever
    variable the target is: no test of the target is made.  Hence on such
    a step the slot-based variant over Adam leaves [m], [v] and the
    parameter of every parameter of the list at their values, and the ops
    the classic variant over Adam returns leave every variable at its
    value. *)
Theorem gradient_accumulation_gates_every_write self loss
    (g : string → Z → tensor) (params : list string) bs :
  let N := steps_per_update self in
  let cond := iterations_mod_is_zero N in
  K_update bs = K_update_default →
  _first_get_gradients bs = true →
  NoDup params →
  (∀ p, p ∈ params → loss p = Some (Dense (feed (g p)))) →
  (∀ (x : var) (new_x : Tensor) rt,
     iterations rt `mod` N ≠ 0 →
     let rt1 := exec new_x rt in
     gradient_accumulation_new_update cond K_update_default x new_x rt
     = (vars rt1 !!! x,
        Runtime (<[x := vars rt1 !!! x]> (vars rt1)) (iterations rt1))) ∧
  (let GA := extend_with_gradient_accumulation_v2 Adam in
   ∃ updates bs',
     get_updates re_search K_epsilon GA GA self loss params bs
     = (Ok updates, bs') ∧
     ∀ rt p, p ∈ params → iterations rt `mod` N ≠ 0 →
       let rt' := train_step updates rt in
       vars rt' !!! Slot p "m" = vars rt !!! Slot p "m" ∧
       vars rt' !!! Slot p "v" = vars rt !!! Slot p "v" ∧
       vars rt' !!! Param p = vars rt !!! Param p) ∧
  (let GA := extend_with_gradient_accumulation Adam in
   ∃ updates bs',
     get_updates re_search K_epsilon GA GA self loss params bs
     = (Ok updates, bs') ∧
     ∀ rt, iterations rt `mod` N ≠ 0 →
       ∀ y, vars (train_step updates rt) !!! y = vars rt !!! y).
Proof.
  intros N cond HK Hfirst Hnd Hloss. split; [| split].
  - intros x new_x rt Hc. cbn zeta.
    unfold gradient_accumulation_new_update, cond, exec. run_ops.
    rewrite bool_decide_eq_false_2 by done.
    destruct (new_x rt) as [a rt1]. cbn [fst snd vars iterations].
    by lookups.
  - cbn zeta.
    destruct (gradient_accumulation_v2_get_updates (λ _, True) self loss g
                params bs slot_invariant_True I Hfirst Hloss)
      as (updates & bs' & E & -> & _ & _).
    rewrite HK in E. eexists _, bs'. split; [exact E |].
    intros rt p Hp Hc. cbn zeta. set (updates := run_all _).
    pose proof (gradient_accumulation_v2_step self g params rt p Hnd Hp)
      as (_ & Hm & Hv & Hx & _).
    fold updates in Hm, Hv, Hx. fold N in Hm, Hv, Hx.
    rewrite bool_decide_eq_false_2 in Hm, Hv, Hx by done.
    change (vars (train_step updates rt)) with (vars (exec updates rt)).
    by rewrite Hm, Hv, Hx.
  - cbn zeta.
    destruct (gradient_accumulation_get_updates self loss
                (λ p, Dense (feed (g p))) params bs Hfirst Hloss)
      as (updates & bs' & E & _ & gps & ->).
    rewrite HK in E. eexists _, bs'. split; [exact E |].
    intros rt Hc y.
    change (vars (train_step ?u rt)) with (vars (exec u rt)).
    by apply (run_all_gated self gps rt Hc).
Qed.

(** ** Lookahead *)

(** A call that returns leaves the build state as it found it. *)
Definition pure_call {A} (m : B A) : Prop :=
  ∀ bs a bs', m bs = (Ok a, bs') → bs' = bs.

Lemma pure_call_ret {A} (a : A) : pure_call (mret a).
Proof. by intros bs a' bs' [= _ <-]. Qed.

Lemma pure_call_bind {A C} (m : B A) (f : A → B C) :
  pure_call m → (∀ a, pure_call (f a)) → pure_call (m ≫= f).
Proof.
  intros Hm Hf bs c bs''. unfold mbind, B_bind.
  destruct (m bs) as [[a | e] bs'] eqn:E; [| done].
  intros E'. rewrite (Hf _ _ _ _ E'). by eapply Hm.
Qed.

Lemma pure_call_get_slot p s : pure_call (get_slot p s).
Proof.
  intros bs a bs'. unfold get_slot.
  destruct (variables bs !! _); by intros [= _ <-].
Qed.

Lemma pure_call_get_K_update : pure_call get_K_update.
Proof. by intros bs a bs' [= _ <-]. Qed.

Lemma pure_call_Adam__resource_apply_op self grad p indices :
  pure_call (Adam__resource_apply_op self grad p indices).
Proof.
  unfold Adam__resource_apply_op.
  apply pure_call_bind; [apply pure_call_get_slot |]. intros m.
  apply pure_call_bind; [apply pure_call_get_slot |]. intros v.
  apply pure_call_bind.
  - destruct indices;
      (apply pure_call_bind; [apply pure_call_get_K_update |]; intros u1;
       apply pure_call_bind; [apply pure_call_get_K_update |]; intros u2;
       apply pure_call_ret).
  - intros mv.
    apply pure_call_bind; [apply pure_call_get_K_update |]. intros u.
    apply pure_call_ret.
Qed.

Lemma pure_call__resource_apply_op cls self grad var indices :
  pure_call (_resource_apply_op cls self grad var indices).
Proof.
  revert grad indices.
  induction cls as [| | | | | cls IH | | cls IH];
    intros grad indices; cbn [_resource_apply_op]; try done.
  - apply pure_call_Adam__resource_apply_op.
  - destruct indices; [by intros bs a bs' [=] |].
    intros bs a bs''. build_ops.
    destruct (_resource_apply_op cls self grad var None _)
      as [[op | e] bs'] eqn:E; [| done].
    apply IH in E as ->.
    unfold get_instant_grad. cbn [instant_grads with_K_update].
    destruct (instant_grads bs !! var); [| done].
    unfold get_slot. cbn [variables with_K_update].
    destruct (variables bs !! _); [| done].
    intros [= _ <-]. by destruct bs.
  - apply pure_call_bind; [done |]. intros op.
    apply pure_call_bind; [apply pure_call_get_slot |]. intros slow_var.
    apply pure_call_bind; [apply pure_call_get_K_update |]. intros u1.
    apply pure_call_bind; [apply pure_call_get_K_update |]. intros u2.
    apply pure_call_ret.
Qed.
















(** [_resource_apply_op] of the slot-based lookahead, given what the base
    class returns. *)
Lemma lookahead_v2_apply_op base self (gradient : Tensor) p indices bs op bs1 :
  is_Some (variables bs !! Slot p "slow_var") →
  _resource_apply_op base self gradient p (Some (mjoin indices)) bs
  = (Ok op, bs1) →
  _resource_apply_op (extend_with_lookahead_v2 base) self gradient p indices bs
  = (Ok (lookahead_v2_op (K_update bs) self op p), bs).
Proof.
  intros Hslow E. cbn [_resource_apply_op].
  pose proof (pure_call__resource_apply_op _ _ _ _ _ _ _ _ E) as ->.
  rewrite (bind_Ok _ _ _ _ _ E).
  by rewrite (bind_Ok _ _ _ _ _ (get_slot_ok _ _ _ Hslow)).
Qed.


(** ** The slot-based lookahead over Adam *)

Lemma K_update_default_rewrites (params : list string) :
  rewrites_params params K_update_default (λ _ nx _ _, nx).
Proof.
  split; [done |]. intros p f rt _. unfold K_update_default. run_ops.
  by lookups.
Qed.

(** The ops of Adam for the parameters of the list, under a hook that
    rewrites the writes to parameters: what they do to each parameter,
    and that they touch the variables of no other. *)
Lemma Adam_updates_run (params : list string) h T self
    (g : string → Z → tensor) rt p :
  rewrites_params params h T → NoDup params → p ∈ params →
  let updates := run_all ((λ q, Adam_op h self (feed (g q)) q None) <$> params) in
  let m' := adam_m self (vars rt !!! Slot p "m") (g p (iterations rt)) in
  let v' := adam_v self (vars rt !!! Slot p "v") (g p (iterations rt)) in
  let x := vars rt !!! Param p in
  iterations (exec updates rt) = iterations rt ∧
  vars (exec updates rt) !!! Slot p "m" = m' ∧
  vars (exec updates rt) !!! Slot p "v" = v' ∧
  vars (exec updates rt) !!! Param p
  = T p (adam_var self x m' v') x (iterations rt).
Proof.
  intros Hh Hnd Hp. cbn zeta.
  set (op := λ q, Adam_op h self (feed (g q)) q None).
  assert (Hloc : ∀ q, q ∈ params → local_op (fam q) (op q)).
  { intros q Hq. by eapply Adam_op_rewritten_local. }
  assert (Hone : ∀ y, fam p y →
            vars (exec (run_all (op <$> params)) rt) !! y
            = vars (exec (op p) rt) !! y).
  { intros y Hy. apply (run_all_local fam); try done.
    intros j k z _ _ Hjk. by apply fam_disjoint. }
  split; [by apply (run_all_iterations fam) |].
  rewrite !lookup_total_alt, !Hone;
    [| by left | right; by eexists | right; by eexists].
  unfold op, exec.
  rewrite (Adam_op_rewritten _ _ _ _ _ _ rt Hh Hp). cbn [snd vars].
  rewrite <- !lookup_total_alt. by lookups.
Qed.

Lemma Adam_updates_frame (params : list string) h T self
    (g : string → Z → tensor) rt y :
  rewrites_params params h T →
  (∀ q, q ∈ params → ¬ fam q y) →
  let updates := run_all ((λ q, Adam_op h self (feed (g q)) q None) <$> params) in
  vars (exec updates rt) !! y = vars rt !! y.
Proof.
  intros Hh Hy. cbn zeta.
  apply (run_all_frame fam (λ q, Adam_op h self (feed (g q)) q None));
    [| done].
  intros q Hq. by eapply Adam_op_rewritten_local.
Qed.


(** The op of the slot-based lookahead over Adam for one parameter.
    [slow_var_t] is built before the block that depends on the op of Adam
    (l.450, l.452), so it reads the parameter before or after Adam has
    written it: [read] is the value it meets. *)
Lemma lookahead_v2_Adam_op_run self (g : Z → tensor) p rt :
  let cond := bool_decide (iterations rt `mod` steps_per_slow_update self = 0) in
  let m' := adam_m self (vars rt !!! Slot p "m") (g (iterations rt)) in
  let v' := adam_v self (vars rt !!! Slot p "v") (g (iterations rt)) in
  let x := vars rt !!! Param p in
  let fast := adam_var self x m' v' in
  let slow := vars rt !!! Slot p "slow_var" in
  let read := if reads_first p (iterations rt) then x else fast in
  let slow' := if cond then lookahead_slow self slow read else slow in
  let fast' := if cond then slow' else fast in
  lookahead_v2_op K_update_default self
    (Adam_op K_update_default self (feed g) p None) p rt
  = (fast',
     Runtime (<[Param p := fast']>
                (<[Slot p "slow_var" := slow']>
                   (<[Param p := fast]>
                      (<[Slot p "v" := v']>
                         (<[Slot p "m" := m']> (vars rt))))))
       (iterations rt)).
Proof.
  cbn zeta.
  unfold lookahead_v2_op, unordered_with, lookahead_copy_update, Adam_op.
  run_ops. destruct (reads_first p (iterations rt)).
  all: run_ops; cbn [fst snd]; lookups; by destruct (bool_decide _).
Qed.

Lemma lookahead_v2_Adam_op_local self (g : Z → tensor) p :
  local_op (fam p)
    (lookahead_v2_op K_update_default self
       (Adam_op K_update_default self (feed g) p None) p).
Proof.
  assert (Hfam : ∀ rt rt',
            (∀ y, fam p y → vars rt !! y = vars rt' !! y) →
            ∀ s, vars rt !!! Slot p s = vars rt' !!! Slot p s).
  { intros rt rt' Hag s'. rewrite !lookup_total_alt, Hag; [done |].
    right. by exists s'. }
  assert (Hpar : ∀ rt rt',
            (∀ y, fam p y → vars rt !! y = vars rt' !! y) →
            vars rt !!! Param p = vars rt' !!! Param p).
  { intros rt rt' Hag. rewrite !lookup_total_alt, Hag; [done |]. by left. }
  split.
  - intros rt. unfold exec. by rewrite lookahead_v2_Adam_op_run.
  - intros rt y Hy. unfold exec. rewrite lookahead_v2_Adam_op_run.
    cbn [snd vars].
    rewrite !lookup_insert_ne; [done | | | | |];
      intros <-; apply Hy;
      [right; by eexists | right; by eexists | by left | right; by eexists
      | by left].
  - intros rt rt' Hit Hag y Hy. unfold exec.
    rewrite !lookahead_v2_Adam_op_run. cbn [snd vars].
    rewrite !(Hfam rt rt' Hag), (Hpar rt rt' Hag), Hit.
    destruct (decide (y = Param p)) as [-> | ?]; [by lookups |].
    destruct (decide (y = Slot p "slow_var")) as [-> | ?]; [by lookups |].
    destruct (decide (y = Slot p "v")) as [-> | ?]; [by lookups |].
    destruct (decide (y = Slot p "m")) as [-> | ?]; [by lookups |].
    lookups. by apply Hag.
Qed.

(** One step of the slot-based lookahead over Adam. *)
Lemma lookahead_v2_Adam_step self (g : string → Z → tensor)
    (params : list string) rt p :
  NoDup params → p ∈ params →
  let updates :=
    run_all ((λ q, lookahead_v2_op K_update_default self
                     (Adam_op K_update_default self (feed (g q)) q None) q)
               <$> params) in
  let rt' := exec updates rt in
  let cond := bool_decide (iterations rt `mod` steps_per_slow_update self = 0) in
  let m' := adam_m self (vars rt !!! Slot p "m") (g p (iterations rt)) in
  let v' := adam_v self (vars rt !!! Slot p "v") (g p (iterations rt)) in
  let x := vars rt !!! Param p in
  let fast := adam_var self x m' v' in
  let slow := vars rt !!! Slot p "slow_var" in
  let read := if reads_first p (iterations rt) then x else fast in
  let slow' := if cond then lookahead_slow self slow read else slow in
  iterations rt' = iterations rt ∧
  vars rt' !!! Slot p "m" = m' ∧
  vars rt' !!! Slot p "v" = v' ∧
  vars rt' !!! Slot p "slow_var" = slow' ∧
  vars rt' !!! Param p = (if cond then slow' else fast).
Proof.
  intros Hnd Hp. cbn zeta.
  set (op := λ q, lookahead_v2_op K_update_default self
                    (Adam_op K_update_default self (feed (g q)) q None) q).
  assert (Hone : ∀ y, fam p y →
            vars (exec (run_all (op <$> params)) rt) !! y
            = vars (exec (op p) rt) !! y).
  { intros y Hy.
    apply (run_all_local fam op params rt p y);
      [| | exact Hnd | exact Hp | exact Hy].
    - intros q _. exact (lookahead_v2_Adam_op_local self (g q) q).
    - intros j k z _ _ Hjk. by apply fam_disjoint. }
  split.
  { apply (run_all_iterations fam op params rt). intros q _.
    exact (lookahead_v2_Adam_op_local self (g q) q). }
  rewrite !lookup_total_alt, !Hone;
    [| by left | right; by eexists | right; by eexists | right; by eexists].
  unfold op, exec. rewrite lookahead_v2_Adam_op_run. cbn [snd vars].
  rewrite <- !lookup_total_alt. by lookups.
Qed.





(** [get_updates] of the slot-based lookahead over Adam, with the slots
    it leaves. *)
Lemma lookahead_v2_Adam_get_updates J self loss (g : string → Z → tensor)
    (params : list string) bs :
  let LA := extend_with_lookahead_v2 Adam in
  slot_invariant J → J bs →
  (∀ q, q ∈ params → loss q = Some (Dense (feed (g q)))) →
  ∃ bs',
    get_updates re_search K_epsilon LA LA self loss params bs
    = (Ok (run_all ((λ q, lookahead_v2_op (K_update bs) self
                            (Adam_op (K_update bs) self (feed (g q)) q None) q)
                      <$> params)), bs') ∧
    ext bs bs' ∧ J bs' ∧
    ∀ p, p ∈ params →
      is_Some (variables bs' !! Slot p "m") ∧
      is_Some (variables bs' !! Slot p "v") ∧
      is_Some (variables bs' !! Slot p "slow_var").
Proof.
  intros LA HJ Hinit Hloss. subst LA.
  destruct (Adam__create_slots_spec J params bs HJ Hinit)
    as ([] & bs1 & E1 & Hext1 & Hinit1 & Hmv1).
  destruct (succeeds_mapM_ext (λ var, add_slot var "slow_var") J
              (λ q bs0, is_Some (variables bs0 !! Slot q "slow_var"))
              params bs1 Hinit1)
    as (us & bs2 & E2 & Hext2 & HJ2 & Hslow2).
  { intros q bs0 H0. apply (slot_invariant_add _ HJ _ _ _ H0). }
  { intros q bs0 bs0' H0 He. by eapply ext_is_Some. }
  pose proof (ext_trans _ _ _ Hext1 Hext2) as Hext.
  pose proof Hext as (HK & _).
  assert (Hmv2 : ∀ q, q ∈ params →
            is_Some (variables bs2 !! Slot q "m") ∧
            is_Some (variables bs2 !! Slot q "v")).
  { intros q Hq. destruct (Hmv1 q Hq) as [Hm Hv].
    split; [exact (ext_is_Some _ _ _ Hext2 Hm) | exact (ext_is_Some _ _ _ Hext2 Hv)]. }
  exists bs2. split; [| split; [exact Hext | split; [exact HJ2 |]]].
  - cbn [get_updates]. unfold Optimizer_get_updates. cbn [get_gradients].
    rewrite !(bind_Ok _ _ _ _ _
                (Optimizer_get_gradients_ok loss (λ q, Dense (feed (g q)))
                   params bs Hloss)).
    cbn [_create_slots].
    assert ((_ ← Adam__create_slots params;
             _ ← mapM (λ var, add_slot var "slow_var") params;
             mret ()) bs = (Ok (), bs2)) as Eslots.
    { rewrite (bind_Ok _ _ _ _ _ E1). by rewrite (bind_Ok _ _ _ _ _ E2). }
    rewrite !(bind_Ok _ _ _ _ _ Eslots).
    rewrite zip_fmap_diag, mapM_fmap.
    assert (Happly : ∀ q, q ∈ params →
      (Optimizer_apply_gradient (extend_with_lookahead_v2 Adam) self
       ∘ (λ q, (Dense (feed (g q)), q))) q bs2
      = (Ok (lookahead_v2_op (K_update bs) self
               (Adam_op (K_update bs) self (feed (g q)) q None) q), bs2)).
    { intros q Hq. unfold compose, Optimizer_apply_gradient,
        _resource_apply_dense. cbn [fst snd].
      destruct (Hmv2 q Hq) as [Hm Hv].
      rewrite (lookahead_v2_apply_op Adam self (feed (g q)) q None bs2
                 (Adam_op (K_update bs2) self (feed (g q)) q None) bs2
                 (Hslow2 q Hq)).
      - by rewrite HK.
      - cbn -[Adam__resource_apply_op].
        by apply Adam__resource_apply_op_ok. }
    by rewrite !(bind_Ok _ _ bs2 _ bs2 (mapM_pure _ _ params bs2 Happly)).
  - intros p Hp. destruct (Hmv2 p Hp) as [Hm Hv].
    split; [exact Hm |]. split; [exact Hv |]. exact (Hslow2 p Hp).
Qed.

(** * Further properties of the module *)

(** ** Stacks of the transforms that replace [K.update] in [get_updates] *)

(** Weight decay, layer adaptation and the piecewise linear rate, in any
    number and order, over Adam. *)
Fixpoint hook_stack (cls : optimizer) : bool :=
  match cls with
  | Adam => true
  | extend_with_weight_decay base
  | extend_with_layer_adaptation base
  | extend_with_piecewise_linear_lr base => hook_stack base
  | _ => false
  end.

(** The function [K.update] holds when the calls of [get_updates] have
    gone down the stack to the framework's, [old_update] being installed
    before the outermost call. *)
Fixpoint installed_hook (cls : optimizer) self (param_names : list var)
    (old_update : update_fn) : update_fn :=
  match cls with
  | extend_with_weight_decay base =>
      installed_hook base self param_names
        (weight_decay_new_update re_search self param_names old_update)
  | extend_with_layer_adaptation base =>
      installed_hook base self param_names
        (layer_adaptation_new_update re_search K_epsilon self param_names
           old_update)
  | extend_with_piecewise_linear_lr base =>
      installed_hook base self param_names
        (piecewise_linear_lr_new_update self param_names old_update)
  | _ => old_update
  end.

(** The value each transform makes of a proposed value [nx] for a
    parameter [p] that holds [old] at step [t]. *)
Definition weight_decay_value self p (nx old : tensor) : tensor :=
  if _do_weight_decay re_search self (Param p)
  then (nx - t_const (learning_rate self) * t_const (weight_decay_rate self)
             * old)%T
  else nx.

Definition layer_adaptation_value self p (nx old : tensor) : tensor :=
  if _do_layer_adaptation re_search self (Param p)
  then
    let dx := (nx - old)%T in
    let x_norm := t_norm old in
    let g_norm := t_norm (dx / t_const (learning_rate self))%T in
    let ratio :=
      if t_gt x_norm (t_const 0)
      then if t_gt g_norm (t_const K_epsilon)
           then (x_norm / g_norm)%T else t_const 1
      else t_const 1 in
    (old + dx * ratio)%T
  else nx.

Definition piecewise_linear_lr_value self (nx old : tensor) (t : Z) : tensor :=
  (old + (nx - old) * t_const (piecewise_linear t (lr_schedule self)))%T.

(** The value the whole stack makes of it: the transform nearest to Adam
    is applied first, the outermost last. *)
Fixpoint stack_value (cls : optimizer) self p (nx old : tensor) (t : Z)
    : tensor :=
  match cls with
  | extend_with_weight_decay base =>
      weight_decay_value self p (stack_value base self p nx old t) old
  | extend_with_layer_adaptation base =>
      layer_adaptation_value self p (stack_value base self p nx old t) old
  | extend_with_piecewise_linear_lr base =>
      piecewise_linear_lr_value self (stack_value base self p nx old t) old t
  | _ => nx
  end.

Lemma weight_decay_rewrites_over self (params : list string) old_update T :
  rewrites_params params old_update T →
  rewrites_params params
    (weight_decay_new_update re_search self (Param <$> params) old_update)
    (λ p nx old t, T p (weight_decay_value self p nx old) old t).
Proof.
  intros [Hs Hp]. split.
  - intros p s new_x. unfold weight_decay_new_update.
    rewrite Slot_not_param. apply Hs.
  - intros p f rt Hin. unfold weight_decay_new_update, weight_decay_value.
    rewrite (Param_in_params _ _ Hin). cbn [andb].
    destruct (_do_weight_decay re_search self (Param p)); [| by apply Hp].
    exact (Hp p (λ rt, (f rt - t_const (learning_rate self)
                               * t_const (weight_decay_rate self)
                               * vars rt !!! Param p)%T) rt Hin).
Qed.

Lemma layer_adaptation_rewrites_over self (params : list string) old_update T :
  rewrites_params params old_update T →
  rewrites_params params
    (layer_adaptation_new_update re_search K_epsilon self (Param <$> params)
       old_update)
    (λ p nx old t, T p (layer_adaptation_value self p nx old) old t).
Proof.
  intros [Hs Hp]. split.
  - intros p s new_x. unfold layer_adaptation_new_update.
    rewrite Slot_not_param. apply Hs.
  - intros p f rt Hin.
    unfold layer_adaptation_new_update, layer_adaptation_value.
    rewrite (Param_in_params _ _ Hin). cbn [andb].
    destruct (_do_layer_adaptation re_search self (Param p)); [| by apply Hp].
    exact (Hp p (λ rt,
                   let old := vars rt !!! Param p in
                   let dx := (f rt - old)%T in
                   let x_norm := t_norm old in
                   let g_norm := t_norm (dx / t_const (learning_rate self))%T in
                   (old + dx * (if t_gt x_norm (t_const 0)
                                then if t_gt g_norm (t_const K_epsilon)
                                     then (x_norm / g_norm)%T else t_const 1
                                else t_const 1))%T) rt Hin).
Qed.

Lemma piecewise_linear_lr_rewrites_over self (params : list string)
    old_update T :
  rewrites_params params old_update T →
  rewrites_params params
    (piecewise_linear_lr_new_update self (Param <$> params) old_update)
    (λ p nx old t, T p (piecewise_linear_lr_value self nx old t) old t).
Proof.
  intros [Hs Hp]. split.
  - intros p s new_x. unfold piecewise_linear_lr_new_update.
    rewrite Slot_not_param. apply Hs.
  - intros p f rt Hin.
    unfold piecewise_linear_lr_new_update, piecewise_linear_lr_value.
    rewrite (Param_in_params _ _ Hin).
    exact (Hp p (λ rt, (vars rt !!! Param p
                        + (f rt - vars rt !!! Param p)
                          * t_const (piecewise_linear (iterations rt)
                                       (lr_schedule self)))%T) rt Hin).
Qed.

Lemma installed_hook_rewrites cls self (params : list string) old_update T :
  rewrites_params params old_update T →
  rewrites_params params
    (installed_hook cls self (Param <$> params) old_update)
    (λ p nx old t, T p (stack_value cls self p nx old t) old t).
Proof.
  revert old_update T.
  induction cls as [|cls IH|cls IH|cls IH| | | |];
    intros old_update T Hold; cbn [installed_hook stack_value]; try done.
  - apply (IH _ _ (weight_decay_rewrites_over self params _ _ Hold)).
  - apply (IH _ _ (layer_adaptation_rewrites_over self params _ _ Hold)).
  - apply (IH _ _ (piecewise_linear_lr_rewrites_over self params _ _ Hold)).
Qed.

(** The methods a stack inherits from Adam. *)
Lemma hook_stack_methods cls0 self :
  hook_stack cls0 = true →
  (∀ gr q i, _resource_apply_op cls0 self gr q i
             = Adam__resource_apply_op self gr q (mjoin i)) ∧
  (∀ l, _create_slots cls0 l = Adam__create_slots l) ∧
  (∀ loss params,
     get_gradients cls0 self loss params = Optimizer_get_gradients loss params).
Proof.
  induction cls0; cbn [hook_stack]; intros H; try done; auto.
Qed.

Lemma hook_stack_get_updates J cls cls0 self loss (G : string → grad)
    (params : list string) bs :
  slot_invariant J →
  hook_stack cls = true → hook_stack cls0 = true →
  (∀ q, q ∈ params → loss q = Some (G q)) →
  J bs →
  succeeds (get_updates re_search K_epsilon cls cls0 self loss params) bs
    (λ updates bs',
       updates
       = run_all ((λ q, Adam_apply
                          (installed_hook cls self (Param <$> params)
                             (K_update bs)) self (G q) q) <$> params)
       ∧ K_update bs' = K_update bs ∧ J bs').
Proof.
  intros HJ Hcls Hcls0 Hloss.
  destruct (hook_stack_methods cls0 self Hcls0) as (Hop & Hslots & Hgrads).
  revert bs.
  induction cls as [|cls IH|cls IH|cls IH| | | |]; intros bs Hinit;
    cbn [hook_stack] in Hcls; try done;
    cbn [get_updates installed_hook].
  - eapply succeeds_wand;
      [exact (Optimizer_get_updates_Adam J cls0 self loss G params bs HJ Hop
                Hslots (Hgrads loss params) Hloss Hinit) |].
    intros updates bs' (-> & (HK & _) & HJ' & _). done.
  - apply succeeds_bind. eexists _, _. split; [reflexivity |]. cbn beta.
    apply succeeds_bind. eexists _, _. split; [reflexivity |]. cbn beta.
    apply succeeds_bind.
    eapply succeeds_wand;
      [apply (IH Hcls (with_K_update _ bs));
       by apply (slot_invariant_vars J HJ bs) |].
    intros updates bs1 (-> & HK1 & HJ1). cbn beta.
    eexists _, _. split; [reflexivity |].
    split; [done |]. split; [done |].
    by apply (slot_invariant_vars J HJ bs1).
  - apply succeeds_bind. eexists _, _. split; [reflexivity |]. cbn beta.
    apply succeeds_bind. eexists _, _. split; [reflexivity |]. cbn beta.
    apply succeeds_bind.
    eapply succeeds_wand;
      [apply (IH Hcls (with_K_update _ bs));
       by apply (slot_invariant_vars J HJ bs) |].
    intros updates bs1 (-> & HK1 & HJ1). cbn beta.
    eexists _, _. split; [reflexivity |].
    split; [done |]. split; [done |].
    by apply (slot_invariant_vars J HJ bs1).
  - apply succeeds_bind. eexists _, _. split; [reflexivity |]. cbn beta.
    apply succeeds_bind. eexists _, _. split; [reflexivity |]. cbn beta.
    apply succeeds_bind.
    eapply succeeds_wand;
      [apply (IH Hcls (with_K_update _ bs));
       by apply (slot_invariant_vars J HJ bs) |].
    intros updates bs1 (-> & HK1 & HJ1). cbn beta.
    eexists _, _. split; [reflexivity |].
    split; [done |]. split; [done |].
    by apply (slot_invariant_vars J HJ bs1).
Qed.

(** X1.  For every stack of weight decay, layer adaptation and piecewise
    linear rate over Adam, and every loss with a gradient (dense or
    sparse) for each parameter, [get_updates] returns the ops of Adam
    built with the composition of the [new_update] functions of the stack
    installed as [K.update]: each class wraps the function it finds, so
    the [new_update] of the class nearest to Adam is the one Adam calls,
    and it calls the next one outwards.  On return [K.update] is the
    function found at the call. *)
Theorem hook_stack_get_updates_composes cls self loss (G : string → grad)
    (params : list string) bs :
  hook_stack cls = true →
  (∀ q, q ∈ params → loss q = Some (G q)) →
  ∃ bs',
    get_updates re_search K_epsilon cls cls self loss params bs
    = (Ok (run_all ((λ q, Adam_apply
                            (installed_hook cls self (Param <$> params)
                               (K_update bs)) self (G q) q) <$> params)),
       bs') ∧
    K_update bs' = K_update bs.
Proof.
  intros Hcls Hloss.
  destruct (hook_stack_get_updates (λ _, True) cls cls self loss G params bs
              slot_invariant_True Hcls Hcls Hloss I)
    as (updates & bs' & E & -> & HK & _).
  by exists bs'.
Qed.

(** X2.  One training step of such a stack, for distinct parameters with
    dense gradients: the moments [m] and [v] are committed as Adam
    computes them, whatever the stack (no transform of the stack touches
    a write to a slot), and the parameter is committed as the value Adam
    proposes, rewritten by each transform in turn from the one nearest to
    Adam to the outermost, each using the value of the parameter before
    the step. *)
Theorem hook_stack_step cls self loss (g : string → Z → tensor)
    (params : list string) bs :
  hook_stack cls = true →
  K_update bs = K_update_default →
  NoDup params →
  (∀ q, q ∈ params → loss q = Some (Dense (feed (g q)))) →
  ∃ updates bs',
    get_updates re_search K_epsilon cls cls self loss params bs
    = (Ok updates, bs') ∧
    ∀ rt p, p ∈ params →
      let m' := adam_m self (vars rt !!! Slot p "m") (g p (iterations rt)) in
      let v' := adam_v self (vars rt !!! Slot p "v") (g p (iterations rt)) in
      let x := vars rt !!! Param p in
      iterations (exec updates rt) = iterations rt ∧
      vars (exec updates rt) !!! Slot p "m" = m' ∧
      vars (exec updates rt) !!! Slot p "v" = v' ∧
      vars (exec updates rt) !!! Param p
      = stack_value cls self p (adam_var self x m' v') x (iterations rt).
Proof.
  intros Hcls HK Hnd Hloss.
  destruct (hook_stack_get_updates (λ _, True) cls cls self loss
              (λ q, Dense (feed (g q))) params bs
              slot_invariant_True Hcls Hcls Hloss I)
    as (updates & bs' & E & -> & _ & _).
  eexists _, bs'. split; [exact E |].
  intros rt p Hp. rewrite HK.
  exact (Adam_updates_run params _ _ self g rt p
           (installed_hook_rewrites cls self params _ _
              (K_update_default_rewrites params)) Hnd Hp).
Qed.

(** ** Slot-based lookahead over slot-based gradient accumulation *)

(** Creating the slots of a class never fails. *)
Lemma _create_slots_returns cls (var_list : list string) bs :
  ∃ bs', _create_slots cls var_list bs = (Ok (), bs').
Proof.
  revert bs. induction cls as [| | | | | | |cls IH]; intros bs;
    cbn [_create_slots]; try done.
  - destruct (Adam__create_slots_spec (λ _, True) var_list bs
                slot_invariant_True I) as ([] & bs' & E & _).
    by exists bs'.
  - destruct (IH bs) as (bs1 & E1). rewrite (bind_Ok _ _ _ _ _ E1).
    destruct (succeeds_mapM_ext (λ var, add_slot var "slow_var") (λ _, True)
                (λ _ _, True) var_list bs1 I)
      as (us & bs2 & E2 & _).
    { intros q bs0 _. eapply succeeds_wand; [apply add_slot_spec |].
      by intros _ bs0' [He _]. }
    { done. }
    rewrite (bind_Ok _ _ _ _ _ E2). by exists bs2.
Qed.

(** X3.  The slot-based lookahead cannot be put over the slot-based
    gradient accumulation.  Its [_resource_apply_op] passes [indices] on
    to the base class ([None] when the gradient is dense), and the
    [_resource_apply_op] of the gradient accumulation takes no such
    argument: the call raises [TypeError], for every base class below the
    two, and [get_updates] raises it as soon as there is one parameter. *)
Theorem lookahead_v2_over_gradient_accumulation_v2_raises self loss
    (G : string → grad) p (params : list string) bs :
  let GA := extend_with_gradient_accumulation_v2 in
  let cls0 := extend_with_lookahead_v2 (GA Adam) in
  _first_get_gradients bs = true →
  (∀ q, q ∈ p :: params → loss q = Some (G q)) →
  (∀ base gradient var indices bs0,
     _resource_apply_op (extend_with_lookahead_v2 (GA base)) self gradient var
       indices bs0
     = (Raise TypeError, bs0)) ∧
  ∃ bs',
    get_updates re_search K_epsilon cls0 cls0 self loss (p :: params) bs
    = (Raise TypeError, bs').
Proof.
  intros GA cls0 Hfirst Hloss. split; [done |].
  subst cls0 GA. cbn [get_updates].
  change (get_gradients (extend_with_lookahead_v2 ?b) self loss ?ps)
    with (get_gradients b self loss ps).
  destruct (gradient_accumulation_v2_get_gradients_first (λ _, True) self loss
              G (p :: params) bs slot_invariant_True I Hfirst Hloss)
    as (grads & bs2 & E2 & -> & _ & _ & Hf2 & Hag2).
  rewrite (bind_Ok _ _ _ _ _ E2).
  rewrite (bind_Ok _ _ _ _ _ (eq_refl : set_instant_grads _ _ _ = (Ok (), _))).
  set (bs3 := BuildState _ _ _ _ (foldl _ _ _)).
  unfold Optimizer_get_updates.
  change (get_gradients (extend_with_lookahead_v2 ?b) self loss ?ps)
    with (get_gradients b self loss ps).
  rewrite (bind_Ok _ _ _ _ _
             (gradient_accumulation_v2_get_gradients_second self loss
                (p :: params) bs3 Hf2 Hag2)).
  destruct (_create_slots_returns
              (extend_with_lookahead_v2
                 (extend_with_gradient_accumulation_v2 Adam))
              (p :: params) bs3) as (bs4 & E4).
  rewrite (bind_Ok _ _ _ _ _ E4).
  exists bs4. apply bind_Raise. reflexivity.
Qed.

(** ** The classic gradient accumulation: what its ops write *)

(** Under the gating hook, at any step, the op Adam builds writes to the
    parameter and to its moments only. *)
Lemma Adam_op_gated_frame self (ag : var) p rt y :
  let N := steps_per_update self in
  let op :=
    Adam_op (gradient_accumulation_new_update (iterations_mod_is_zero N)
               K_update_default)
      self (accumulated_gradient self ag) p None in
  y ≠ Param p → y ≠ Slot p "m" → y ≠ Slot p "v" →
  iterations (exec op rt) = iterations rt ∧
  vars (exec op rt) !!! y = vars rt !!! y.
Proof.
  intros N op Hp Hm Hv. subst op.
  unfold Adam_op, accumulated_gradient, gradient_accumulation_new_update.
  run_ops. split; [done |]. by lookups.
Qed.

Lemma run_all_gated_frame self (gps : list (var * string)) rt s i :
  let N := steps_per_update self in
  let updates :=
    run_all ((λ gp : var * string,
                Adam_op (gradient_accumulation_new_update
                           (iterations_mod_is_zero N) K_update_default)
                  self (accumulated_gradient self gp.1) gp.2 None) <$> gps) in
  iterations (exec updates rt) = iterations rt ∧
  vars (exec updates rt) !!! Buffer s i = vars rt !!! Buffer s i.
Proof.
  intros N. cbn zeta. revert rt.
  induction gps as [|[ag p] gps IH]; intros rt; [done |].
  rewrite fmap_cons, (exec_run_all_cons (A := tensor)). cbn [fst snd].
  destruct (Adam_op_gated_frame self ag p rt (Buffer s i)) as [Hit Hvars];
    [done .. |].
  fold N in Hit, Hvars.
  destruct (IH (exec (Adam_op (gradient_accumulation_new_update
                                 (iterations_mod_is_zero N) K_update_default)
                        self (accumulated_gradient self ag) p None) rt))
    as [Hit' Hvars'].
  split; [by rewrite Hit' | by rewrite Hvars'].
Qed.

(** X4.  The ops the classic gradient accumulation over Adam returns from
    [get_updates] never write to a buffer: [get_updates] builds the ops
    that accumulate the gradients and returns [self.updates], the list of
    the base class, which does not hold them.  So after any number of
    training steps every accumulator [accum_grad_i] holds what it held
    before, and the gradient Adam receives on an update step,
    [accum_grad_i / steps_per_update], is never the gradient of the
    loss. *)
Theorem gradient_accumulation_never_accumulates self loss
    (g : string → Z → tensor) (params : list string) bs :
  let GA := extend_with_gradient_accumulation Adam in
  K_update bs = K_update_default →
  _first_get_gradients bs = true →
  (∀ p, p ∈ params → loss p = Some (Dense (feed (g p)))) →
  ∃ updates bs',
    get_updates re_search K_epsilon GA GA self loss params bs
    = (Ok updates, bs') ∧
    ∀ (n : nat) rt s i,
      vars (train updates n rt) !!! Buffer s i = vars rt !!! Buffer s i.
Proof.
  intros GA HK Hfirst Hloss.
  destruct (gradient_accumulation_get_updates self loss
              (λ p, Dense (feed (g p))) params bs Hfirst Hloss)
    as (updates & bs' & E & _ & gps & ->).
  rewrite HK in E. eexists _, bs'. split; [exact E |].
  intros n. induction n as [|n IH]; intros rt s i; [done |].
  cbn [train]. rewrite IH.
  change (vars (train_step ?u rt)) with (vars (exec u rt)).
  by apply (run_all_gated_frame self gps rt s i).
Qed.

(** ** [_resource_apply_op] and the state of the build *)

(** X5.  For every stack of classes, a call of [_resource_apply_op] that
    returns leaves [K.update], the variables and the attributes of the
    optimizer exactly as it found them: the slot-based gradient
    accumulation puts back the function it replaced, and no class creates
    a variable or sets an attribute there. *)
Theorem _resource_apply_op_leaves_state cls self (gradient : Tensor) var
    indices bs op bs' :
  _resource_apply_op cls self gradient var indices bs = (Ok op, bs') →
  bs' = bs.
Proof. apply pure_call__resource_apply_op. Qed.

(** X6.  When the call of the base class raises inside the
    [_resource_apply_op] of the slot-based gradient accumulation, the
    exception leaves the method before [K.update] is put back.  Over
    Adam, for a variable without the slot [m] or [v], the call raises
    [KeyError] and the gating [new_update] stays installed. *)
Theorem gradient_accumulation_v2_hook_left_on_failure base self
    (gradient : Tensor) p bs :
  let cond := iterations_mod_is_zero (steps_per_update self) in
  let hooked :=
    with_K_update (gradient_accumulation_new_update cond (K_update bs)) bs in
  (∀ e bs',
     _resource_apply_op base self gradient p None hooked = (Raise e, bs') →
     _resource_apply_op (extend_with_gradient_accumulation_v2 base) self
       gradient p None bs
     = (Raise e, bs')) ∧
  (variables bs !! Slot p "m" = None ∨ variables bs !! Slot p "v" = None →
   _resource_apply_op (extend_with_gradient_accumulation_v2 Adam) self
     gradient p None bs
   = (Raise KeyError, hooked)).
Proof.
  intros cond hooked.
  assert (Hraise : ∀ b e bs',
    _resource_apply_op b self gradient p None hooked = (Raise e, bs') →
    _resource_apply_op (extend_with_gradient_accumulation_v2 b) self
      gradient p None bs
    = (Raise e, bs')).
  { intros b e bs' E. cbn [_resource_apply_op].
    rewrite (bind_Ok _ _ _ _ _ (eq_refl : get_K_update bs = (Ok _, bs))).
    rewrite (bind_Ok _ _ _ _ _ (eq_refl : set_K_update _ bs = (Ok _, hooked))).
    by apply bind_Raise. }
  split; [apply Hraise |].
  intros Hnone. apply Hraise. cbn [_resource_apply_op mjoin option_join].
  unfold Adam__resource_apply_op.
  assert (Hmiss : ∀ s, variables bs !! Slot p s = None →
            get_slot p s hooked = (Raise KeyError, hooked)).
  { intros s Hs. unfold get_slot. cbn [hooked variables with_K_update].
    by rewrite Hs. }
  destruct (variables bs !! Slot p "m") as [m|] eqn:Hm.
  - destruct Hnone as [? | Hv]; [done |].
    rewrite (bind_Ok _ _ _ _ _
               (get_slot_ok p "m" hooked (mk_is_Some _ _ Hm))).
    apply bind_Raise, Hmiss, Hv.
  - apply bind_Raise, Hmiss, Hm.
Qed.

(** ** The first step of the slot-based lookahead *)

(** X7.  The slow variable of the slot-based lookahead starts at zeros,
    not at the value of the parameter, and the first training step, at
    [iterations = 0], is a synchronising one whatever
    [steps_per_slow_update] is.  So, over Adam and from a build in which
    no slot existed, the first step commits to every parameter and to its
    slow variable [zeros + alpha * (read - zeros)]: the parameter is
    pulled towards zero.  [read] is the value of the parameter that
    [slow_var_t] (l.450) meets: the value before the step when the read
    runs before the op of Adam, the value Adam's first update gives when
    it runs after. *)
Theorem lookahead_first_step_blends_with_zeros self loss
    (g : string → Z → tensor) (params : list string) bs :
  let LA2 := extend_with_lookahead_v2 Adam in
  K_update bs = K_update_default →
  NoDup params →
  (∀ p, p ∈ params → loss p = Some (Dense (feed (g p)))) →
  (∀ p s, variables bs !! Slot p s = None) →
  ∃ updates bs',
    get_updates re_search K_epsilon LA2 LA2 self loss params bs
    = (Ok updates, bs') ∧
    ∀ p, p ∈ params →
      let p0 := variables bs !!! Param p in
      let zeros := t_zeros_like p0 in
      let fast :=
        adam_var self p0 (adam_m self zeros (g p 0)) (adam_v self zeros (g p 0)) in
      let read := if reads_first p 0 then p0 else fast in
      let rt' := train_step updates (Runtime (variables bs') 0) in
      vars rt' !!! Slot p "slow_var" = lookahead_slow self zeros read ∧
      vars rt' !!! Param p = lookahead_slow self zeros read.
Proof.
  intros LA2 HK Hnd Hloss Hfresh.
  assert (init_ok (variables bs) bs) as Hinit.
  { split; [done |]. intros p s v Hv. by rewrite Hfresh in Hv. }
  destruct (lookahead_v2_Adam_get_updates (init_ok (variables bs)) self loss g
              params bs (slot_invariant_init_ok _) Hinit Hloss)
    as (bs2 & E2 & _ & [HP2 HS2] & Hslots).
  rewrite HK in E2.
  eexists _, bs2. split; [exact E2 |].
  intros p Hp. cbn zeta.
  destruct (Hslots p Hp) as ([m Hm] & [v Hv] & [sl Hsl]).
  pose proof (HS2 _ _ _ Hm) as ->. pose proof (HS2 _ _ _ Hv) as ->.
  pose proof (HS2 _ _ _ Hsl) as ->.
  destruct (lookahead_v2_Adam_step self g params (Runtime (variables bs2) 0)
              p Hnd Hp) as (_ & _ & _ & Hs & Hx).
  change (vars (train_step ?u ?rt)) with (vars (exec u rt)).
  rewrite Hs, Hx. cbn [vars iterations].
  by rewrite !lookup_total_alt, HP2, Hm, Hv, Hsl.
Qed.

(** ** One step of the slot-based lookahead over Adam *)

(** X14.  Over Adam, with the plain [K.update] installed, distinct
    parameters and dense gradients, [get_updates] of the slot-based
    lookahead returns, and one training step from any state does this to
    every parameter: the moments take Adam's new values; on a step whose
    number is a multiple of [k] the slow variable becomes
    [slow + alpha * (read - slow)] and the parameter takes that same
    value; on every other step the slow variable stays and the parameter
    holds Adam's new value [fast].  [read] is what [slow_var_t] (l.450)
    meets, the parameter before Adam's write or [fast]: the expression is
    built outside the block that depends on the op of Adam (l.452). *)
Theorem lookahead_v2_step_over_Adam self loss (g : string → Z → tensor)
    (params : list string) bs :
  let LA2 := extend_with_lookahead_v2 Adam in
  K_update bs = K_update_default →
  NoDup params →
  (∀ p, p ∈ params → loss p = Some (Dense (feed (g p)))) →
  ∃ updates bs',
    get_updates re_search K_epsilon LA2 LA2 self loss params bs
    = (Ok updates, bs') ∧
    ∀ rt p, p ∈ params →
      let k := steps_per_slow_update self in
      let t := iterations rt in
      let x := vars rt !!! Param p in
      let m' := adam_m self (vars rt !!! Slot p "m") (g p t) in
      let v' := adam_v self (vars rt !!! Slot p "v") (g p t) in
      let fast := adam_var self x m' v' in
      let slow := vars rt !!! Slot p "slow_var" in
      let read := if reads_first p t then x else fast in
      let rt' := train_step updates rt in
      iterations rt' = t + 1 ∧
      vars rt' !!! Slot p "m" = m' ∧
      vars rt' !!! Slot p "v" = v' ∧
      (t `mod` k = 0 →
       vars rt' !!! Slot p "slow_var" = lookahead_slow self slow read ∧
       vars rt' !!! Param p = lookahead_slow self slow read) ∧
      (t `mod` k ≠ 0 →
       vars rt' !!! Slot p "slow_var" = slow ∧ vars rt' !!! Param p = fast).
Proof.
  intros LA2 HK Hnd Hloss.
  destruct (lookahead_v2_Adam_get_updates (λ _, True) self loss g params bs
              slot_invariant_True I Hloss) as (bs2 & E2 & _).
  rewrite HK in E2.
  eexists _, bs2. split; [exact E2 |].
  intros rt p Hp. cbn zeta.
  destruct (lookahead_v2_Adam_step self g params rt p Hnd Hp)
    as (Hit & Hm & Hv & Hs & Hx).
  change (vars (train_step ?u rt)) with (vars (exec u rt)).
  split; [unfold train_step; cbn [iterations]; by rewrite Hit |].
  split; [exact Hm |]. split; [exact Hv |].
  rewrite Hs, Hx. split; intros Hk.
  - by rewrite bool_decide_eq_true_2.
  - by rewrite bool_decide_eq_false_2.
Qed.

(** ** The classic lookahead over any base class *)


(** ** The slots Adam creates *)

Lemma add_slot_full p s bs :
  ∃ bs',
    add_slot p s bs = (Ok (), bs') ∧ ext bs bs' ∧
    variables bs' !! Slot p s
    = Some (default (t_zeros_like (variables bs !!! Param p))
              (variables bs !! Slot p s)) ∧
    ∀ y, y ≠ Slot p s → variables bs' !! y = variables bs !! y.
Proof.
  unfold add_slot. destruct (variables bs !! Slot p s) as [v|] eqn:E.
  - exists bs. split; [done |]. split; [apply ext_refl |]. by rewrite E.
  - eexists. split; [reflexivity |]. split; [| split].
    + repeat split. cbn. by apply insert_subseteq.
    + cbn. by rewrite lookup_insert_eq.
    + intros y Hy. cbn. by rewrite lookup_insert_ne.
Qed.

Lemma Adam__create_slots_loop (var_list : list string) bs :
  ∃ bs',
    mapM (λ var, _ ← add_slot var "m"; add_slot var "v") var_list bs
    = (Ok ((λ _, ()) <$> var_list), bs') ∧
    ext bs bs' ∧
    (∀ y, (∀ p, p ∈ var_list → y ≠ Slot p "m" ∧ y ≠ Slot p "v") →
          variables bs' !! y = variables bs !! y) ∧
    ∀ p s, p ∈ var_list → s = "m" ∨ s = "v" →
      variables bs' !! Slot p s
      = Some (default (t_zeros_like (variables bs !!! Param p))
                (variables bs !! Slot p s)).
Proof.
  revert bs. induction var_list as [|q l IH]; intros bs.
  - exists bs. split; [done |]. split; [apply ext_refl |]. split; [done |].
    intros p s Hp. by apply elem_of_nil in Hp.
  - destruct (add_slot_full q "m" bs) as (bs1 & E1 & Hext1 & Hm1 & Hfr1).
    destruct (add_slot_full q "v" bs1) as (bs2 & E2 & Hext2 & Hv2 & Hfr2).
    destruct (IH bs2) as (bs' & E & Hext & Hfr & Hval).
    assert (Hq : ∀ s, s = "m" ∨ s = "v" →
              variables bs2 !! Slot q s
              = Some (default (t_zeros_like (variables bs !!! Param q))
                        (variables bs !! Slot q s))).
    { intros s [-> | ->].
      - by rewrite Hfr2, Hm1.
      - rewrite Hv2, !lookup_total_alt, !Hfr1; done. }
    assert (Hother : ∀ y, y ≠ Slot q "m" → y ≠ Slot q "v" →
              variables bs2 !! y = variables bs !! y).
    { intros y Hy1 Hy2. by rewrite Hfr2, Hfr1. }
    exists bs'. split; [| split; [| split]].
    + cbn [mapM fmap list_fmap].
      rewrite (bind_Ok _ _ bs () bs2)
        by by rewrite (bind_Ok _ _ _ _ _ E1).
      by rewrite (bind_Ok _ _ _ _ _ E).
    + eapply ext_trans; [| exact Hext].
      eapply ext_trans; [exact Hext1 | exact Hext2].
    + intros y Hy. rewrite Hfr.
      * destruct (Hy q ltac:(left)). by apply Hother.
      * intros p Hp. apply Hy. by right.
    + intros p s Hp Hs.
      destruct (decide (p = q)) as [-> | Hne].
      * apply (ext_lookup _ _ _ _ Hext). by apply Hq.
      * apply elem_of_cons in Hp as [? | Hp]; [done |].
        rewrite (Hval p s Hp Hs).
        rewrite !lookup_total_alt, !Hother; [done | | | |];
          by destruct Hs as [-> | ->]; intros [=].
Qed.

(** X8.  [Adam._create_slots] never fails.  For every variable of the
    list it leaves the slots [m] and [v] in place: a slot that existed
    keeps its value, a slot that did not is created with zeros of the
    shape of the variable.  It changes nothing else, neither a variable
    nor [K.update] nor an attribute, and a second call changes
    nothing. *)
Theorem Adam__create_slots_creates (var_list : list string) bs :
  ∃ bs',
    Adam__create_slots var_list bs = (Ok (), bs') ∧
    K_update bs' = K_update bs ∧
    _first_get_gradients bs' = _first_get_gradients bs ∧
    accum_grads bs' = accum_grads bs ∧
    instant_grads bs' = instant_grads bs ∧
    (∀ y, (∀ p, p ∈ var_list → y ≠ Slot p "m" ∧ y ≠ Slot p "v") →
          variables bs' !! y = variables bs !! y) ∧
    (∀ p s, p ∈ var_list → s = "m" ∨ s = "v" →
       variables bs' !! Slot p s
       = Some (default (t_zeros_like (variables bs !!! Param p))
                 (variables bs !! Slot p s))) ∧
    Adam__create_slots var_list bs' = (Ok (), bs').
Proof.
  destruct (Adam__create_slots_loop var_list bs)
    as (bs' & E & (HK & Hf & Ha & Hi & _) & Hfr & Hval).
  exists bs'. unfold Adam__create_slots.
  rewrite (bind_Ok _ _ _ _ _ E).
  do 7 (split; [done |]).
  rewrite (bind_Ok _ _ bs' ((λ _, ()) <$> var_list) bs'); [done |].
  apply mapM_pure. intros p Hp.
  rewrite (bind_Ok _ _ bs' () bs').
  - unfold add_slot. by rewrite (Hval p "v" Hp (or_intror eq_refl)).
  - unfold add_slot. by rewrite (Hval p "m" Hp (or_introl eq_refl)).
Qed.

(** ** A sparse gradient under the slot-based gradient accumulation *)

(** X9.  The slot-based gradient accumulation takes a gradient of the
    loss given as rows [u] at indices [idx]: with the slots of the
    parameter in place, [_resource_apply_op] returns an op that turns the
    rows into a dense tensor of the shape of the accumulator (the rows
    scatter-added into zeros, plus zeros) and accumulates it like a dense
    gradient: it replaces the accumulator on a step with
    [iterations mod N = 0] and is added to it on any other step.  The
    gradient Adam receives is the dense [ag / N] in both cases. *)
Theorem gradient_accumulation_v2_sparse_gradient self (u : Z → tensor)
    (idx : Z → list nat) p bs :
  let N := steps_per_update self in
  let GA := extend_with_gradient_accumulation_v2 Adam in
  K_update bs = K_update_default →
  is_Some (variables bs !! Slot p "m") →
  is_Some (variables bs !! Slot p "v") →
  is_Some (variables bs !! Slot p "ag") →
  instant_grads bs !! p = Some (IndexedSlices (feed u) (feed idx)) →
  ∃ op : Tensor,
    _resource_apply_dense GA self (accumulated_gradient self (Slot p "ag")) p bs
    = (Ok op, bs) ∧
    ∀ rt,
      let t := iterations rt in
      let ag := vars rt !!! Slot p "ag" in
      let zeros := t_zeros_like ag in
      let g_t := (t_scatter_add zeros (idx t) (u t) + zeros)%T in
      let G := (ag / t_const (inject_Z N))%T in
      let m := vars rt !!! Slot p "m" in
      let v := vars rt !!! Slot p "v" in
      let x := vars rt !!! Param p in
      iterations (exec op rt) = t ∧
      (t `mod` N = 0 →
       vars (exec op rt) !!! Slot p "ag" = g_t ∧
       vars (exec op rt) !!! Param p
       = adam_var self x (adam_m self m G) (adam_v self v G)) ∧
      (t `mod` N ≠ 0 →
       vars (exec op rt) !!! Slot p "ag" = (ag + g_t)%T ∧
       vars (exec op rt) !!! Param p = x).
Proof.
  intros N GA HK Hm Hv Hag Hg. eexists. split.
  { unfold _resource_apply_dense.
    by apply (gradient_accumulation_v2_apply_op self _ p
                (IndexedSlices (feed u) (feed idx)) bs). }
  intros rt. cbn zeta. rewrite HK.
  unfold gradient_accumulation_v2_op, Adam_op, accumulated_gradient,
    gradient_accumulation_new_update.
  run_ops. fold N. split; [done |]. split.
  - intros Hc. rewrite !bool_decide_eq_true_2 by done. by lookups.
  - intros Hc. rewrite !bool_decide_eq_false_2 by done. by lookups.
Qed.

(** ** The exclude patterns *)

(** X10.  [_do_weight_decay] and [_do_layer_adaptation] answer [False]
    exactly when some pattern of the exclude list is found in the name of
    the variable, wherever the pattern stands in the list and whatever
    the other patterns are; so with an empty list they answer [True] for
    every variable, and a longer list never turns a [False] into a
    [True]. *)
Theorem exclude_patterns_decide self (w : var) :
  (_do_weight_decay re_search self w = false
   ↔ ∃ n, n ∈ exclude_from_weight_decay self ∧ re_search n (name w) = true) ∧
  (_do_layer_adaptation re_search self w = false
   ↔ ∃ n, n ∈ exclude_from_layer_adaptation self
          ∧ re_search n (name w) = true) ∧
  (∀ w', no_pattern_matches re_search [] w' = true) ∧
  (∀ patterns more,
     no_pattern_matches re_search patterns w = false →
     no_pattern_matches re_search (more ++ patterns) w = false ∧
     no_pattern_matches re_search (patterns ++ more) w = false).
Proof.
  split; [apply no_pattern_matches_false |].
  split; [apply no_pattern_matches_false |].
  split; [done |].
  intros patterns more (n & Hn & E)%no_pattern_matches_false.
  split; apply no_pattern_matches_false; exists n;
    (split; [| done]); apply elem_of_app; auto.
Qed.

(** ** [get_gradients] of the gradient accumulation, call after call *)

(** X11.  [get_gradients] of both variants of gradient accumulation
    returns the gradients of the loss on its first call, and clears
    [_first_get_gradients].  On a call that finds it cleared the loss is
    not looked at.  On a fresh optimizer a second call of the
    classic variant raises [AttributeError], since [accum_grads] is set by
    [get_updates] only; a second call of the slot-based variant returns
    [ag / steps_per_update] for the slot [ag] of each parameter, which the
    first call created, and changes nothing. *)
Theorem gradient_accumulation_get_gradients_calls self loss
    (G : string → grad) (params : list string) bs :
  let GA := extend_with_gradient_accumulation Adam in
  let GA2 := extend_with_gradient_accumulation_v2 Adam in
  _first_get_gradients bs = true →
  accum_grads bs = None →
  (∀ q, q ∈ params → loss q = Some (G q)) →
  (∃ bs1,
     get_gradients GA self loss params bs = (Ok (G <$> params), bs1) ∧
     _first_get_gradients bs1 = false ∧
     ∀ loss', get_gradients GA self loss' params bs1
              = (Raise AttributeError, bs1)) ∧
  (∃ bs2,
     get_gradients GA2 self loss params bs = (Ok (G <$> params), bs2) ∧
     _first_get_gradients bs2 = false ∧
     ∀ loss', get_gradients GA2 self loss' params bs2
              = (Ok ((λ q, Dense (accumulated_gradient self (Slot q "ag")))
                       <$> params), bs2)).
Proof.
  intros GA GA2 Hfirst Hacc Hloss. split.
  - eexists. split; [| split].
    + subst GA. cbn [get_gradients].
      rewrite !(bind_Ok _ _ _ _ _
                  (eq_refl : get_first_get_gradients bs = (Ok _, bs))).
      rewrite Hfirst.
      rewrite !(bind_Ok _ _ _ _ _
                  (eq_refl : set_first_get_gradients false bs = (Ok (), _))).
      apply (Optimizer_get_gradients_ok loss G params _ Hloss).
    + done.
    + intros loss'. subst GA. cbn [get_gradients].
      unfold mbind, B_bind, get_first_get_gradients, get_accum_grads.
      cbn [_first_get_gradients accum_grads]. by rewrite Hacc.
  - destruct (gradient_accumulation_v2_get_gradients_first (λ _, True) self
                loss G params bs slot_invariant_True I Hfirst Hloss)
      as (grads & bs2 & E & -> & _ & _ & Hf2 & Hag2).
    exists bs2. split; [exact E |]. split; [exact Hf2 |].
    intros loss'.
    exact (gradient_accumulation_v2_get_gradients_second self loss' params bs2
             Hf2 Hag2).
Qed.

End properties.

(** * [get_config]

    The configuration is a Python dict from the names of the settings to
    their values.  [keras.optimizers.Optimizer.get_config] is not part of
    the module: its result is a parameter here.
    [_serialize_hyperparameter] gives the value of the hyperparameter. *)

Inductive config_value : Type :=
  | Number (q : Q)
  | Integer (z : Z)
  | Names (l : list string)
  | Schedule (l : list (Z * Q)).

(** [dict(items)]: an item replaces an earlier one with the same key. *)
Definition dict (items : list (string * config_value))
    : gmap string config_value :=
  foldl (λ d kv, <[kv.1 := kv.2]> d) ∅ items.

(** [d.items()], in some order. *)
Definition items (d : gmap string config_value) : list (string * config_value) :=
  map_to_list d.

Section get_config.

Context (Optimizer_get_config : gmap string config_value).

Fixpoint get_config (cls : optimizer) (self : attrs)
    : gmap string config_value :=
  match cls with
  | Adam =>
      let config :=
        dict [("learning_rate", Number (learning_rate self));
              ("beta_1", Number (beta_1 self));
              ("beta_2", Number (beta_2 self));
              ("epsilon", Number (epsilon self))] in
      let base_config := Optimizer_get_config in
      dict (items base_config ++ items config)
  | extend_with_weight_decay base =>
      let config :=
        dict [("weight_decay_rate", Number (weight_decay_rate self));
              ("exclude_from_weight_decay",
               Names (exclude_from_weight_decay self))] in
      let base_config := get_config base self in
      dict (items base_config ++ items config)
  | extend_with_layer_adaptation base =>
      let config :=
        dict [("exclude_from_layer_adaptation",
               Names (exclude_from_layer_adaptation self))] in
      let base_config := get_config base self in
      dict (items base_config ++ items config)
  | extend_with_piecewise_linear_lr base =>
      let config := dict [("lr_schedule", Schedule (lr_schedule self))] in
      let base_config := get_config base self in
      dict (items base_config ++ items config)
  | extend_with_gradient_accumulation base
  | extend_with_gradient_accumulation_v2 base =>
      let config :=
        dict [("steps_per_update", Integer (steps_per_update self))] in
      let base_config := get_config base self in
      dict (items base_config ++ items config)
  | extend_with_lookahead base
  | extend_with_lookahead_v2 base =>
      let config :=
        dict [("steps_per_slow_update", Integer (steps_per_slow_update self));
              ("slow_step_size", Number (slow_step_size self))] in
      let base_config := get_config base self in
      dict (items base_config ++ items config)
  end.

(** The class and the classes it is derived from. *)
Fixpoint classes (cls : optimizer) : list optimizer :=
  cls ::
  match cls with
  | Adam => []
  | extend_with_weight_decay base
  | extend_with_layer_adaptation base
  | extend_with_piecewise_linear_lr base
  | extend_with_gradient_accumulation base
  | extend_with_gradient_accumulation_v2 base
  | extend_with_lookahead base
  | extend_with_lookahead_v2 base => classes base
  end.

(** The settings a class adds to the configuration of its base class. *)
Definition own_config (cls : optimizer) (self : attrs)
    : list (string * config_value) :=
  match cls with
  | Adam =>
      [("learning_rate", Number (learning_rate self));
       ("beta_1", Number (beta_1 self));
       ("beta_2", Number (beta_2 self));
       ("epsilon", Number (epsilon self))]
  | extend_with_weight_decay _ =>
      [("weight_decay_rate", Number (weight_decay_rate self));
       ("exclude_from_weight_decay", Names (exclude_from_weight_decay self))]
  | extend_with_layer_adaptation _ =>
      [("exclude_from_layer_adaptation",
        Names (exclude_from_layer_adaptation self))]
  | extend_with_piecewise_linear_lr _ =>
      [("lr_schedule", Schedule (lr_schedule self))]
  | extend_with_gradient_accumulation _
  | extend_with_gradient_accumulation_v2 _ =>
      [("steps_per_update", Integer (steps_per_update self))]
  | extend_with_lookahead _
  | extend_with_lookahead_v2 _ =>
      [("steps_per_slow_update", Integer (steps_per_slow_update self));
       ("slow_step_size", Number (slow_step_size self))]
  end.

Lemma foldl_insert_union (l : list (string * config_value))
    (d : gmap string config_value) :
  foldl (λ d kv, <[kv.1 := kv.2]> d) d l = dict l ∪ d.
Proof.
  unfold dict. revert d. induction l as [|[k v] l IH]; intros d.
  - cbn. by rewrite (left_id_L ∅ (∪)).
  - cbn [foldl fst snd]. rewrite IH, (IH (<[k:=v]> ∅)).
    rewrite <- (assoc_L (∪)). f_equal.
    by rewrite <- insert_union_l, (left_id_L ∅ (∪)).
Qed.

Lemma dict_items (d : gmap string config_value) : dict (items d) = d.
Proof.
  unfold dict, items.
  induction d as [|k v d Hk Hfold IH] using map_first_key_ind; [done |].
  rewrite map_to_list_insert_first_key by done.
  cbn [foldl fst snd]. rewrite foldl_insert_union.
  fold (dict (map_to_list d)). unfold dict at 1. rewrite IH.
  rewrite <- insert_union_r by done. by rewrite (right_id_L ∅ (∪)).
Qed.

Lemma dict_base_config (base_config config : gmap string config_value) :
  dict (items base_config ++ items config) = config ∪ base_config.
Proof.
  unfold dict. rewrite foldl_app, foldl_insert_union.
  fold (dict (items base_config)). by rewrite !dict_items.
Qed.

Lemma get_config_unfold cls self :
  get_config cls self
  = dict (own_config cls self)
    ∪ match cls with
      | Adam => Optimizer_get_config
      | extend_with_weight_decay base
      | extend_with_layer_adaptation base
      | extend_with_piecewise_linear_lr base
      | extend_with_gradient_accumulation base
      | extend_with_gradient_accumulation_v2 base
      | extend_with_lookahead base
      | extend_with_lookahead_v2 base => get_config base self
      end.
Proof. destruct cls; cbn [get_config]; apply dict_base_config. Qed.

Lemma dict_snoc (l : list (string * config_value)) k v :
  dict (l ++ [(k, v)]) = <[k := v]> (dict l).
Proof. unfold dict. by rewrite foldl_app. Qed.

Lemma dict_lookup_Some (l : list (string * config_value)) k v :
  dict l !! k = Some v → (k, v) ∈ l.
Proof.
  induction l as [|[k' v'] l IH] using rev_ind; [done |].
  rewrite dict_snoc. destruct (decide (k' = k)) as [-> | Hne].
  - rewrite lookup_insert_eq. intros [= ->]. apply elem_of_app. right. left.
  - rewrite lookup_insert_ne by done. intros H. apply elem_of_app. auto.
Qed.

Lemma dict_lookup_None (l : list (string * config_value)) k :
  k ∉ l.*1 → dict l !! k = None.
Proof.
  intros Hk. destruct (dict l !! k) as [v|] eqn:E; [| done].
  destruct Hk. apply dict_lookup_Some in E.
  by apply (list_elem_of_fmap_2 fst) in E.
Qed.

Lemma dict_lookup_is_Some (l : list (string * config_value)) k v :
  (k, v) ∈ l → is_Some (dict l !! k).
Proof.
  induction l as [|[k' v'] l IH] using rev_ind;
    [by intros ?%elem_of_nil |].
  rewrite dict_snoc. intros [H | H]%elem_of_app.
  - destruct (decide (k' = k)) as [-> | Hne].
    + rewrite lookup_insert_eq. by eexists.
    + rewrite lookup_insert_ne by done. auto.
  - apply list_elem_of_singleton in H as [= -> ->].
    rewrite lookup_insert_eq. by eexists.
Qed.

(** A setting has one value, whichever class of the stack gives it: the
    values come from the one instance. *)
Lemma own_config_agree c c' self k v v' :
  (k, v) ∈ own_config c self → (k, v') ∈ own_config c' self → v = v'.
Proof.
  intros H H'.
  destruct c; cbn [own_config] in H;
    repeat (apply elem_of_cons in H as [H | H]);
    try (by apply elem_of_nil in H);
    injection H as -> ->;
    destruct c'; cbn [own_config] in H';
    repeat (apply elem_of_cons in H' as [H' | H']);
    try (by apply elem_of_nil in H');
    by injection H'.
Qed.

(** X12.  For every stack of classes, [get_config] holds every setting
    of every class of the stack under its name, with the value the
    instance holds: no class loses or overwrites with another value a
    setting of a class below it.  A key of the framework's configuration
    that is the name of no setting of the stack is passed through. *)
Theorem get_config_holds_every_setting cls self :
  (∀ c k v, c ∈ classes cls → (k, v) ∈ own_config c self →
            get_config cls self !! k = Some v) ∧
  (∀ k, (∀ c, c ∈ classes cls → k ∉ (own_config c self).*1) →
        get_config cls self !! k = Optimizer_get_config !! k).
Proof.
  assert (Hstep : ∀ c0 (base_config : gmap string config_value) c k v,
            (c = c0 ∨ (c ≠ c0 → base_config !! k = Some v)) →
            (k, v) ∈ own_config c self →
            (dict (own_config c0 self) ∪ base_config) !! k = Some v).
  { intros c0 base_config c k v Hc Hkv.
    destruct (dict (own_config c0 self) !! k) as [v'|] eqn:E.
    - apply lookup_union_Some_l.
      by rewrite (own_config_agree c c0 self k v v' Hkv
                    (dict_lookup_Some _ _ _ E)).
    - rewrite lookup_union_r by done.
      destruct Hc as [-> | Hc].
      + apply dict_lookup_is_Some in Hkv. rewrite E in Hkv.
        by destruct Hkv.
      + apply Hc. intros ->. apply dict_lookup_is_Some in Hkv.
        rewrite E in Hkv. by destruct Hkv. }
  split.
  - induction cls as [|b IH|b IH|b IH|b IH|b IH|b IH|b IH];
      intros c k v Hc Hkv; rewrite get_config_unfold;
      cbn [classes] in Hc; apply elem_of_cons in Hc as [-> | Hc].
    all: try exact (Hstep _ _ _ k v (or_introl eq_refl) Hkv).
    all: try (by apply elem_of_nil in Hc).
    all: apply (Hstep _ _ c k v); [| exact Hkv]; right; intros _;
      exact (IH c k v Hc Hkv).
  - induction cls as [|b IH|b IH|b IH|b IH|b IH|b IH|b IH];
      intros k Hk; rewrite get_config_unfold;
      (rewrite lookup_union_r
         by (apply dict_lookup_None, Hk; cbn [classes]; left)).
    all: try done.
    all: apply IH; intros c Hc; apply Hk; cbn [classes]; by right.
Qed.

End get_config.

(** * Concrete runs on [QBackend] *)

Definition example_self : attrs :=
  Attrs (1 # 10) (1 # 2) (3 # 4) 1 (1 # 100) ["bias"] []
    [(1000%Z, 1%Q); (2000%Z, 1 # 10)] 2 5 (1 # 2).

Definition example_params : gmap var QBackend.tensor :=
  {[ Param "w" := ([1%Q; 2%Q] : QBackend.tensor) ]}.

Definition example_loss (p : string) : option (grad (tensor := QBackend.tensor)) :=
  if decide (p = "w") then Some (Dense (feed (λ _, [2%Q; 2%Q]))) else None.

Definition is_Ok {T A} (r : result A * build_state (tensor := T)) : bool :=
  match r.1 with
  | Ok _ => true
  | Raise _ => false
  end.

(** Two runtimes for the one read of the module that the graph leaves
    unordered: the first evaluates [slow_var_t] of the slot-based lookahead
    after the op of the base class, the second before it.  The runs below
    are on the first one unless they name the other. *)
Definition reads_after_op : Scheduler := λ _ _, false.

Definition reads_before_op : Scheduler := λ _ _, true.

#[global] Existing Instance reads_after_op.

Definition example_get_updates {scheduler : Scheduler} (cls : optimizer)
    (loss : string → option grad) (params : list string) :=
  get_updates QBackend.re_search QBackend.K_epsilon cls cls example_self
    loss params (initial_build_state example_params).

(** Witness of [hook_restored_on_return]: weight decay over Adam, on a
    loss with a gradient for the parameter. *)
Lemma hook_restored_on_return_witness :
  ∃ updates bs',
    example_get_updates (extend_with_weight_decay Adam) example_loss ["w"]
    = (Ok updates, bs') ∧
    K_update bs' = K_update (initial_build_state example_params).
Proof.
  assert (is_Ok (example_get_updates (extend_with_weight_decay Adam)
                   example_loss ["w"]) = true) as H
    by (vm_compute; reflexivity).
  destruct (example_get_updates (extend_with_weight_decay Adam)
              example_loss ["w"]) as [[updates | e] bs'] eqn:E.
  - exists updates, bs'. split; [reflexivity |].
    exact (hook_restored_on_return _ _ _ _ _ _ _ _ _ _ E).
  - discriminate H.
Defined.

(** C3, counterexample.  Weight decay over Adam on a loss that has no
    gradient for the parameter: the delegated call raises [ValueError],
    and [K.update] is left as the replacement [new_update], which is not
    the function installed before the call. *)
Lemma hook_not_restored_on_failure :
  let bs := initial_build_state example_params in
  let r := example_get_updates (extend_with_weight_decay Adam) (λ _, None) ["w"] in
  r.1 = Raise ValueError ∧
  K_update r.2
  = weight_decay_new_update QBackend.re_search example_self [Param "w"]
      (K_update bs) ∧
  K_update r.2 ≠ K_update bs.
Proof.
  cbn zeta. split; [reflexivity |]. split; [reflexivity |].
  intros E.
  apply (f_equal (λ f : update_fn,
    value (f (Param "w") (const 1))
      (Runtime example_params 0))) in E.
  vm_compute in E. discriminate E.
Qed.

(** A state in which the slots of the parameter exist, and run-time states
    over the same variables. *)
Definition example_slots : gmap var QBackend.tensor :=
  let zeros : QBackend.tensor := [0%Q; 0%Q] in
  {[ Param "w" := ([1%Q; 2%Q] : QBackend.tensor); Slot "w" "m" := zeros;
     Slot "w" "v" := zeros; Slot "w" "slow_var" := zeros;
     Slot "w" "ag" := zeros ]}.

Definition example_state : build_state := initial_build_state example_slots.

Definition example_runtime (t : Z) : runtime := Runtime example_slots t.

Definition example_gradient : string → Z → QBackend.tensor :=
  λ _ _, [2%Q; 2%Q].

(** Building the graph of [cls] for the parameter [w] from its initial
    value, running [n] training steps, and reading the variable [x]. *)
Definition example_run {scheduler : Scheduler} (cls : optimizer)
    (loss : string → option grad) (n : nat) (x : var)
    : option QBackend.tensor :=
  match example_get_updates cls loss ["w"] with
  | (Ok updates, bs') =>
      Some (vars (train updates n (Runtime (variables bs') 0)) !!! x)
  | (Raise _, _) => None
  end.

Lemma example_slot_exists s :
  s ∈ ["m"; "v"; "slow_var"; "ag"] →
  is_Some (variables example_state !! Slot "w" s).
Proof.
  intros Hs. repeat (apply elem_of_cons in Hs as [-> | Hs]);
    [vm_compute; eexists; reflexivity .. | by apply elem_of_nil in Hs].
Qed.

Lemma example_loss_dense p :
  p ∈ ["w"] → example_loss p = Some (Dense (feed (example_gradient p))).
Proof. by intros ->%list_elem_of_singleton. Qed.

Lemma example_NoDup : NoDup ["w"].
Proof. apply NoDup_singleton. Qed.

Lemma example_elem : "w" ∈ ["w"].
Proof. by apply list_elem_of_singleton. Qed.

(** Witness of [Adam_dense_update]: one dense step on [w = [1; 2]] with
    gradient [[2; 2]]. *)
Lemma Adam_dense_update_witness :
  ∃ op : Tensor,
    _resource_apply_dense Adam example_self (feed (example_gradient "w")) "w"
      example_state
    = (Ok op, example_state) ∧
    value op (example_runtime 0) = [19 # 20; 39 # 20].
Proof.
  destruct (Adam_dense_update example_self (example_gradient "w") "w"
              example_state (example_runtime 0) eq_refl
              (example_slot_exists "m" ltac:(set_solver))
              (example_slot_exists "v" ltac:(set_solver)))
    as (op & E & Hrun).
  exists op. split; [exact E |].
  unfold value. cbn zeta in Hrun. rewrite Hrun. by vm_compute.
Defined.

(** Witness of [Adam_sparse_update]: the row [3] at index [1]. *)
Lemma Adam_sparse_update_witness :
  ∃ op : Tensor,
    _resource_apply_sparse Adam example_self (feed (λ _, [3%Q])) "w"
      (feed (λ _, [1%nat])) example_state
    = (Ok op, example_state) ∧
    value op (example_runtime 0) = [1%Q; 97 # 50] ∧
    vars (exec op (example_runtime 0)) !!! Slot "w" "m" = [0%Q; 3 # 2].
Proof.
  destruct (Adam_sparse_update example_self (λ _, [3%Q]) (λ _, [1%nat]) "w"
              example_state (example_runtime 0) eq_refl
              (example_slot_exists "m" ltac:(set_solver))
              (example_slot_exists "v" ltac:(set_solver)))
    as (op & E & Hrun).
  exists op. split; [exact E |].
  cbn zeta in Hrun. destruct Hrun as (Hval & _ & Hvars).
  split; [refine (eq_trans Hval _) | rewrite Hvars]; by vm_compute.
Defined.

(** Witness of [weight_decay_update]: [w] matches no exclude pattern, and
    one step commits Adam's value minus the decay. *)
Lemma weight_decay_update_witness :
  ∃ updates bs',
    example_get_updates (extend_with_weight_decay Adam) example_loss ["w"]
    = (Ok updates, bs') ∧
    vars (exec updates (example_runtime 0)) !!! Param "w"
    = [949 # 1000; 487 # 250].
Proof.
  destruct (weight_decay_update QBackend.re_search QBackend.K_epsilon
              example_self example_loss example_gradient ["w"]
              (initial_build_state example_params) eq_refl example_NoDup
              example_loss_dense)
    as (updates & bs' & updates0 & bs0' & E & _ & H).
  exists updates, bs'. split; [exact E |].
  destruct (H (example_runtime 0) "w" example_elem) as [Hd _].
  cbn zeta in Hd.
  refine (eq_trans (Hd _) _); [| by vm_compute].
  by intros n ->%list_elem_of_singleton.
Defined.

(** Witness of [layer_adaptation_update]: no exclude pattern, and the
    step of Adam is scaled by the ratio of the norms. *)
Lemma layer_adaptation_update_witness :
  ∃ updates bs',
    example_get_updates (extend_with_layer_adaptation Adam) example_loss ["w"]
    = (Ok updates, bs') ∧
    vars (exec updates (example_runtime 0)) !!! Param "w" = [4 # 5; 9 # 5].
Proof.
  destruct (layer_adaptation_update QBackend.re_search QBackend.K_epsilon
              example_self example_loss example_gradient ["w"]
              (initial_build_state example_params) eq_refl example_NoDup
              example_loss_dense)
    as (updates & bs' & E & H).
  exists updates, bs'. split; [exact E |].
  pose proof (H (example_runtime 0) "w" example_elem) as Hd.
  cbn zeta in Hd.
  refine (eq_trans (Hd _) _); [| by vm_compute].
  intros n Hn. cbn [exclude_from_layer_adaptation example_self] in Hn.
  inversion Hn.
Defined.

(** Witness of [piecewise_linear_lr_update]: at step 500 of the schedule
    [{1000: 1, 2000: 0.1}] half of the step of Adam is committed. *)
Lemma piecewise_linear_lr_update_witness :
  ∃ updates bs',
    example_get_updates (extend_with_piecewise_linear_lr Adam) example_loss
      ["w"]
    = (Ok updates, bs') ∧
    vars (exec updates (example_runtime 500)) !!! Param "w"
    = [39 # 40; 79 # 40].
Proof.
  destruct (piecewise_linear_lr_update QBackend.re_search QBackend.K_epsilon
              example_self example_loss example_gradient ["w"]
              (initial_build_state example_params) eq_refl example_NoDup
              example_loss_dense)
    as ((updates & bs' & E & H) & _).
  exists updates, bs'. split; [exact E |].
  pose proof (H (example_runtime 500) "w" example_elem) as Hd.
  cbn zeta in Hd.
  refine (eq_trans Hd _). by vm_compute.
Defined.

(** Witness of [gradient_accumulation_v2_update], with
    [steps_per_update = 2]: a step at [iterations = 1] leaves the
    parameter and adds the gradient to the accumulator. *)
Lemma gradient_accumulation_v2_update_witness :
  ∃ updates bs',
    example_get_updates (extend_with_gradient_accumulation_v2 Adam)
      example_loss ["w"]
    = (Ok updates, bs') ∧
    vars (train_step updates (example_runtime 1)) !!! Param "w" = [1%Q; 2%Q] ∧
    vars (train_step updates (example_runtime 1)) !!! Slot "w" "ag"
    = [2%Q; 2%Q].
Proof.
  destruct (gradient_accumulation_v2_update QBackend.re_search
              QBackend.K_epsilon example_self example_loss example_gradient
              ["w"] (initial_build_state example_params) eq_refl eq_refl
              eq_refl example_NoDup example_loss_dense)
    as (updates & bs' & E & H).
  exists updates, bs'. split; [exact E |].
  destruct (H (example_runtime 1) "w" example_elem) as (_ & Hd & _).
  cbn zeta in Hd. destruct Hd as (_ & _ & Hx & Hag); [done |].
  split; [refine (eq_trans Hx _) | refine (eq_trans Hag _)]; by vm_compute.
Defined.

(** Witness of [gradient_accumulation_gates_every_write], with
    [steps_per_update = 2]: at [iterations = 1] the ops of the classic
    variant leave the slot [m] as it is. *)
Lemma gradient_accumulation_gates_every_write_witness :
  ∃ updates bs',
    example_get_updates (extend_with_gradient_accumulation Adam) example_loss
      ["w"]
    = (Ok updates, bs') ∧
    vars (train_step updates (example_runtime 1)) !!! Slot "w" "m"
    = [0%Q; 0%Q].
Proof.
  destruct (gradient_accumulation_gates_every_write QBackend.re_search
              QBackend.K_epsilon example_self example_loss example_gradient
              ["w"] (initial_build_state example_params) eq_refl eq_refl
              example_NoDup example_loss_dense)
    as (_ & _ & updates & bs' & E & H).
  exists updates, bs'. split; [exact E |].
  refine (eq_trans (H (example_runtime 1) _ _) _); [done | by vm_compute].
Defined.

Lemma example_params_fresh p s :
  variables (initial_build_state example_params) !! Slot p s = None.
Proof. by apply lookup_singleton_ne. Qed.

(** C4, on a run that departs from it.  The slot-based lookahead over
    Adam with [alpha = 1/2], on the parameter [w = [1; 2]] with the gradient
    [[2; 2]], first step after the build (the slow variable holds zeros,
    [iterations = 0], a synchronising step).  Adam's update gives
    [fast = [19/20; 39/20]], so the claim has [slow' = fast' =
    0 + 1/2 * (fast - 0) = [19/40; 39/40]].  On a runtime that evaluates
    [slow_var_t] before the op of Adam, which the graph allows since the
    tensor is built (l.450) outside the block that depends on that op
    (l.452), the slow variable and the parameter are committed as
    [[1/2; 1]]: the blend took the parameter as it was before Adam's
    update, and the update is lost.  On a runtime that evaluates it after
    that op the claim's values are committed. *)
Theorem lookahead_v2_blend_misses_base_update :
  let LA2 := extend_with_lookahead_v2 Adam in
  example_run Adam example_loss 1 (Param "w") = Some [19 # 20; 39 # 20] ∧
  example_run (scheduler := reads_before_op) LA2 example_loss 1
    (Slot "w" "slow_var")
  = Some [1 # 2; 1%Q] ∧
  example_run (scheduler := reads_before_op) LA2 example_loss 1 (Param "w")
  = Some [1 # 2; 1%Q] ∧
  example_run (scheduler := reads_after_op) LA2 example_loss 1
    (Slot "w" "slow_var")
  = Some [19 # 40; 39 # 40] ∧
  example_run (scheduler := reads_after_op) LA2 example_loss 1 (Param "w")
  = Some [19 # 40; 39 # 40].
Proof. cbn zeta. repeat split; vm_compute; reflexivity. Qed.

(** C9, on a run that departs from it.  The slot-based lookahead over
    weight decay over Adam, same parameter, gradient and step.  Weight decay over Adam
    alone gives [fast = [949/1000; 487/250]].  The ops of the slot-based
    lookahead are built by [_resource_apply_op], inside the [get_updates]
    of weight decay, whose [new_update] is installed then: the write that
    copies the slow variable back to the parameter (l.456) is decayed once
    more.  So after the synchronising step the parameter is not the slow
    variable: with [slow_var_t] evaluated after the base op the slow
    variable holds [1/2 * fast = [949/2000; 487/500]] and the parameter
    [[473551/1000000; 243013/250000]]; with it evaluated before, [[1/2; 1]]
    and [[499051/1000000; 249513/250000]].  The classic lookahead builds
    its ops after the [get_updates] of its base class has returned, and
    commits the slow value itself. *)
Theorem lookahead_v2_copy_back_is_decayed :
  let base := extend_with_weight_decay Adam in
  let LA2 := extend_with_lookahead_v2 base in
  example_run base example_loss 1 (Param "w") = Some [949 # 1000; 487 # 250] ∧
  example_run (scheduler := reads_after_op) LA2 example_loss 1
    (Slot "w" "slow_var")
  = Some [949 # 2000; 487 # 500] ∧
  example_run (scheduler := reads_after_op) LA2 example_loss 1 (Param "w")
  = Some [473551 # 1000000; 243013 # 250000] ∧
  example_run (scheduler := reads_before_op) LA2 example_loss 1
    (Slot "w" "slow_var")
  = Some [1 # 2; 1%Q] ∧
  example_run (scheduler := reads_before_op) LA2 example_loss 1 (Param "w")
  = Some [499051 # 1000000; 249513 # 250000].
Proof. cbn zeta. repeat split; vm_compute; reflexivity. Qed.

(** The gradient [[2; 2]] at the steps 0 and 1, and none from then on. *)
Definition example_loss_two_steps (p : string)
    : option (grad (tensor := QBackend.tensor)) :=
  if decide (p = "w")
  then Some (Dense (feed (λ t : Z, if (t <? 2)%Z then [2%Q; 2%Q]
                                   else [0%Q; 0%Q])))
  else None.

(** C2, counterexample.  The slot-based gradient accumulation over Adam
    with [steps_per_update = 2], from the start.  The two steps with the
    gradients [[2; 2]] and [[2; 2]] leave the parameter at [[1; 2]], where
    one step of Adam with the average [[2; 2]] gives [[19/20; 39/20]];
    this value is committed by the third step, whose own gradient and
    that of the fourth step are zero. *)
Lemma accumulated_gradient_is_applied_one_window_late :
  let GA := extend_with_gradient_accumulation_v2 Adam in
  example_run GA example_loss_two_steps 2 (Param "w") = Some [1%Q; 2%Q] ∧
  example_run Adam example_loss 1 (Param "w") = Some [19 # 20; 39 # 20] ∧
  example_run GA example_loss_two_steps 3 (Param "w")
  = Some [19 # 20; 39 # 20] ∧
  example_run GA example_loss_two_steps 4 (Param "w")
  = Some [19 # 20; 39 # 20].
Proof. cbn zeta. repeat split; vm_compute; reflexivity. Qed.

(** ** Concrete runs for the further properties *)

(** Witness of [hook_stack_get_updates_composes]: weight decay over layer
    adaptation over Adam.  Adam is built with the [new_update] of layer
    adaptation, which calls that of weight decay, which calls
    [K.update]. *)
Lemma hook_stack_get_updates_composes_witness :
  let cls := extend_with_weight_decay (extend_with_layer_adaptation Adam) in
  ∃ bs',
    example_get_updates cls example_loss ["w"]
    = (Ok (run_all
             [Adam_op
                (layer_adaptation_new_update QBackend.re_search
                   QBackend.K_epsilon example_self [Param "w"]
                   (weight_decay_new_update QBackend.re_search example_self
                      [Param "w"] K_update_default))
                example_self (feed (example_gradient "w")) "w" None]),
       bs').
Proof.
  intros cls.
  destruct (hook_stack_get_updates_composes QBackend.re_search
              QBackend.K_epsilon cls example_self example_loss
              (λ q, Dense (feed (example_gradient q))) ["w"]
              (initial_build_state example_params) eq_refl example_loss_dense)
    as (bs' & E & _).
  exists bs'. exact E.
Defined.

(** Witness of [hook_stack_step]: the same stack; the step of Adam is
    scaled by layer adaptation first and decayed afterwards. *)
Lemma hook_stack_step_witness :
  let cls := extend_with_weight_decay (extend_with_layer_adaptation Adam) in
  ∃ updates bs',
    example_get_updates cls example_loss ["w"] = (Ok updates, bs') ∧
    vars (exec updates (example_runtime 0)) !!! Param "w"
    = [799 # 1000; 899 # 500].
Proof.
  intros cls.
  destruct (hook_stack_step QBackend.re_search QBackend.K_epsilon cls
              example_self example_loss example_gradient ["w"]
              (initial_build_state example_params) eq_refl eq_refl
              example_NoDup example_loss_dense)
    as (updates & bs' & E & H).
  exists updates, bs'. split; [exact E |].
  destruct (H (example_runtime 0) "w" example_elem) as (_ & _ & _ & Hx).
  cbn zeta in Hx. refine (eq_trans Hx _). by vm_compute.
Defined.

(** Witness of [lookahead_v2_over_gradient_accumulation_v2_raises]. *)
Lemma lookahead_v2_over_gradient_accumulation_v2_raises_witness :
  let cls := extend_with_lookahead_v2
               (extend_with_gradient_accumulation_v2 Adam) in
  ∃ bs', example_get_updates cls example_loss ["w"] = (Raise TypeError, bs').
Proof.
  intros cls.
  destruct (lookahead_v2_over_gradient_accumulation_v2_raises
              QBackend.re_search QBackend.K_epsilon example_self example_loss
              (λ q, Dense (feed (example_gradient q))) "w" []
              (initial_build_state example_params) eq_refl example_loss_dense)
    as (_ & bs' & E).
  exists bs'. exact E.
Defined.

(** Witness of [gradient_accumulation_never_accumulates]: with the
    gradient [[2; 2]] at every step and [steps_per_update = 2], the
    accumulator of the classic variant holds zeros after four steps, and
    the parameter its initial value. *)
Lemma gradient_accumulation_never_accumulates_witness :
  let r := example_get_updates (extend_with_gradient_accumulation Adam)
             example_loss ["w"] in
  ∃ updates,
    r.1 = Ok updates ∧
    vars (train updates 4 (Runtime (variables r.2) 0))
      !!! Buffer "accum_grad" 0
    = [0%Q; 0%Q] ∧
    example_run (extend_with_gradient_accumulation Adam) example_loss 4
      (Param "w")
    = Some [1%Q; 2%Q].
Proof.
  intros r.
  destruct (gradient_accumulation_never_accumulates QBackend.re_search
              QBackend.K_epsilon example_self example_loss example_gradient
              ["w"] (initial_build_state example_params) eq_refl eq_refl
              example_loss_dense)
    as (updates & bs' & E & H).
  exists updates. subst r. unfold example_get_updates. rewrite E.
  split; [reflexivity |]. split; [| by vm_compute].
  refine (eq_trans (H 4%nat _ _ _) _). cbn [snd vars].
  change bs' with (Ok updates, bs').2. rewrite <- E. by vm_compute.
Defined.

(** Witness of [_resource_apply_op_leaves_state]: the slot-based
    lookahead over Adam, in a state where the slots exist. *)
Lemma _resource_apply_op_leaves_state_witness :
  ∃ op : Tensor,
    _resource_apply_op (extend_with_lookahead_v2 Adam) example_self
      (feed (example_gradient "w")) "w" None example_state
    = (Ok op, example_state).
Proof.
  assert (is_Ok (_resource_apply_op (extend_with_lookahead_v2 Adam)
                   example_self (feed (example_gradient "w")) "w" None
                   example_state) = true)
    as H by (vm_compute; reflexivity).
  destruct (_resource_apply_op (extend_with_lookahead_v2 Adam) example_self
              (feed (example_gradient "w")) "w" None example_state)
    as [[op | e] bs'] eqn:E; [| discriminate H].
  exists op.
  by rewrite (_resource_apply_op_leaves_state _ _ _ _ _ _ _ _ E).
Defined.

(** Witness of [lookahead_first_step_blends_with_zeros], with
    [slow_step_size = 1/2], on the runtime that evaluates [slow_var_t]
    after the op of Adam: Adam alone gives [[19/20; 39/20]], and the first
    step of lookahead commits half of it. *)
Lemma lookahead_first_step_blends_with_zeros_witness :
  ∃ updates bs',
    example_get_updates (extend_with_lookahead_v2 Adam) example_loss ["w"]
    = (Ok updates, bs') ∧
    vars (train_step updates (Runtime (variables bs') 0)) !!! Param "w"
    = [19 # 40; 39 # 40].
Proof.
  destruct (lookahead_first_step_blends_with_zeros QBackend.re_search
              QBackend.K_epsilon example_self example_loss example_gradient
              ["w"] (initial_build_state example_params) eq_refl example_NoDup
              example_loss_dense example_params_fresh)
    as (updates & bs' & E & H).
  exists updates, bs'. split; [exact E |].
  destruct (H "w" example_elem) as [_ H2]. cbn zeta in H2.
  refine (eq_trans H2 _). by vm_compute.
Defined.

(** Witness of [lookahead_v2_step_over_Adam], on the runtime that
    evaluates [slow_var_t] before the op of Adam: at the step 5, from the
    state in which the slots hold zeros, the parameter is blended with
    its value before the step. *)
Lemma lookahead_v2_step_over_Adam_witness :
  ∃ updates bs',
    example_get_updates (scheduler := reads_before_op)
      (extend_with_lookahead_v2 Adam) example_loss ["w"]
    = (Ok updates, bs') ∧
    vars (train_step updates (example_runtime 5)) !!! Param "w"
    = [1 # 2; 1%Q] ∧
    vars (train_step updates (example_runtime 6)) !!! Param "w"
    = [19 # 20; 39 # 20].
Proof.
  destruct (lookahead_v2_step_over_Adam (scheduler := reads_before_op)
              QBackend.re_search QBackend.K_epsilon example_self example_loss
              example_gradient ["w"] (initial_build_state example_params)
              eq_refl example_NoDup example_loss_dense)
    as (updates & bs' & E & H).
  exists updates, bs'. split; [exact E |]. split.
  - destruct (H (example_runtime 5) "w" example_elem) as (_ & _ & _ & H5 & _).
    destruct (H5 eq_refl) as [_ Hx]. refine (eq_trans Hx _). by vm_compute.
  - destruct (H (example_runtime 6) "w" example_elem) as (_ & _ & _ & _ & H6).
    destruct (H6 ltac:(done)) as [_ Hx]. refine (eq_trans Hx _). by vm_compute.
Defined.



(** A state of the build in which the gradient of the loss for [w] is
    the row [3] at index [1]. *)
Definition example_sparse_state : build_state :=
  BuildState K_update_default example_slots false None
    {[ "w" := IndexedSlices (feed (λ _, ([3%Q] : QBackend.tensor)))
                (feed (λ _, [1%nat])) ]}.

(** Witness of [gradient_accumulation_v2_sparse_gradient]: at the step 1
    the row is added to the accumulator, and the parameter stays. *)
Lemma gradient_accumulation_v2_sparse_gradient_witness :
  ∃ op : Tensor,
    _resource_apply_dense (extend_with_gradient_accumulation_v2 Adam)
      example_self (accumulated_gradient example_self (Slot "w" "ag")) "w"
      example_sparse_state
    = (Ok op, example_sparse_state) ∧
    vars (exec op (example_runtime 1)) !!! Slot "w" "ag" = [0%Q; 3%Q] ∧
    vars (exec op (example_runtime 1)) !!! Param "w" = [1%Q; 2%Q].
Proof.
  destruct (gradient_accumulation_v2_sparse_gradient example_self
              (λ _, [3%Q]) (λ _, [1%nat]) "w" example_sparse_state eq_refl
              (example_slot_exists "m" ltac:(set_solver))
              (example_slot_exists "v" ltac:(set_solver))
              (example_slot_exists "ag" ltac:(set_solver)) eq_refl)
    as (op & E & Hrun).
  exists op. split; [exact E |].
  destruct (Hrun (example_runtime 1)) as (_ & _ & Hother).
  destruct (Hother ltac:(by vm_compute)) as [Hag Hx].
  split; [refine (eq_trans Hag _) | refine (eq_trans Hx _)]; by vm_compute.
Defined.

(** Witness of [gradient_accumulation_get_gradients_calls], on a fresh
    optimizer. *)
Lemma gradient_accumulation_get_gradients_calls_witness :
  let bs := initial_build_state example_params in
  let G := λ q, Dense (feed (example_gradient q)) in
  (∃ bs1,
     get_gradients (extend_with_gradient_accumulation Adam) example_self
       example_loss ["w"] bs
     = (Ok [G "w"], bs1) ∧
     get_gradients (extend_with_gradient_accumulation Adam) example_self
       example_loss ["w"] bs1
     = (Raise AttributeError, bs1)) ∧
  (∃ bs2,
     get_gradients (extend_with_gradient_accumulation_v2 Adam) example_self
       example_loss ["w"] bs
     = (Ok [G "w"], bs2) ∧
     get_gradients (extend_with_gradient_accumulation_v2 Adam) example_self
       example_loss ["w"] bs2
     = (Ok [Dense (accumulated_gradient example_self (Slot "w" "ag"))], bs2)).
Proof.
  intros bs G.
  destruct (gradient_accumulation_get_gradients_calls example_self
              example_loss G ["w"] bs eq_refl eq_refl example_loss_dense)
    as ((bs1 & E1 & _ & H1) & (bs2 & E2 & _ & H2)).
  split.
  - exists bs1. split; [exact E1 | exact (H1 example_loss)].
  - exists bs2. split; [exact E2 | exact (H2 example_loss)].
Defined.


